(** * Team Requirement Analyzer: the calculation block of [team_size.py]

    The script reads ten numbers from sidebar widgets, evaluates a
    straight-line block of Python float arithmetic (lines 141-167) and
    renders the results.  This development embeds that block and the
    expressions that the display code evaluates on its results
    ([int(...)], [x % 1 > 0], [sum(team_rounded.values())]).

    Python's [float] is IEEE-754 binary64.  It is modelled by the
    executable specification [SpecFloat] of the standard library at
    precision 53 and maximal exponent 1024, so every definition below
    computes to the very bits CPython produces.

    The file has four parts: the embedding of the script; a small theory
    of rounding in [SpecFloat] (each operation returns a double next to
    the exact result, never across another double, and sums and
    differences are off by at most [2^-52] relatively); the properties
    of the calculation that its specification states, first those that
    hold as stated, then those that hold up to rounding; and properties
    of the code beyond the specification: what happens on the widgets'
    ranges, how the figures move with the inputs (the operations round
    to the nearest double, ties to even, hence monotonically), and what
    the rounding expression does below zero. *)

From Stdlib Require Import ZArith QArith Qround Qpower Qabs Bool Lia Lqa List String.
From Stdlib Require Import SpecFloat.
Import ListNotations.

Local Open Scope Z_scope.

(** ** Python numbers *)

Module Py.

Definition prec : Z := 53.
Definition emax : Z := 1024.

Definition float : Type := spec_float.

(** The exceptions the arithmetic of the script can raise. *)
Inductive exn : Type :=
| ZeroDivisionError
| OverflowError
| ValueError.

Inductive result (A : Type) : Type :=
| Ok (a : A)
| Raise (e : exn).
Arguments Ok {A} a.
Arguments Raise {A} e.

Definition bind {A B : Type} (r : result A) (k : A -> result B) : result B :=
  match r with
  | Ok a => k a
  | Raise e => Raise e
  end.

Definition pzero : float := S754_zero false.
Definition nan : float := S754_nan.

Definition is_zero (x : float) : bool :=
  match x with
  | S754_zero _ => true
  | _ => false
  end.

(** [float(n)] for a Python [int]: nearest-even rounding, and
    [OverflowError] when the integer is beyond the largest double. *)
Definition Z2SF (n : Z) : float := binary_normalize prec emax n 0 false.

Definition of_int (n : Z) : result float :=
  match Z2SF n with
  | S754_infinity _ => Raise OverflowError
  | f => Ok f
  end.

(** A decimal literal [num/den] with both parts exactly representable:
    the nearest double to the quotient. *)
Definition literal (num den : Z) : float :=
  SFdiv prec emax (Z2SF num) (Z2SF den).

Definition fadd : float -> float -> float := SFadd prec emax.
Definition fsub : float -> float -> float := SFsub prec emax.
Definition fmul : float -> float -> float := SFmul prec emax.

(** [x / y] on floats raises on a zero divisor of either sign. *)
Definition fdiv (x y : float) : result float :=
  if is_zero y then Raise ZeroDivisionError else Ok (SFdiv prec emax x y).

(** Mixed float/int operands: the int is converted first. *)
Definition fmul_int (x : float) (n : Z) : result float :=
  bind (of_int n) (fun y => Ok (fmul x y)).

Definition fdiv_int (x : float) (n : Z) : result float :=
  bind (of_int n) (fun y => fdiv x y).

(** [x > 0] *)
Definition gt_zero (x : float) : bool := SFltb pzero x.

(** [int(x)]: truncation toward zero; infinities and NaN raise. *)
Definition int (x : float) : result Z :=
  match x with
  | S754_zero _ => Ok 0
  | S754_infinity _ => Raise OverflowError
  | S754_nan => Raise ValueError
  | S754_finite s m e =>
      let a := match e with
               | Zneg k => Z.shiftr (Zpos m) (Zpos k)
               | _ => Z.shiftl (Zpos m) e
               end in
      Ok (if s then - a else a)
  end.

(** The canonical representation of [m * 2^e] when that number is a
    double (no bits are lost): the mantissa is shifted left as far as
    the format allows. *)
Definition renorm (s : bool) (m : positive) (e : Z) : float :=
  let '(m', e') :=
    shl_align m e (fexp prec emax (Zpos (digits2_pos m) + e)) in
  S754_finite s m' e'.

(** [x % 1], after CPython's [float_rem]: [fmod(x, 1.0)], which is
    exact and carries the sign of [x]; a negative remainder is moved
    into the divisor's sign by adding [1.0]; a zero remainder becomes
    [+0.0]. *)
Definition mod_one (x : float) : float :=
  match x with
  | S754_nan | S754_infinity _ => nan
  | S754_zero _ => pzero
  | S754_finite s m e =>
      match e with
      | Zneg k =>
          match Z.land (Zpos m) (Z.ones (Zpos k)) with
          | Zpos r =>
              let f := renorm s r e in
              if s then fadd f (Z2SF 1) else f
          | _ => pzero
          end
      | _ => pzero
      end
  end.

End Py.

Import Py.

Notation "x <- c1 ;; c2" := (bind c1 (fun x => c2))
  (at level 61, c1 at next level, right associativity).

(** ** The sidebar inputs *)

(** [avg_tenure] and [no_of_days] come from widgets whose bounds, value and
    step are Python ints, so they are ints; the others are floats. *)
Record inputs : Type := {
  loan_amt_current : float;
  pf_percentage : float;
  roi_per_day : float;
  avg_ticket_size : float;
  avg_tenure : Z;
  no_of_days : Z;
  loan_amt_t1 : float;
  loan_amt_t2 : float;
  sanction_sales_target : float;
  collection_target : float
}.

(** The widgets' [value=] arguments. *)
Definition defaults : inputs := {|
  loan_amt_current := Z2SF 10000000;
  pf_percentage := literal 118 10;
  roi_per_day := Z2SF 1;
  avg_ticket_size := Z2SF 30000;
  avg_tenure := 25;
  no_of_days := 30;
  loan_amt_t1 := Z2SF 8000000;
  loan_amt_t2 := Z2SF 5000000;
  sanction_sales_target := Z2SF 250000;
  collection_target := Z2SF 8000000
|}.

(** ** The calculation block (lines 141-167) *)

Record calc : Type := {
  pf_amount : float;
  amt_in_bank : float;
  repayment_amt : float;
  no_of_loans : float;
  no_sanction_sales : float;
  interest_current : float;
  interest_t1 : float;
  interest_t2 : float;
  collection_current : float;
  collection_t1 : float;
  collection_t2 : float;
  total_collection_required : float;
  no_collection : float
}.

(** The literals [0.11] and [0.78] as the doubles the parser produces. *)
Definition w_0_11 : float := S754_finite false 7926335344172073 (-56).
Definition w_0_78 : float := S754_finite false 7025615418697974 (-53).

(** [amount * (roi_per_day / 100) * avg_tenure], the expression of lines
    145 and 154-156. *)
Definition interest (amount roi : float) (tenure : Z) : result float :=
  r <- fdiv_int roi 100 ;;
  fmul_int (fmul amount r) tenure.

Definition calculation (i : inputs) : result calc :=
  (* 141-142 *)
  pf_rate <- fdiv_int (pf_percentage i) 100 ;;
  let pf_amount := fmul pf_rate (loan_amt_current i) in
  let amt_in_bank := fsub (loan_amt_current i) pf_amount in
  (* 145 *)
  rep_interest <- interest (loan_amt_current i) (roi_per_day i) (avg_tenure i) ;;
  let repayment_amt := fadd (loan_amt_current i) rep_interest in
  (* 148 *)
  no_of_loans <- fdiv (loan_amt_current i) (avg_ticket_size i) ;;
  (* 151 *)
  daily <- fdiv_int (loan_amt_current i) (no_of_days i) ;;
  no_sanction_sales <- fdiv daily (sanction_sales_target i) ;;
  (* 154-156 *)
  interest_current <- interest (loan_amt_current i) (roi_per_day i) (avg_tenure i) ;;
  interest_t1 <- interest (loan_amt_t1 i) (roi_per_day i) (avg_tenure i) ;;
  interest_t2 <- interest (loan_amt_t2 i) (roi_per_day i) (avg_tenure i) ;;
  (* 159-161 *)
  let collection_current := fmul (fadd (loan_amt_current i) interest_current) w_0_11 in
  let collection_t1 := fmul (fadd (loan_amt_t1 i) interest_t1) w_0_78 in
  let collection_t2 := fmul (fadd (loan_amt_t2 i) interest_t2) w_0_11 in
  (* 164 *)
  let total_collection_required :=
    fadd (fadd collection_current collection_t1) collection_t2 in
  (* 167 *)
  no_collection <- fdiv total_collection_required (collection_target i) ;;
  Ok {| pf_amount := pf_amount;
        amt_in_bank := amt_in_bank;
        repayment_amt := repayment_amt;
        no_of_loans := no_of_loans;
        no_sanction_sales := no_sanction_sales;
        interest_current := interest_current;
        interest_t1 := interest_t1;
        interest_t2 := interest_t2;
        collection_current := collection_current;
        collection_t1 := collection_t1;
        collection_t2 := collection_t2;
        total_collection_required := total_collection_required;
        no_collection := no_collection |}.

(** ** What the display code computes from the block's results *)

(** [1 if x % 1 > 0 else 0] *)
Definition increment (x : float) : Z :=
  if gt_zero (mod_one x) then 1 else 0.

(** [int(x) + (1 if x % 1 > 0 else 0)], lines 214, 224, 289, 290. *)
Definition rounded (x : float) : result Z :=
  n <- int x ;;
  Ok (n + increment x).

(** Line 191: [int(no_of_loans)]. *)
Definition number_of_loans_metric (c : calc) : result Z :=
  int (no_of_loans c).

(** Line 198, the "Total Staff Required" tile: one flat sum, evaluated
    left to right. *)
Definition total_staff_metric (c : calc) : result Z :=
  a <- int (no_sanction_sales c) ;;
  let s1 := a + increment (no_sanction_sales c) in
  b <- int (no_collection c) ;;
  let s2 := s1 + b in
  Ok (s2 + increment (no_collection c)).

(** Lines 288-291: the dict, in insertion order. *)
Definition team_rounded (c : calc) : result (list (string * Z)) :=
  s <- rounded (no_sanction_sales c) ;;
  k <- rounded (no_collection c) ;;
  Ok [("Sanction & Sales"%string, s); ("Collection"%string, k)].

Definition values {K V : Type} (d : list (K * V)) : list V := map snd d.

(** Python's [sum]: a left fold that starts at [0]. *)
Definition sum (l : list Z) : Z := fold_left Z.add l 0.

(** Lines 373 and 417: [sum(team_rounded.values())]. *)
Definition summary_total (c : calc) : result Z :=
  t <- team_rounded c ;;
  Ok (sum (values t)).

(** Everything a render shows that the claims talk about, in the order
    the script evaluates it. *)
Record outputs : Type := {
  figures : calc;
  loan_count : Z;
  total_headcount : Z;
  sanction_headcount_rounded : Z;
  collection_headcount_rounded : Z;
  reported_total : Z
}.

Definition render (i : inputs) : result outputs :=
  c <- calculation i ;;
  n <- number_of_loans_metric c ;;
  tile <- total_staff_metric c ;;
  s <- rounded (no_sanction_sales c) ;;
  k <- rounded (no_collection c) ;;
  t <- summary_total c ;;
  Ok {| figures := c;
        loan_count := n;
        total_headcount := tile;
        sanction_headcount_rounded := s;
        collection_headcount_rounded := k;
        reported_total := t |}.


(** ** Auxiliary notions for the rounding lemmas *)

(** The record remembers whether anything non-zero has been shifted out. *)
Definition inexact (mrs : shr_record) : bool := shr_r mrs || shr_s mrs.

(** Whether a location says that bits have been lost. *)
Definition loc_inexact (l : location) : bool :=
  match l with
  | loc_Exact => false
  | loc_Inexact _ => true
  end.

(** The number of bits [shr_fexp] drops from [m * 2^e]. *)
Definition drop (prec emax m e : Z) : Z :=
  Z.max 0 (fexp prec emax (Zdigits2 m + e) - e).

(** What [binary_round_aux] returns once the rounded mantissa [m]
    at exponent [e] is known: a carry into bit [prec] costs one more
    shift, and too large an exponent is an overflow. *)
Definition finish (prec emax : Z) (s : bool) (m e : Z) : spec_float :=
  if m =? 0 then S754_zero s
  else
    let '(m', e') :=
      if m =? 2 ^ prec then (2 ^ (prec - 1), e + 1) else (m, e) in
    if e' <=? emax - prec then S754_finite s (Z.to_pos m') e'
    else S754_infinity s.

(** [2^e] for an exponent of either sign. *)
Definition pow2 (e : Z) : Q := (2 ^ e)%Q.

(** The rational a float stands for (zero for the non-numbers). *)
Definition F2Q (x : spec_float) : Q :=
  match x with
  | S754_finite s m e => inject_Z (cond_Zopp s (Zpos m)) * pow2 e
  | _ => 0
  end.

(** Zero or finite. *)
Definition is_finite (x : spec_float) : bool :=
  match x with
  | S754_zero _ | S754_finite _ _ _ => true
  | _ => false
  end.

(** Sign bit clear, NaN excluded: [+0.0], a positive finite float, or
    [+inf]. *)
Definition is_nonneg (x : spec_float) : bool :=
  match x with
  | S754_zero s | S754_finite s _ _ | S754_infinity s => negb s
  | S754_nan => false
  end.

(** [x] is known through a mantissa, an exponent and a location. *)
Definition represents (m e : Z) (l : location) (x : Q) : Prop :=
  if loc_inexact l
  then (inject_Z m * pow2 e < x /\ x < inject_Z (m + 1) * pow2 e)%Q
  else (x == inject_Z m * pow2 e)%Q.

(** [m * 2^e] is [x], or the multiple of [2^e] next to [x] on either
    side. *)
Definition adjacent (m e : Z) (x : Q) : Prop :=
  (inject_Z m * pow2 e == x)%Q
  \/ (inject_Z (m - 1) * pow2 e < x /\ x < inject_Z m * pow2 e)%Q
  \/ (inject_Z m * pow2 e < x /\ x < inject_Z (m + 1) * pow2 e)%Q.

(** [r] is the float obtained by rounding the non-negative [x] to the
    mantissa [m] at exponent [e]. *)
Definition rounds_to (prec emax : Z) (r : spec_float) (m e : Z) (x : Q) : Prop :=
  r = finish prec emax false m e
  /\ 0 <= m <= 2 ^ prec
  /\ adjacent m e x
  /\ (0 <= x)%Q
  /\ emin prec emax <= e
  /\ (emin prec emax < e -> (pow2 (prec - 1 + e) <= x)%Q)
  /\ (forall my ey, bounded prec emax my ey = true ->
      (0 < x)%Q -> (x <= inject_Z (Zpos my) * pow2 ey)%Q -> e <= ey).

(** Non-negative, finite and valid: what the inputs of the block are. *)
Definition good (prec emax : Z) (x : spec_float) : bool :=
  valid_binary prec emax x && is_finite x && is_nonneg x.

(** [r] is the non-negative [x] rounded into the format: a valid float
    of clear sign bit that no float of the format separates from [x]. *)
Definition fl_of (prec emax : Z) (r : spec_float) (x : Q) : Prop :=
  (0 <= x)%Q
  /\ valid_binary prec emax r = true
  /\ is_nonneg r = true
  /\ (forall z, good prec emax z = true -> (x <= F2Q z)%Q ->
      is_finite r = true /\ (F2Q r <= F2Q z)%Q)
  /\ (forall z, good prec emax z = true -> (F2Q z <= x)%Q ->
      r = S754_infinity false
      \/ (is_finite r = true /\ (F2Q z <= F2Q r)%Q)).

(** The rounding error is relative, at most [2^(1-prec)]. *)
Definition fl_rel (prec emax : Z) (r : spec_float) (x : Q) : Prop :=
  r = S754_infinity false
  \/ (is_finite r = true /\ (Qabs (F2Q r - x) <= pow2 (1 - prec) * x)%Q).


(** ** Notions the statements below use *)


(** The fractional part. *)
Definition frac (q : Q) : Q := q - inject_Z (Qfloor q).


(** The defaults with another disbursement, fee percentage, daily rate
    and tenure. *)
Definition scenario (amount pf roi : float) (tenure : Z) : inputs :=
  {| loan_amt_current := amount;
     pf_percentage := pf;
     roi_per_day := roi;
     avg_ticket_size := avg_ticket_size defaults;
     avg_tenure := tenure;
     no_of_days := no_of_days defaults;
     loan_amt_t1 := loan_amt_t1 defaults;
     loan_amt_t2 := loan_amt_t2 defaults;
     sanction_sales_target := sanction_sales_target defaults;
     collection_target := collection_target defaults |}.

(** A non-negative finite double: what the float widgets deliver
    (their [min_value] is [0.0] or more). *)
Definition amount_ok (x : float) : bool := good prec emax x.

(** ** Rounding to nearest *)

(** Where [x] lies in the interval from [m * 2^e] to [(m + 1) * 2^e],
    as the round bit [r] and the sticky bit [s] say: at its lower end,
    in its lower half, at its middle or in its upper half.  The unit is
    the half step [2^(e-1)]. *)
Definition located (m e : Z) (r s : bool) (x : Q) : Prop :=
  match r, s with
  | false, false => (x == inject_Z (2 * m) * pow2 (e - 1))%Q
  | false, true =>
      (inject_Z (2 * m) * pow2 (e - 1) < x
       /\ x < inject_Z (2 * m + 1) * pow2 (e - 1))%Q
  | true, false => (x == inject_Z (2 * m + 1) * pow2 (e - 1))%Q
  | true, true =>
      (inject_Z (2 * m + 1) * pow2 (e - 1) < x
       /\ x < inject_Z (2 * m + 2) * pow2 (e - 1))%Q
  end.

(** The same, for a location. *)
Definition located_loc (m e : Z) (l : location) (x : Q) : Prop :=
  located m e (shr_r (shr_record_of_loc m l)) (shr_s (shr_record_of_loc m l)) x.

(** [m * 2^e] is a multiple of [2^e] nearest to [x], the even one when
    [x] is half way between two. *)
Definition nearest (m e : Z) (x : Q) : Prop :=
  (inject_Z (2 * m - 1) * pow2 (e - 1) <= x)%Q
  /\ (x <= inject_Z (2 * m + 1) * pow2 (e - 1))%Q
  /\ ((x == inject_Z (2 * m - 1) * pow2 (e - 1))%Q -> Z.even m = true)
  /\ ((x == inject_Z (2 * m + 1) * pow2 (e - 1))%Q -> Z.even m = true).

(** [r] is the non-negative [x] rounded to nearest, ties to even, at
    the exponent [e] the format gives to [x]. *)
Definition rounds_nearest (prec emax : Z) (r : spec_float) (m e : Z) (x : Q)
  : Prop :=
  r = finish prec emax false m e
  /\ nearest m e x
  /\ (0 <= x)%Q
  /\ emin prec emax <= e
  /\ (emin prec emax < e -> (pow2 (prec - 1 + e) <= x)%Q)
  /\ (x < pow2 (prec + e))%Q.

Definition fl_near (prec emax : Z) (r : spec_float) (x : Q) : Prop :=
  exists m e, rounds_nearest prec emax r m e x.

(** The order of the non-negative doubles with [+inf] on top. *)
Definition ext_le (r r' : spec_float) : Prop :=
  r' = S754_infinity false
  \/ (is_finite r = true /\ is_finite r' = true /\ (F2Q r <= F2Q r')%Q).

(** ** The widgets' ranges *)

(** What the sidebar widgets (lines 45-135) can deliver: every float is
    a non-negative finite double, at or above its [min_value] and at or
    below its [max_value] where there is one; the two ints are at least
    1, the days at most 31. *)
Definition widget_range (i : inputs) : bool :=
  amount_ok (loan_amt_current i)
  && (amount_ok (pf_percentage i) && Qle_bool (F2Q (pf_percentage i)) 100)
  && (amount_ok (roi_per_day i) && Qle_bool (F2Q (roi_per_day i)) 10)
  && (amount_ok (avg_ticket_size i) && Qle_bool 1 (F2Q (avg_ticket_size i)))
  && (1 <=? avg_tenure i)
  && ((1 <=? no_of_days i) && (no_of_days i <=? 31))
  && amount_ok (loan_amt_t1 i)
  && amount_ok (loan_amt_t2 i)
  && (amount_ok (sanction_sales_target i)
      && Qle_bool 1 (F2Q (sanction_sales_target i)))
  && (amount_ok (collection_target i)
      && Qle_bool 1 (F2Q (collection_target i))).

(** A figure of the block: a non-negative double or [+inf], never a
    NaN. *)
Definition figure_ok (x : float) : bool :=
  is_nonneg x && valid_binary prec emax x.

(** Every figure of a run. *)
Definition figures_of (c : calc) : list float :=
  [pf_amount c; amt_in_bank c; repayment_amt c; no_of_loans c;
   no_sanction_sales c; interest_current c; interest_t1 c; interest_t2 c;
   collection_current c; collection_t1 c; collection_t2 c;
   total_collection_required c; no_collection c].

(** [i'] asks for at least as much work as [i] from teams that are at
    most as productive: no smaller disbursements, rate and tenure, no
    larger month, ticket size and per-person targets. *)
Definition more_demand (i i' : inputs) : Prop :=
  (F2Q (loan_amt_current i) <= F2Q (loan_amt_current i'))%Q
  /\ (F2Q (roi_per_day i) <= F2Q (roi_per_day i'))%Q
  /\ avg_tenure i <= avg_tenure i'
  /\ (F2Q (loan_amt_t1 i) <= F2Q (loan_amt_t1 i'))%Q
  /\ (F2Q (loan_amt_t2 i) <= F2Q (loan_amt_t2 i'))%Q
  /\ no_of_days i' <= no_of_days i
  /\ (F2Q (avg_ticket_size i') <= F2Q (avg_ticket_size i))%Q
  /\ (F2Q (sanction_sales_target i') <= F2Q (sanction_sales_target i))%Q
  /\ (F2Q (collection_target i') <= F2Q (collection_target i))%Q.

(** ** Display values computed outside the block *)

(** [x/100000], the lakh figures of the tiles and of the collection
    table. *)
Definition lakhs (x : float) : result float := fdiv_int x 100000.

(** Line 184, the delta of the repayment tile:
    [(repayment_amt-loan_amt_current)/100000]. *)
Definition repayment_delta (i : inputs) (c : calc) : result float :=
  lakhs (fsub (repayment_amt c) (loan_amt_current i)).

(** Line 211, the daily target: [loan_amt_current/no_of_days]. *)
Definition daily_target (i : inputs) : result float :=
  fdiv_int (loan_amt_current i) (no_of_days i).

(** The lakh figures the page formats, in the order the script
    evaluates them: lines 175, 176, 183, 184, then the columns of the
    collection table (238-240, 243-245, 248-250) and line 256. *)
Definition lakh_cells (i : inputs) (c : calc) : result (list float) :=
  bank <- lakhs (amt_in_bank c) ;;
  fee <- lakhs (pf_amount c) ;;
  repayment <- lakhs (repayment_amt c) ;;
  delta <- repayment_delta i c ;;
  d0 <- lakhs (loan_amt_current i) ;;
  d1 <- lakhs (loan_amt_t1 i) ;;
  d2 <- lakhs (loan_amt_t2 i) ;;
  i0 <- lakhs (interest_current c) ;;
  i1 <- lakhs (interest_t1 c) ;;
  i2 <- lakhs (interest_t2 c) ;;
  c0 <- lakhs (collection_current c) ;;
  c1 <- lakhs (collection_t1 c) ;;
  c2 <- lakhs (collection_t2 c) ;;
  total <- lakhs (total_collection_required c) ;;
  Ok [bank; fee; repayment; delta; d0; d1; d2; i0; i1; i2; c0; c1; c2; total].

(** ** Scenarios *)

(** [i] with other disbursements for the three months. *)
Definition with_disbursements (d0 d1 d2 : float) (i : inputs) : inputs :=
  {| loan_amt_current := d0;
     pf_percentage := pf_percentage i;
     roi_per_day := roi_per_day i;
     avg_ticket_size := avg_ticket_size i;
     avg_tenure := avg_tenure i;
     no_of_days := no_of_days i;
     loan_amt_t1 := d1;
     loan_amt_t2 := d2;
     sanction_sales_target := sanction_sales_target i;
     collection_target := collection_target i |}.


(** * Rounding in [SpecFloat]

    [binary_round_aux] shifts the mantissa right until it fits the
    format, keeping a round and a sticky bit, rounds to nearest even and
    shifts once more after a carry.  The lemmas below follow these steps:
    shifting is integer division ([iter_shr_1], [shr_fexp_spec]), the
    result is the [finish] of the floor or of the floor plus one
    ([binary_round_aux_finish]), which as a rational is [adjacent] to the
    exact value ([binary_round_aux_value]).  From there: the result never
    crosses a float of the format ([finish_le], [finish_ge]), it is a
    valid float ([finish_valid]), and it is within one unit in the last
    place ([rounds_to_error]).  The four operations are instances
    ([SFmul_spec], [SFdiv_spec], [SFadd_spec], [SFsub_spec]). *)

Section Shift.

Lemma digits2_pos_log2 (m : positive) :
  Zpos (digits2_pos m) = Z.log2 (Zpos m) + 1.
Proof.
  induction m as [p IH | p IH | ]; simpl digits2_pos.
  - rewrite Pos2Z.inj_succ, IH.
    change (Zpos p~1) with (2 * Zpos p + 1).
    rewrite Z.log2_succ_double by lia. lia.
  - rewrite Pos2Z.inj_succ, IH.
    change (Zpos p~0) with (2 * Zpos p).
    rewrite Z.log2_double by lia. lia.
  - reflexivity.
Qed.

Lemma Zdigits2_bounds (m : Z) :
  0 < m -> 2 ^ (Zdigits2 m - 1) <= m < 2 ^ Zdigits2 m.
Proof.
  destruct m as [ | p | p]; try lia. intros _. simpl Zdigits2.
  rewrite digits2_pos_log2.
  replace (Z.log2 (Zpos p) + 1 - 1) with (Z.log2 (Zpos p)) by lia.
  replace (Z.log2 (Zpos p) + 1) with (Z.succ (Z.log2 (Zpos p))) by lia.
  apply Z.log2_spec. lia.
Qed.

Lemma Zdigits2_pos (m : Z) : 0 < m -> 0 < Zdigits2 m.
Proof. destruct m; simpl; lia. Qed.

Lemma Zdigits2_unique (m d : Z) :
  2 ^ (d - 1) <= m < 2 ^ d -> 0 < m -> Zdigits2 m = d.
Proof.
  intros [Hl Hu] Hm.
  destruct (Zdigits2_bounds m Hm) as [Hl' Hu'].
  assert (Hd : 0 < d).
  { destruct (Z_lt_le_dec 0 d) as [ | Hn]; [assumption | ].
    destruct (Z.eq_dec d 0) as [-> | ]; [simpl in Hu; lia | ].
    rewrite (Z.pow_neg_r 2 d) in Hu by lia. lia. }
  pose proof (Zdigits2_pos m Hm) as Hp.
  destruct (Z.lt_trichotomy (Zdigits2 m) d) as [Hlt | [Heq | Hgt]];
    [ | assumption | ].
  - assert (2 ^ Zdigits2 m <= 2 ^ (d - 1)) by (apply Z.pow_le_mono_r; lia).
    lia.
  - assert (2 ^ d <= 2 ^ (Zdigits2 m - 1)) by (apply Z.pow_le_mono_r; lia).
    lia.
Qed.

Lemma Zdigits2_le (a b : Z) : 0 < a -> a <= b -> Zdigits2 a <= Zdigits2 b.
Proof.
  intros Ha Hab.
  destruct (Zdigits2_bounds a Ha) as [Hl _].
  destruct (Zdigits2_bounds b ltac:(lia)) as [_ Hu].
  destruct (Z_lt_le_dec (Zdigits2 b) (Zdigits2 a)) as [Hlt | ]; [ | assumption].
  assert (2 ^ Zdigits2 b <= 2 ^ (Zdigits2 a - 1))
    by (apply Z.pow_le_mono_r; lia).
  lia.
Qed.

Lemma shr_1_m (mrs : shr_record) :
  0 <= shr_m mrs -> shr_m (shr_1 mrs) = shr_m mrs / 2.
Proof.
  destruct mrs as [m r s]; simpl. intros Hm.
  destruct m as [ | [p | p | ] | p]; simpl; try reflexivity; try lia.
  - change (Zpos p~1) with (2 * Zpos p + 1).
    apply Z.div_unique with 1; lia.
  - change (Zpos p~0) with (2 * Zpos p).
    apply Z.div_unique with 0; lia.
Qed.

Lemma shr_1_inexact (mrs : shr_record) :
  0 <= shr_m mrs ->
  inexact (shr_1 mrs) = true <-> shr_m mrs mod 2 <> 0 \/ inexact mrs = true.
Proof.
  destruct mrs as [m r s]; unfold inexact; simpl shr_m; simpl shr_r; simpl shr_s.
  intros Hm.
  assert (Hodd : Z.odd m = true <-> m mod 2 <> 0).
  { rewrite Zodd_mod. pose proof (Z.mod_pos_bound m 2 ltac:(lia)).
    destruct (Z.eqb_spec (m mod 2) 1); split; intros;
      first [lia | reflexivity | discriminate]. }
  rewrite <- Hodd.
  destruct m as [ | [p | p | ] | p]; simpl; try lia;
    destruct r, s; simpl; intuition congruence.
Qed.

Lemma iter_shr_1 (p : positive) :
  forall mrs, 0 <= shr_m mrs ->
    shr_m (iter_pos shr_1 p mrs) = shr_m mrs / 2 ^ Zpos p
    /\ (inexact (iter_pos shr_1 p mrs) = true
        <-> shr_m mrs mod 2 ^ Zpos p <> 0 \/ inexact mrs = true).
Proof.
  induction p as [p IH | p IH | ]; intros mrs Hm; simpl iter_pos.
  - pose proof (shr_1_m mrs Hm) as H1.
    pose proof (shr_1_inexact mrs Hm) as I1.
    assert (H1' : 0 <= shr_m (shr_1 mrs)) by (rewrite H1; apply Z.div_pos; lia).
    destruct (IH _ H1') as [H2 I2].
    assert (H2' : 0 <= shr_m (iter_pos shr_1 p (shr_1 mrs)))
      by (rewrite H2; apply Z.div_pos; lia).
    destruct (IH _ H2') as [H3 I3].
    rewrite H3, H2, H1. rewrite I3, I2, I1, H2, H1.
    set (m := shr_m mrs) in *. set (q := 2 ^ Zpos p) in *.
    assert (Hq : 0 < q) by (apply Z.pow_pos_nonneg; lia).
    assert (Hpow : 2 ^ Zpos p~1 = 2 * (q * q)).
    { replace (Zpos p~1) with (1 + (Zpos p + Zpos p)) by lia.
      rewrite Z.pow_add_r, Z.pow_add_r by lia. reflexivity. }
    rewrite Hpow. split.
    + rewrite !Z.div_div by lia. reflexivity.
    + rewrite Z.div_div by lia.
      assert (Hmod : m mod (2 * (q * q)) =
                     m mod 2 + 2 * ((m / 2) mod q) + 2 * q * ((m / (2 * q)) mod q)).
      { rewrite (Z.rem_mul_r m 2 (q * q)) by lia.
        rewrite (Z.rem_mul_r (m / 2) q q) by lia.
        rewrite Z.div_div by lia. ring. }
      rewrite Hmod.
      pose proof (Z.mod_pos_bound m 2 ltac:(lia)).
      pose proof (Z.mod_pos_bound (m / 2) q Hq).
      pose proof (Z.mod_pos_bound (m / (2 * q)) q Hq).
      set (a := m mod 2) in *. set (b := (m / 2) mod q) in *.
      set (c := (m / (2 * q)) mod q) in *. clearbody a b c.
      split.
      * intros [ | [ | [ | ]]]; [left; nia | left; nia | left; nia | right; assumption].
      * intros [Hne | ]; [ | tauto].
        destruct (Z.eq_dec a 0); [ | tauto].
        destruct (Z.eq_dec b 0); [ | tauto].
        destruct (Z.eq_dec c 0); [ | tauto]. subst. lia.
  - destruct (IH _ Hm) as [H2 I2].
    assert (H2' : 0 <= shr_m (iter_pos shr_1 p mrs))
      by (rewrite H2; apply Z.div_pos; lia).
    destruct (IH _ H2') as [H3 I3].
    rewrite H3, H2. rewrite I3, I2, H2.
    set (m := shr_m mrs) in *. set (q := 2 ^ Zpos p) in *.
    assert (Hq : 0 < q) by (apply Z.pow_pos_nonneg; lia).
    assert (Hpow : 2 ^ Zpos p~0 = q * q).
    { replace (Zpos p~0) with (Zpos p + Zpos p) by lia.
      rewrite Z.pow_add_r by lia. reflexivity. }
    rewrite Hpow. split.
    + rewrite Z.div_div by lia. reflexivity.
    + rewrite (Z.rem_mul_r m q q) by lia.
      pose proof (Z.mod_pos_bound m q Hq).
      pose proof (Z.mod_pos_bound (m / q) q Hq).
      set (a := m mod q) in *. set (b := (m / q) mod q) in *. clearbody a b.
      split.
      * intros [ | [ | ]]; [left; nia | left; nia | right; assumption].
      * intros [Hne | ]; [ | tauto].
        destruct (Z.eq_dec a 0); [ | tauto].
        destruct (Z.eq_dec b 0); [ | tauto]. subst. lia.
  - pose proof (shr_1_m mrs Hm) as H1.
    pose proof (shr_1_inexact mrs Hm) as I1.
    rewrite H1, I1. change (2 ^ 1) with 2. split; [reflexivity | tauto].
Qed.

End Shift.

Section Round.

Variables prec emax : Z.
Hypothesis prec_pos : 0 < prec.

Local Abbreviation fexp := (fexp prec emax).
Local Abbreviation emin := (emin prec emax).

Lemma fexp_ge_emin (e : Z) : emin <= fexp e.
Proof. unfold SpecFloat.fexp. lia. Qed.

Lemma fexp_mono (a b : Z) : a <= b -> fexp a <= fexp b.
Proof. unfold SpecFloat.fexp. lia. Qed.

Lemma shr_record_of_loc_m (m : Z) (l : location) :
  shr_m (shr_record_of_loc m l) = m.
Proof. destruct l as [ | [ | | ]]; reflexivity. Qed.

Lemma shr_record_of_loc_inexact (m : Z) (l : location) :
  inexact (shr_record_of_loc m l) = loc_inexact l.
Proof. destruct l as [ | [ | | ]]; reflexivity. Qed.

Lemma loc_of_shr_record_inexact (mrs : shr_record) :
  loc_inexact (loc_of_shr_record mrs) = inexact mrs.
Proof. destruct mrs as [m [ | ] [ | ]]; reflexivity. Qed.

Lemma shr_fexp_spec (m e : Z) (l : location) :
  0 <= m ->
  exists mrs,
    shr_fexp prec emax m e l = (mrs, e + drop prec emax m e)
    /\ shr_m mrs = m / 2 ^ drop prec emax m e
    /\ (inexact mrs = true
        <-> m mod 2 ^ drop prec emax m e <> 0 \/ loc_inexact l = true).
Proof.
  intros Hm. unfold shr_fexp, shr, drop.
  destruct (fexp (Zdigits2 m + e) - e) as [ | p | p] eqn:E.
  - exists (shr_record_of_loc m l). simpl Z.max.
    rewrite shr_record_of_loc_m, shr_record_of_loc_inexact.
    rewrite Z.add_0_r, Z.pow_0_r, Z.div_1_r, Z.mod_1_r.
    repeat split; tauto.
  - exists (iter_pos shr_1 p (shr_record_of_loc m l)).
    replace (Z.max 0 (Zpos p)) with (Zpos p) by lia.
    destruct (iter_shr_1 p (shr_record_of_loc m l)) as [H1 H2].
    { rewrite shr_record_of_loc_m. assumption. }
    rewrite shr_record_of_loc_m in H1, H2.
    rewrite shr_record_of_loc_inexact in H2.
    repeat split; tauto.
  - exists (shr_record_of_loc m l).
    replace (Z.max 0 (Zneg p)) with 0 by lia.
    rewrite shr_record_of_loc_m, shr_record_of_loc_inexact.
    rewrite Z.add_0_r, Z.pow_0_r, Z.div_1_r, Z.mod_1_r.
    repeat split; tauto.
Qed.

Lemma round_nearest_even_bounds (m : Z) (l : location) :
  m <= round_nearest_even m l <= m + 1
  /\ (loc_inexact l = false -> round_nearest_even m l = m).
Proof.
  destruct l as [ | [ | | ]]; simpl; try destruct (Z.even m);
    split; try lia; try reflexivity; discriminate.
Qed.

Lemma drop_small (m e : Z) :
  0 < m -> emin <= e -> Zdigits2 m <= prec -> drop prec emax m e = 0.
Proof. intros Hm He Hd. unfold drop, SpecFloat.fexp. lia. Qed.

Lemma binary_round_aux_finish (s : bool) (mx ex : Z) (lx : location) :
  0 <= mx ->
  exists m,
    binary_round_aux prec emax s mx ex lx = finish prec emax s m (ex + drop prec emax mx ex)
    /\ mx / 2 ^ drop prec emax mx ex <= m <= mx / 2 ^ drop prec emax mx ex + 1
    /\ (mx mod 2 ^ drop prec emax mx ex = 0 -> loc_inexact lx = false ->
        m = mx / 2 ^ drop prec emax mx ex)
    /\ m <= 2 ^ prec.
Proof.
  intros Hmx. unfold binary_round_aux.
  destruct (shr_fexp_spec mx ex lx Hmx) as (mrs & -> & Hm1 & Hi1).
  set (k := drop prec emax mx ex) in *. set (e1 := ex + k).
  set (m1 := mx / 2 ^ k) in *.
  set (m2 := round_nearest_even (shr_m mrs) (loc_of_shr_record mrs)).
  assert (Hk : 0 <= k) by (unfold k, drop; lia).
  assert (Hpk : 0 < 2 ^ k) by (apply Z.pow_pos_nonneg; lia).
  assert (Hm1pos : 0 <= m1) by (apply Z.div_pos; lia).
  destruct (round_nearest_even_bounds (shr_m mrs) (loc_of_shr_record mrs))
    as [Hb Hex]. fold m2 in Hb, Hex. rewrite Hm1 in Hb, Hex.
  rewrite loc_of_shr_record_inexact in Hex.
  (* the shifted mantissa fits in [prec] bits *)
  assert (He1 : emin <= e1 /\ (0 < mx -> Zdigits2 mx + ex - prec <= e1)).
  { unfold e1, k, drop, SpecFloat.fexp. lia. }
  assert (Hm1lt : m1 < 2 ^ prec).
  { destruct (Z.eq_dec mx 0) as [-> | Hne].
    - unfold m1. rewrite Z.div_0_l by lia. apply Z.pow_pos_nonneg; lia.
    - assert (Hmx' : 0 < mx) by lia.
      destruct (Zdigits2_bounds mx Hmx') as [_ Hu].
      apply Z.div_lt_upper_bound; [assumption | ].
      rewrite <- Z.pow_add_r by lia.
      eapply Z.lt_le_trans; [exact Hu | ].
      apply Z.pow_le_mono_r; [lia | ].
      destruct He1 as [_ He1]. specialize (He1 Hmx'). unfold e1 in He1. lia. }
  exists m2. split; [ | split; [exact Hb | split; [ | lia]]].
  2:{ intros Hmod Hl. apply Hex.
      destruct (inexact mrs) eqn:Ei; [ | reflexivity].
      destruct (proj1 Hi1 eq_refl) as [ | Hl']; [contradiction | congruence]. }
  destruct (shr_fexp_spec m2 e1 loc_Exact ltac:(lia)) as (mrs2 & -> & Hm3 & _).
  rewrite Hm3. unfold finish.
  destruct (Z.eqb_spec m2 0) as [-> | Hm2].
  { rewrite Z.div_0_l; [reflexivity | ].
    apply Z.pow_nonzero; [lia | unfold drop; lia]. }
  assert (Hm2pos : 0 < m2) by lia.
  destruct (Z.eqb_spec m2 (2 ^ prec)) as [Hc | Hc].
  - assert (Hd : Zdigits2 m2 = prec + 1).
    { apply Zdigits2_unique; [ | assumption].
      rewrite Hc. replace (prec + 1 - 1) with prec by lia.
      split; [lia | ]. apply Z.pow_lt_mono_r; lia. }
    assert (Hk2 : drop prec emax m2 e1 = 1).
    { unfold drop, SpecFloat.fexp. rewrite Hd. lia. }
    rewrite Hk2, Hc. change (2 ^ 1) with 2.
    replace (2 ^ prec) with (2 ^ (prec - 1) * 2).
    2:{ replace prec with (prec - 1 + 1) at 2 by lia.
        rewrite Z.pow_add_r by lia. reflexivity. }
    rewrite Z.div_mul by lia.
    assert (0 < 2 ^ (prec - 1)) by (apply Z.pow_pos_nonneg; lia).
    destruct (2 ^ (prec - 1)) as [ | q | q] eqn:Eq; try lia.
    reflexivity.
  - assert (Hd : Zdigits2 m2 <= prec).
    { destruct (Z_lt_le_dec prec (Zdigits2 m2)) as [Hlt | ]; [ | assumption].
      destruct (Zdigits2_bounds m2 Hm2pos) as [Hl _].
      assert (2 ^ prec <= 2 ^ (Zdigits2 m2 - 1))
        by (apply Z.pow_le_mono_r; lia).
      lia. }
    rewrite (drop_small m2 e1) by lia.
    rewrite Z.add_0_r, Z.pow_0_r, Z.div_1_r.
    destruct m2 as [ | q | q]; try lia. reflexivity.
Qed.

End Round.


Section Values.

Lemma pow2_pos (e : Z) : (0 < pow2 e)%Q.
Proof. apply Qpower_0_lt. reflexivity. Qed.

Lemma pow2_add (a b : Z) : (pow2 (a + b) == pow2 a * pow2 b)%Q.
Proof. apply Qpower_plus. discriminate. Qed.

Lemma pow2_opp (a : Z) : (pow2 (- a) == / pow2 a)%Q.
Proof. apply Qpower_opp. Qed.

Lemma pow2_Z (k : Z) : 0 <= k -> (pow2 k == inject_Z (2 ^ k))%Q.
Proof. intros Hk. unfold pow2. rewrite (Zpower_Qpower 2 k Hk). reflexivity. Qed.

Lemma pow2_le (a b : Z) : a <= b -> (pow2 a <= pow2 b)%Q.
Proof.
  intros Hab. replace b with (a + (b - a)) by lia.
  rewrite pow2_add, (pow2_Z (b - a)) by lia.
  assert (H : (1 <= inject_Z (2 ^ (b - a)))%Q).
  { change 1%Q with (inject_Z 1). rewrite <- Zle_Qle.
    pose proof (Z.pow_pos_nonneg 2 (b - a) ltac:(lia) ltac:(lia)). lia. }
  pose proof (pow2_pos a). nra.
Qed.

(** Changing the unit: [m * 2^(e+k)] is [(m * 2^k) * 2^e]. *)
Lemma scale_up (m e k : Z) :
  0 <= k -> (inject_Z m * pow2 (e + k) == inject_Z (m * 2 ^ k) * pow2 e)%Q.
Proof.
  intros Hk. rewrite pow2_add, (pow2_Z k Hk), inject_Z_mult. ring.
Qed.

(** Dropping [k] bits is rounding down to a multiple of [2^(e+k)]. *)
Lemma floor_scale (m e k : Z) :
  0 <= k ->
  (inject_Z (m / 2 ^ k) * pow2 (e + k) <= inject_Z m * pow2 e)%Q
  /\ (inject_Z m * pow2 e < inject_Z (m / 2 ^ k + 1) * pow2 (e + k))%Q
  /\ (m mod 2 ^ k = 0 ->
      (inject_Z (m / 2 ^ k) * pow2 (e + k) == inject_Z m * pow2 e)%Q)
  /\ (m mod 2 ^ k <> 0 ->
      (inject_Z (m / 2 ^ k) * pow2 (e + k) < inject_Z m * pow2 e)%Q).
Proof.
  intros Hk.
  assert (Hp : 0 < 2 ^ k) by (apply Z.pow_pos_nonneg; lia).
  pose proof (Z.div_mod m (2 ^ k) ltac:(lia)) as Hdm.
  pose proof (Z.mod_pos_bound m (2 ^ k) Hp) as Hmod.
  pose proof (pow2_pos e) as He.
  rewrite !scale_up by assumption.
  set (q := m / 2 ^ k) in *. set (r := m mod 2 ^ k) in *.
  repeat split.
  - apply Qmult_le_compat_r; [ | apply Qlt_le_weak; assumption].
    rewrite <- Zle_Qle. lia.
  - apply Qmult_lt_compat_r; [assumption | ].
    rewrite <- Zlt_Qlt. lia.
  - intros Hr. replace (q * 2 ^ k) with m by lia. reflexivity.
  - intros Hr. apply Qmult_lt_compat_r; [assumption | ].
    rewrite <- Zlt_Qlt. lia.
Qed.

End Values.

Section RoundValue.

Variables prec emax : Z.
Hypothesis prec_pos : 0 < prec.

Local Abbreviation rounds_to := (rounds_to prec emax).
Local Abbreviation good := (good prec emax).
Local Abbreviation fl_of := (fl_of prec emax).
Local Abbreviation fl_rel := (fl_rel prec emax).

(** The value of a finished rounding, unless it overflowed. *)
Lemma finish_cases (s : bool) (m e : Z) :
  0 <= m ->
  finish prec emax s m e = S754_infinity s
  \/ (is_finite (finish prec emax s m e) = true
      /\ (F2Q (finish prec emax s m e)
          == inject_Z (cond_Zopp s m) * pow2 e)%Q).
Proof.
  intros Hm. unfold finish.
  destruct (Z.eqb_spec m 0) as [-> | Hne].
  { right. split; [reflexivity | ]. destruct s; simpl; ring. }
  destruct (Z.eqb_spec m (2 ^ prec)) as [Hc | Hc].
  - destruct (e + 1 <=? emax - prec); [right | left; reflexivity].
    split; [reflexivity | ]. unfold F2Q.
    assert (Hp : 0 < 2 ^ (prec - 1)) by (apply Z.pow_pos_nonneg; lia).
    rewrite Z2Pos.id by assumption.
    assert (Hm2 : m = 2 ^ (prec - 1) * 2 ^ 1).
    { rewrite Hc, <- Z.pow_add_r by lia. f_equal. lia. }
    rewrite Hm2 at 1.
    rewrite (scale_up _ e 1) by lia.
    destruct s; simpl cond_Zopp; [ | reflexivity].
    rewrite <- Z.mul_opp_l. reflexivity.
  - destruct (e <=? emax - prec); [right | left; reflexivity].
    split; [reflexivity | ]. unfold F2Q.
    rewrite Z2Pos.id by lia. reflexivity.
Qed.

Lemma finish_nonneg (m e : Z) : is_nonneg (finish prec emax false m e) = true.
Proof.
  unfold finish. destruct (m =? 0); [reflexivity | ].
  destruct (m =? 2 ^ prec).
  - destruct (e + 1 <=? emax - prec); reflexivity.
  - destruct (e <=? emax - prec); reflexivity.
Qed.


Lemma adjacent_le (m e k : Z) (x : Q) :
  adjacent m e x -> (x <= inject_Z k * pow2 e)%Q -> m <= k.
Proof.
  intros Ha Hx. pose proof (pow2_pos e) as He.
  assert (H : forall a b : Z, (inject_Z a * pow2 e < inject_Z b * pow2 e)%Q -> a < b).
  { intros a b Hab. rewrite Zlt_Qlt. nra. }
  destruct Ha as [Ha | [[Ha _] | [Ha _]]].
  - assert (Hle : (inject_Z m <= inject_Z k)%Q) by nra.
    rewrite <- Zle_Qle in Hle. assumption.
  - assert (m - 1 < k) by (apply H; lra). lia.
  - assert (m < k) by (apply H; lra). lia.
Qed.

Lemma adjacent_ge (m e k : Z) (x : Q) :
  adjacent m e x -> (inject_Z k * pow2 e <= x)%Q -> k <= m.
Proof.
  intros Ha Hx. pose proof (pow2_pos e) as He.
  assert (H : forall a b : Z, (inject_Z a * pow2 e < inject_Z b * pow2 e)%Q -> a < b).
  { intros a b Hab. rewrite Zlt_Qlt. nra. }
  destruct Ha as [Ha | [[_ Ha] | [_ Ha]]].
  - assert (Hle : (inject_Z k <= inject_Z m)%Q) by nra.
    rewrite <- Zle_Qle in Hle. assumption.
  - assert (k < m) by (apply H; lra). lia.
  - assert (k < m + 1) by (apply H; lra). lia.
Qed.

Lemma adjacent_error (m e : Z) (x : Q) :
  adjacent m e x -> (Qabs (inject_Z m * pow2 e - x) <= pow2 e)%Q.
Proof.
  intros Ha. pose proof (pow2_pos e) as He.
  assert (E1 : (inject_Z (m - 1) == inject_Z m - 1)%Q)
    by (unfold Z.sub; rewrite inject_Z_plus; reflexivity).
  assert (E2 : (inject_Z (m + 1) == inject_Z m + 1)%Q)
    by (rewrite inject_Z_plus; reflexivity).
  apply Qabs_Qle_condition.
  destruct Ha as [Ha | [[Ha Hb] | [Ha Hb]]].
  - rewrite Ha. split; lra.
  - rewrite E1 in Ha. split; nra.
  - rewrite E2 in Hb. split; nra.
Qed.

(** The core of every operation: the result is the finished form of a
    mantissa adjacent to the exact value, at the exponent the format
    gives that value (or the one it came with, when that is larger). *)
Lemma binary_round_aux_value (s : bool) (mx ex : Z) (lx : location) (x : Q) :
  0 <= mx -> represents mx ex lx x ->
  exists m,
    binary_round_aux prec emax s mx ex lx
    = finish prec emax s m (ex + drop prec emax mx ex)
    /\ 0 <= m <= 2 ^ prec
    /\ mx / 2 ^ drop prec emax mx ex <= m
    /\ adjacent m (ex + drop prec emax mx ex) x.
Proof.
  intros Hmx Hx.
  destruct (binary_round_aux_finish prec emax prec_pos s mx ex lx Hmx)
    as (m & Hr & Hb & Hexact & Hle).
  set (k := drop prec emax mx ex) in *.
  assert (Hk : 0 <= k) by (unfold k, drop; lia).
  assert (Hfl : 0 <= mx / 2 ^ k)
    by (apply Z.div_pos; [lia | apply Z.pow_pos_nonneg; lia]).
  exists m. split; [exact Hr | ]. split; [lia | ]. split; [lia | ].
  destruct (floor_scale mx ex k Hk) as (F1 & F2 & F3 & F4).
  set (fl := mx / 2 ^ k) in *. set (e := ex + k) in *.
  assert (Hmul : mx + 1 <= (fl + 1) * 2 ^ k).
  { assert (Hp : 0 < 2 ^ k) by (apply Z.pow_pos_nonneg; lia).
    pose proof (Z.div_mod mx (2 ^ k) ltac:(lia)).
    pose proof (Z.mod_pos_bound mx (2 ^ k) Hp). unfold fl. nia. }
  assert (Hup : (inject_Z (mx + 1) * pow2 ex <= inject_Z (fl + 1) * pow2 e)%Q).
  { unfold e. rewrite scale_up by assumption.
    apply Qmult_le_compat_r; [ | apply Qlt_le_weak, pow2_pos].
    rewrite <- Zle_Qle. assumption. }
  unfold represents in Hx. unfold adjacent.
  assert (Hcases : m = fl \/ m = fl + 1) by lia.
  destruct (loc_inexact lx) eqn:El.
  - destruct Hx as [Hx1 Hx2].
    destruct Hcases as [-> | ->].
    + right; right. split; lra.
    + right; left. replace (fl + 1 - 1) with fl by lia. split; lra.
  - destruct (Z.eq_dec (mx mod 2 ^ k) 0) as [Hz | Hnz].
    + rewrite (Hexact Hz eq_refl). left. rewrite Hx. apply F3. assumption.
    + specialize (F4 Hnz). destruct Hcases as [-> | ->].
      * right; right. rewrite Hx. split; lra.
      * right; left. replace (fl + 1 - 1) with fl by lia. rewrite Hx. split; lra.
Qed.

(** The exponent of the result when the mantissa is long enough. *)
Lemma drop_exponent (mx ex : Z) :
  ex <= fexp prec emax (Zdigits2 mx + ex) ->
  ex + drop prec emax mx ex = fexp prec emax (Zdigits2 mx + ex).
Proof. unfold drop. lia. Qed.

Lemma iter_xO (d m : positive) : Zpos (Pos.iter xO m d) = Zpos m * 2 ^ Zpos d.
Proof.
  induction d as [ | d IH] using Pos.peano_ind.
  - simpl. lia.
  - rewrite Pos.iter_succ, Pos2Z.inj_succ, Z.pow_succ_r by lia.
    change (Zpos (Pos.iter xO m d)~0) with (2 * Zpos (Pos.iter xO m d)).
    rewrite IH. ring.
Qed.

Lemma shl_align_spec (m : positive) (e e' : Z) :
  let r := shl_align m e e' in
  snd r = Z.min e e'
  /\ Zpos (fst r) = Zpos m * 2 ^ (e - Z.min e e').
Proof.
  unfold shl_align. destruct (e' - e) as [ | d | d] eqn:E; cbn [fst snd].
  - replace (Z.min e e') with e by lia.
    rewrite Z.sub_diag, Z.pow_0_r. split; lia.
  - replace (Z.min e e') with e by lia.
    rewrite Z.sub_diag, Z.pow_0_r. split; lia.
  - replace (Z.min e e') with e' by lia. split; [reflexivity | ].
    rewrite iter_xO. f_equal. f_equal. lia.
Qed.

Lemma Zdigits2_shift (m k : Z) :
  0 < m -> 0 <= k -> Zdigits2 (m * 2 ^ k) = Zdigits2 m + k.
Proof.
  intros Hm Hk. destruct (Zdigits2_bounds m Hm) as [Hl Hu].
  assert (Hp : 0 < 2 ^ k) by (apply Z.pow_pos_nonneg; lia).
  pose proof (Zdigits2_pos m Hm).
  apply Zdigits2_unique; [ | nia].
  replace (Zdigits2 m + k - 1) with (Zdigits2 m - 1 + k) by lia.
  rewrite !Z.pow_add_r by lia. split; nia.
Qed.



Hypothesis prec_lt_emax : prec < emax.

Lemma emin_nonpos : emin prec emax <= 0.
Proof. unfold emin. lia. Qed.

(** What validity says about a mantissa and its exponent. *)
Lemma bounded_facts (m : positive) (e : Z) :
  bounded prec emax m e = true ->
  fexp prec emax (Zpos (digits2_pos m) + e) = e
  /\ e <= emax - prec
  /\ emin prec emax <= e
  /\ Zpos (digits2_pos m) <= prec
  /\ Zpos m < 2 ^ prec
  /\ (emin prec emax < e -> 2 ^ (prec - 1) <= Zpos m).
Proof.
  unfold bounded, canonical_mantissa. intros H.
  apply andb_true_iff in H. destruct H as [Hc Hb].
  apply Z.eqb_eq in Hc. apply Z.leb_le in Hb.
  destruct (Zdigits2_bounds (Zpos m) ltac:(lia)) as [Hl Hu].
  simpl Zdigits2 in Hl, Hu.
  assert (Hd : Zpos (digits2_pos m) <= prec) by (unfold fexp in Hc; lia).
  repeat split; try assumption.
  - unfold fexp in Hc. lia.
  - eapply Z.lt_le_trans; [exact Hu | ]. apply Z.pow_le_mono_r; lia.
  - intros He. assert (Zpos (digits2_pos m) = prec) by (unfold fexp in Hc; lia).
    replace (prec - 1) with (Zpos (digits2_pos m) - 1) by lia. assumption.
Qed.

(** Comparing sizes through the number of digits. *)
Lemma digits_le_of_value (m1 e1 m2 e2 : Z) :
  0 < m1 -> 0 < m2 ->
  (inject_Z m1 * pow2 e1 <= inject_Z m2 * pow2 e2)%Q ->
  Zdigits2 m1 + e1 <= Zdigits2 m2 + e2.
Proof.
  intros H1 H2 Hle.
  destruct (Zdigits2_bounds m1 H1) as [Hl1 _].
  destruct (Zdigits2_bounds m2 H2) as [_ Hu2].
  pose proof (Zdigits2_pos m1 H1). pose proof (Zdigits2_pos m2 H2).
  destruct (Z_lt_le_dec (Zdigits2 m2 + e2) (Zdigits2 m1 + e1)) as [Hlt | ];
    [exfalso | assumption].
  assert (A : (pow2 (Zdigits2 m1 - 1 + e1) <= inject_Z m1 * pow2 e1)%Q).
  { rewrite pow2_add, (pow2_Z (Zdigits2 m1 - 1)) by lia.
    apply Qmult_le_compat_r; [ | apply Qlt_le_weak, pow2_pos].
    rewrite <- Zle_Qle. assumption. }
  assert (B : (inject_Z m2 * pow2 e2 < pow2 (Zdigits2 m2 + e2))%Q).
  { rewrite pow2_add, (pow2_Z (Zdigits2 m2)) by lia.
    apply Qmult_lt_compat_r; [apply pow2_pos | ].
    rewrite <- Zlt_Qlt. assumption. }
  assert (C : (pow2 (Zdigits2 m2 + e2) <= pow2 (Zdigits2 m1 - 1 + e1))%Q)
    by (apply pow2_le; lia).
  lra.
Qed.

(** Rounding never crosses a float of the format from below ... *)
Lemma finish_le (m e : Z) (x : Q) (my : positive) (ey : Z) :
  0 <= m <= 2 ^ prec ->
  adjacent m e x ->
  e <= ey ->
  bounded prec emax my ey = true ->
  (x <= inject_Z (Zpos my) * pow2 ey)%Q ->
  is_finite (finish prec emax false m e) = true
  /\ (F2Q (finish prec emax false m e) <= inject_Z (Zpos my) * pow2 ey)%Q.
Proof.
  intros Hm Ha He Hv Hx.
  destruct (bounded_facts my ey Hv) as (_ & Hey & _ & _ & Hmy & _).
  assert (Hy : (inject_Z (Zpos my) * pow2 ey
                == inject_Z (Zpos my * 2 ^ (ey - e)) * pow2 e)%Q).
  { rewrite <- scale_up by lia. replace (e + (ey - e)) with ey by lia.
    reflexivity. }
  rewrite Hy in Hx.
  pose proof (adjacent_le m e _ x Ha Hx) as Hk.
  assert (Hp : 0 < 2 ^ (ey - e)) by (apply Z.pow_pos_nonneg; lia).
  assert (Hfin : finish prec emax false m e <> S754_infinity false).
  { unfold finish. destruct (Z.eqb_spec m 0); [discriminate | ].
    destruct (Z.eqb_spec m (2 ^ prec)) as [Hc | Hc].
    - assert (e < ey).
      { destruct (Z.eq_dec e ey) as [-> | ]; [ | lia].
        rewrite Z.sub_diag, Z.pow_0_r in Hk. lia. }
      destruct (Z.leb_spec (e + 1) (emax - prec)); [discriminate | lia].
    - destruct (Z.leb_spec e (emax - prec)); [discriminate | lia]. }
  destruct (finish_cases false m e ltac:(lia)) as [Hinf | [Hf Hval]];
    [contradiction | ].
  split; [assumption | ].
  rewrite Hval, Hy. simpl cond_Zopp.
  apply Qmult_le_compat_r; [ | apply Qlt_le_weak, pow2_pos].
  rewrite <- Zle_Qle. assumption.
Qed.

(** ... nor from above. *)
Lemma finish_ge (m e : Z) (x : Q) (my : positive) (ey : Z) :
  0 <= m <= 2 ^ prec ->
  adjacent m e x ->
  (ey < e -> 2 ^ (prec - 1) <= m) ->
  bounded prec emax my ey = true ->
  (inject_Z (Zpos my) * pow2 ey <= x)%Q ->
  finish prec emax false m e = S754_infinity false
  \/ (is_finite (finish prec emax false m e) = true
      /\ (inject_Z (Zpos my) * pow2 ey <= F2Q (finish prec emax false m e))%Q).
Proof.
  intros Hm Ha Hbig Hv Hx.
  destruct (finish_cases false m e ltac:(lia)) as [Hinf | [Hf Hval]];
    [left; assumption | right].
  split; [assumption | ]. rewrite Hval. simpl cond_Zopp.
  destruct (bounded_facts my ey Hv) as (_ & _ & _ & _ & Hmy & _).
  destruct (Z_lt_le_dec ey e) as [Hlt | Hle].
  - specialize (Hbig Hlt).
    assert (A : (inject_Z (Zpos my) * pow2 ey <= inject_Z (2 ^ prec) * pow2 ey)%Q).
    { apply Qmult_le_compat_r; [ | apply Qlt_le_weak, pow2_pos].
      rewrite <- Zle_Qle. lia. }
    assert (B : (inject_Z (2 ^ prec) * pow2 ey <= inject_Z (2 ^ (prec - 1)) * pow2 e)%Q).
    { rewrite <- !pow2_Z by lia. rewrite <- !pow2_add. apply pow2_le. lia. }
    assert (C : (inject_Z (2 ^ (prec - 1)) * pow2 e <= inject_Z m * pow2 e)%Q).
    { apply Qmult_le_compat_r; [ | apply Qlt_le_weak, pow2_pos].
      rewrite <- Zle_Qle. assumption. }
    lra.
  - assert (Hy : (inject_Z (Zpos my) * pow2 ey
                  == inject_Z (Zpos my * 2 ^ (ey - e)) * pow2 e)%Q).
    { rewrite <- scale_up by lia. replace (e + (ey - e)) with ey by lia.
      reflexivity. }
    rewrite Hy in Hx |- *.
    pose proof (adjacent_ge m e _ x Ha Hx) as Hk.
    apply Qmult_le_compat_r; [ | apply Qlt_le_weak, pow2_pos].
    rewrite <- Zle_Qle. assumption.
Qed.


Lemma represents_lower (mx ex : Z) (lx : location) (x : Q) :
  represents mx ex lx x -> (inject_Z mx * pow2 ex <= x)%Q.
Proof.
  unfold represents. destruct (loc_inexact lx); intros H; [lra | ].
  rewrite H. apply Qle_refl.
Qed.

Lemma binary_round_aux_rounds (mx ex : Z) (lx : location) (x : Q) :
  0 <= mx -> represents mx ex lx x ->
  ex <= fexp prec emax (Zdigits2 mx + ex) ->
  exists m,
    rounds_to (binary_round_aux prec emax false mx ex lx) m
      (fexp prec emax (Zdigits2 mx + ex)) x
    /\ mx / 2 ^ (fexp prec emax (Zdigits2 mx + ex) - ex) <= m.
Proof.
  intros Hmx Hrep Hex.
  destruct (binary_round_aux_value false mx ex lx x Hmx Hrep)
    as (m & Hr & Hb & Hfl & Ha).
  rewrite (drop_exponent mx ex Hex) in Hr, Ha.
  assert (Hk : drop prec emax mx ex = fexp prec emax (Zdigits2 mx + ex) - ex)
    by (unfold drop; lia).
  rewrite Hk in Hfl.
  set (e := fexp prec emax (Zdigits2 mx + ex)) in *.
  pose proof (represents_lower mx ex lx x Hrep) as Hlow.
  exists m. split; [ | exact Hfl].
  split; [exact Hr | ]. split; [exact Hb | ]. split; [exact Ha | ].
  split.
  { eapply Qle_trans; [ | exact Hlow]. pose proof (pow2_pos ex).
    assert ((0 <= inject_Z mx)%Q) by (rewrite <- (Zle_Qle 0); lia). nra. }
  split; [apply fexp_ge_emin | ]. split.
  - intros He.
    assert (Hpos : 0 < mx).
    { destruct (Z.eq_dec mx 0) as [-> | ]; [ | lia].
      exfalso. unfold e, fexp in He, Hex. simpl Zdigits2 in He, Hex. lia. }
    destruct (Zdigits2_bounds mx Hpos) as [Hl _].
    pose proof (Zdigits2_pos mx Hpos).
    assert (Hee : prec - 1 + e = Zdigits2 mx - 1 + ex) by (unfold e, fexp in *; lia).
    rewrite Hee, pow2_add, (pow2_Z (Zdigits2 mx - 1)) by lia.
    eapply Qle_trans; [ | exact Hlow].
    apply Qmult_le_compat_r; [ | apply Qlt_le_weak, pow2_pos].
    rewrite <- Zle_Qle. assumption.
  - intros my ey Hv Hx0 Hxy.
    destruct (bounded_facts my ey Hv) as (Hc & _ & Hemin & _).
    destruct (Z.eq_dec mx 0) as [-> | Hne].
    + unfold e, fexp in *. simpl Zdigits2 in *. lia.
    + rewrite <- Hc. apply fexp_mono.
      change (Zpos (digits2_pos my)) with (Zdigits2 (Zpos my)).
      apply digits_le_of_value; [lia | lia | lra].
Qed.

Lemma adjacent_zero (m e : Z) (x : Q) :
  0 <= m -> adjacent m e x -> (x <= 0)%Q -> m = 0.
Proof.
  intros Hm Ha Hx. pose proof (pow2_pos e) as He.
  assert (Hq : (0 <= inject_Z m)%Q) by (rewrite <- (Zle_Qle 0); lia).
  destruct (Z.eq_dec m 0) as [ | Hne]; [assumption | exfalso].
  assert (Hq1 : (1 <= inject_Z m)%Q) by (rewrite <- (Zle_Qle 1); lia).
  assert (E1 : (inject_Z (m - 1) == inject_Z m - 1)%Q)
    by (unfold Z.sub; rewrite inject_Z_plus; reflexivity).
  destruct Ha as [Ha | [[Ha _] | [Ha _]]]; try rewrite E1 in Ha; nra.
Qed.

Lemma rounds_to_le (r : spec_float) (m e : Z) (x : Q) (mz : positive) (ez : Z) :
  rounds_to r m e x ->
  bounded prec emax mz ez = true ->
  (x <= inject_Z (Zpos mz) * pow2 ez)%Q ->
  is_finite r = true /\ (F2Q r <= inject_Z (Zpos mz) * pow2 ez)%Q.
Proof.
  intros (-> & Hb & Ha & Hx0 & He & _ & Hexp) Hv Hx.
  destruct (Qlt_le_dec 0 x) as [Hpos | Hnp].
  - apply finish_le with x; try assumption. apply (Hexp mz); assumption.
  - rewrite (adjacent_zero m e x ltac:(lia) Ha Hnp). unfold finish. simpl.
    split; [reflexivity | ]. pose proof (pow2_pos ez).
    assert ((0 <= inject_Z (Zpos mz))%Q) by (rewrite <- (Zle_Qle 0); lia).
    nra.
Qed.

Lemma rounds_to_ge (r : spec_float) (m e : Z) (x : Q) (mz : positive) (ez : Z) :
  rounds_to r m e x ->
  bounded prec emax mz ez = true ->
  (inject_Z (Zpos mz) * pow2 ez <= x)%Q ->
  r = S754_infinity false
  \/ (is_finite r = true /\ (inject_Z (Zpos mz) * pow2 ez <= F2Q r)%Q).
Proof.
  intros (-> & Hb & Ha & Hx0 & He & Hnorm & _) Hv Hx.
  apply finish_ge with x; try assumption.
  intros Hlt. destruct (bounded_facts mz ez Hv) as (_ & _ & Hez & _).
  specialize (Hnorm ltac:(lia)).
  apply (adjacent_ge m e _ x Ha).
  rewrite <- pow2_Z, <- pow2_add by lia. assumption.
Qed.

Lemma finish_valid (s : bool) (m e : Z) :
  0 <= m <= 2 ^ prec ->
  emin prec emax <= e ->
  (emin prec emax < e -> 2 ^ (prec - 1) <= m) ->
  valid_binary prec emax (finish prec emax s m e) = true.
Proof.
  intros Hm He Hn. unfold finish.
  destruct (Z.eqb_spec m 0); [reflexivity | ].
  assert (Hp : 0 < 2 ^ (prec - 1)) by (apply Z.pow_pos_nonneg; lia).
  assert (H2 : 2 ^ prec = 2 * 2 ^ (prec - 1)).
  { replace prec with (1 + (prec - 1)) at 1 by lia.
    rewrite Z.pow_add_r by lia. reflexivity. }
  destruct (Z.eqb_spec m (2 ^ prec)) as [Hc | Hc].
  - destruct (Z.leb_spec (e + 1) (emax - prec)) as [Hle | ]; [ | reflexivity].
    simpl valid_binary. unfold bounded, canonical_mantissa.
    apply andb_true_iff. split; [ | apply Z.leb_le; assumption].
    apply Z.eqb_eq.
    change (Zpos (digits2_pos (Z.to_pos (2 ^ (prec - 1)))))
      with (Zdigits2 (Zpos (Z.to_pos (2 ^ (prec - 1))))).
    rewrite Z2Pos.id by assumption.
    rewrite (Zdigits2_unique (2 ^ (prec - 1)) prec); [unfold fexp; lia | | lia].
    split; [lia | ]. apply Z.pow_lt_mono_r; lia.
  - destruct (Z.leb_spec e (emax - prec)) as [Hle | ]; [ | reflexivity].
    simpl valid_binary. unfold bounded, canonical_mantissa.
    apply andb_true_iff. split; [ | apply Z.leb_le; assumption].
    apply Z.eqb_eq.
    change (Zpos (digits2_pos (Z.to_pos m))) with (Zdigits2 (Zpos (Z.to_pos m))).
    rewrite Z2Pos.id by lia.
    assert (Hd : Zdigits2 m <= prec).
    { destruct (Z_lt_le_dec prec (Zdigits2 m)) as [Hlt | ]; [ | assumption].
      destruct (Zdigits2_bounds m ltac:(lia)) as [Hl _].
      assert (2 ^ prec <= 2 ^ (Zdigits2 m - 1)) by (apply Z.pow_le_mono_r; lia).
      lia. }
    destruct (Z.eq_dec e (emin prec emax)) as [-> | Hne].
    + unfold fexp. lia.
    + specialize (Hn ltac:(lia)).
      rewrite (Zdigits2_unique m prec); [unfold fexp; lia | lia | lia].
Qed.

Lemma rounds_to_valid (r : spec_float) (m e : Z) (x : Q) :
  rounds_to r m e x ->
  valid_binary prec emax r = true /\ is_nonneg r = true.
Proof.
  intros (-> & Hb & Ha & Hx0 & He & Hnorm & _).
  split; [ | apply finish_nonneg].
  apply finish_valid; try assumption.
  intros Hlt. specialize (Hnorm Hlt).
  apply (adjacent_ge m e _ x Ha).
  rewrite <- pow2_Z, <- pow2_add by lia. assumption.
Qed.

(** A rounding that is exact or lands in the normal range is off by at
    most one unit in the last place, relatively [2^(1-prec)]. *)
Lemma rounds_to_error (r : spec_float) (m e : Z) (x : Q) :
  rounds_to r m e x ->
  (inject_Z m * pow2 e == x)%Q \/ emin prec emax < e ->
  r = S754_infinity false
  \/ (is_finite r = true
      /\ (Qabs (F2Q r - x) <= pow2 (1 - prec) * x)%Q).
Proof.
  intros (-> & Hb & Ha & Hx0 & He & Hnorm & _) Hcase.
  destruct (finish_cases false m e ltac:(lia)) as [Hinf | [Hf Hval]];
    [left; assumption | right].
  split; [assumption | ]. rewrite Hval. simpl cond_Zopp.
  pose proof (pow2_pos (1 - prec)) as Hu.
  destruct Hcase as [Hex | Hn].
  - rewrite Hex. setoid_replace (x - x)%Q with 0%Q by ring.
    simpl Qabs. nra.
  - specialize (Hnorm Hn).
    eapply Qle_trans; [apply adjacent_error; exact Ha | ].
    replace e with (1 - prec + (prec - 1 + e)) at 1 by lia.
    rewrite pow2_add. nra.
Qed.


(** ** The operations on non-negative finite floats *)

Lemma good_inv (x : spec_float) :
  good x = true ->
  x = S754_zero false
  \/ exists m e, x = S754_finite false m e /\ bounded prec emax m e = true.
Proof.
  unfold good. destruct x as [[ | ] | [ | ] | | [ | ] m e]; simpl;
    try discriminate; intros H.
  - left. reflexivity.
  - rewrite andb_false_r in H. discriminate.
  - right. exists m, e. split; [reflexivity | ].
    rewrite !andb_true_r in H. assumption.
Qed.

Lemma F2Q_finite_pos (m : positive) (e : Z) :
  (0 < F2Q (S754_finite false m e))%Q.
Proof.
  simpl. pose proof (pow2_pos e).
  assert ((0 < inject_Z (Zpos m))%Q) by (rewrite <- (Zlt_Qlt 0); lia). nra.
Qed.

Lemma good_F2Q_nonneg (x : spec_float) : good x = true -> (0 <= F2Q x)%Q.
Proof.
  intros H. destruct (good_inv x H) as [-> | (m & e & -> & _)].
  - simpl. apply Qle_refl.
  - apply Qlt_le_weak, F2Q_finite_pos.
Qed.

Lemma rounds_to_fl_of (r : spec_float) (m e : Z) (x : Q) :
  rounds_to r m e x -> fl_of r x.
Proof.
  intros H. pose proof H as (Hr & Hb & Ha & Hx0 & He & Hn & Hexp).
  destruct (rounds_to_valid r m e x H) as [Hv Hs].
  split; [assumption | ]. split; [assumption | ]. split; [assumption | ].
  split.
  - intros z Hz Hxz. destruct (good_inv z Hz) as [-> | (mz & ez & -> & Hbz)].
    + simpl in Hxz. rewrite Hr, (adjacent_zero m e x ltac:(lia) Ha Hxz).
      unfold finish. simpl. split; [reflexivity | apply Qle_refl].
    + apply (rounds_to_le r m e x mz ez H Hbz Hxz).
  - intros z Hz Hzx. destruct (good_inv z Hz) as [-> | (mz & ez & -> & Hbz)].
    + rewrite Hr.
      destruct (finish_cases false m e ltac:(lia)) as [Hinf | [Hf Hval]];
        [left; assumption | right].
      split; [assumption | ]. rewrite Hval. simpl. pose proof (pow2_pos e).
      assert ((0 <= inject_Z m)%Q) by (rewrite <- (Zle_Qle 0); lia). nra.
    + apply (rounds_to_ge r m e x mz ez H Hbz Hzx).
Qed.

(** A float of the format is its own rounding. *)
Lemma fl_of_exact (x : spec_float) : good x = true -> fl_of x (F2Q x).
Proof.
  intros H. pose proof H as H'. unfold good in H'.
  apply andb_true_iff in H'. destruct H' as [H' Hs].
  apply andb_true_iff in H'. destruct H' as [Hv Hf].
  split; [apply good_F2Q_nonneg; assumption | ].
  split; [assumption | ]. split; [assumption | ].
  split; intros z _ Hz; [split | right; split]; assumption.
Qed.

Lemma fl_rel_exact (x : spec_float) : good x = true -> fl_rel x (F2Q x).
Proof.
  intros H. right. pose proof (good_F2Q_nonneg x H).
  unfold good in H. apply andb_true_iff in H. destruct H as [H _].
  apply andb_true_iff in H. destruct H as [_ Hf].
  split; [assumption | ].
  setoid_replace (F2Q x - F2Q x)%Q with 0%Q by ring. simpl Qabs.
  pose proof (pow2_pos (1 - prec)). nra.
Qed.

Lemma fl_of_ext (r : spec_float) (x y : Q) :
  (x == y)%Q -> fl_of r x -> fl_of r y.
Proof.
  intros E (H0 & Hv & Hs & Hu & Hl).
  split; [rewrite <- E; assumption | ]. split; [assumption | ].
  split; [assumption | ]. split; intros z Hz Hxz.
  - apply Hu; [assumption | rewrite E; assumption].
  - apply Hl; [assumption | rewrite E; assumption].
Qed.

Lemma fl_rel_ext (r : spec_float) (x y : Q) :
  (x == y)%Q -> fl_rel r x -> fl_rel r y.
Proof.
  intros E [H | [Hf H]]; [left; assumption | right].
  split; [assumption | ]. rewrite <- E. assumption.
Qed.

(** *** Multiplication *)

Lemma Zdigits2_mul_ge (a b : Z) :
  0 < a -> 0 < b -> Zdigits2 a + Zdigits2 b - 1 <= Zdigits2 (a * b).
Proof.
  intros Ha Hb.
  destruct (Zdigits2_bounds a Ha) as [Hla _].
  destruct (Zdigits2_bounds b Hb) as [Hlb _].
  pose proof (Zdigits2_pos a Ha). pose proof (Zdigits2_pos b Hb).
  destruct (Zdigits2_bounds (a * b) ltac:(nia)) as [_ Hu].
  destruct (Z_lt_le_dec (Zdigits2 (a * b)) (Zdigits2 a + Zdigits2 b - 1))
    as [Hlt | ]; [exfalso | assumption].
  assert (2 ^ Zdigits2 (a * b) <= 2 ^ (Zdigits2 a - 1 + (Zdigits2 b - 1))).
  { apply Z.pow_le_mono_r; [lia | ]. lia. }
  rewrite Z.pow_add_r in * by lia.
  assert (0 < 2 ^ (Zdigits2 a - 1)) by (apply Z.pow_pos_nonneg; lia).
  assert (0 < 2 ^ (Zdigits2 b - 1)) by (apply Z.pow_pos_nonneg; lia).
  nia.
Qed.

Lemma bounded_digits (m : positive) (e : Z) :
  bounded prec emax m e = true ->
  emin prec emax <= e
  /\ (emin prec emax < e -> Zdigits2 (Zpos m) = prec).
Proof.
  intros H. destruct (bounded_facts m e H) as (Hc & _ & He & Hd & _).
  split; [assumption | ]. intros Hlt. simpl Zdigits2. unfold fexp in Hc. lia.
Qed.

Lemma mul_exponent (mx my : positive) (ex ey : Z) :
  bounded prec emax mx ex = true ->
  bounded prec emax my ey = true ->
  ex + ey <= fexp prec emax (Zdigits2 (Zpos (mx * my)) + (ex + ey)).
Proof.
  intros Hx Hy.
  destruct (bounded_digits mx ex Hx) as [Hex Hdx].
  destruct (bounded_digits my ey Hy) as [Hey Hdy].
  pose proof (Zdigits2_mul_ge (Zpos mx) (Zpos my) ltac:(lia) ltac:(lia)) as Hd.
  pose proof (Zdigits2_pos (Zpos mx) ltac:(lia)).
  pose proof (Zdigits2_pos (Zpos my) ltac:(lia)).
  rewrite Pos2Z.inj_mul. pose proof emin_nonpos.
  destruct (Z.eq_dec ex (emin prec emax)) as [Ex | Ex].
  - destruct (Z.eq_dec ey (emin prec emax)) as [Ey | Ey].
    + unfold fexp. lia.
    + specialize (Hdy ltac:(lia)). unfold fexp. lia.
  - specialize (Hdx ltac:(lia)). unfold fexp. lia.
Qed.

Lemma SFmul_spec (x y : spec_float) :
  good x = true -> good y = true ->
  fl_of (SFmul prec emax x y) (F2Q x * F2Q y).
Proof.
  intros Hx Hy.
  destruct (good_inv x Hx) as [-> | (mx & ex & -> & Hbx)];
    destruct (good_inv y Hy) as [-> | (my & ey & -> & Hby)].
  - apply (fl_of_ext _ (F2Q (S754_zero false))); [simpl; ring | ].
    apply fl_of_exact. reflexivity.
  - apply (fl_of_ext _ (F2Q (S754_zero false))); [simpl; ring | ].
    apply fl_of_exact. reflexivity.
  - apply (fl_of_ext _ (F2Q (S754_zero false))); [simpl; ring | ].
    apply fl_of_exact. reflexivity.
  - simpl SFmul.
    assert (Hrep : represents (Zpos (mx * my)) (ex + ey) loc_Exact
                     (F2Q (S754_finite false mx ex) * F2Q (S754_finite false my ey))).
    { unfold represents. simpl. rewrite Pos2Z.inj_mul, inject_Z_mult, pow2_add.
      ring. }
    destruct (binary_round_aux_rounds _ _ _ _ (Pos2Z.is_nonneg _) Hrep
                (mul_exponent mx my ex ey Hbx Hby)) as (m & Hr & _).
    eapply rounds_to_fl_of. exact Hr.
Qed.


(** *** Division *)

Lemma new_location_inexact (n r : Z) :
  loc_inexact (new_location n r) = negb (r =? 0).
Proof.
  unfold new_location, new_location_even, new_location_odd.
  destruct (Z.even n); destruct (r =? 0); reflexivity.
Qed.

Lemma div_core_spec (mx my : positive) (ex ey : Z) :
  exists q e l,
    SFdiv_core_binary prec emax (Zpos mx) ex (Zpos my) ey = (q, e, l)
    /\ 0 <= q
    /\ represents q e l
         (inject_Z (Zpos mx) * pow2 ex / (inject_Z (Zpos my) * pow2 ey))
    /\ e <= fexp prec emax (Zdigits2 q + e).
Proof.
  unfold SFdiv_core_binary.
  set (d1 := Zdigits2 (Zpos mx)). set (d2 := Zdigits2 (Zpos my)).
  set (e := Z.min (fexp prec emax (d1 + ex - (d2 + ey))) (ex - ey)).
  set (s := ex - ey - e).
  assert (Hs : 0 <= s) by (unfold s, e; lia).
  set (m' := match s with
             | 0 => Zpos mx
             | Zpos _ => Z.shiftl (Zpos mx) s
             | Zneg _ => 0
             end).
  assert (Hm' : m' = Zpos mx * 2 ^ s).
  { unfold m'. destruct s as [ | p | p] eqn:Es; [simpl; lia | | lia].
    rewrite Z.shiftl_mul_pow2 by lia. reflexivity. }
  assert (Hp : 0 < 2 ^ s) by (apply Z.pow_pos_nonneg; lia).
  pose proof (Z.div_mod m' (Zpos my) ltac:(lia)) as Hdm.
  pose proof (Z.mod_pos_bound m' (Zpos my) ltac:(lia)) as Hmod.
  unfold Z.div, Z.modulo in Hdm, Hmod.
  destruct (Z.div_eucl m' (Zpos my)) as [q r]. cbn [fst snd] in Hdm, Hmod.
  exists q, e, (new_location (Zpos my) r).
  split; [reflexivity | ].
  assert (Hq : 0 <= q) by nia.
  split; [assumption | ].
  (* the exact quotient, in units of [2^e] *)
  set (X := (inject_Z (Zpos mx) * pow2 ex / (inject_Z (Zpos my) * pow2 ey))%Q).
  assert (Hy : (0 < inject_Z (Zpos my))%Q) by (rewrite <- (Zlt_Qlt 0); lia).
  pose proof (pow2_pos ey) as Pey. pose proof (pow2_pos e) as Pe.
  assert (HX : (X * inject_Z (Zpos my) == inject_Z m' * pow2 e)%Q).
  { unfold X. rewrite Hm', <- scale_up by lia.
    replace (e + s) with (ex + - ey) by (unfold s; lia).
    rewrite pow2_add, pow2_opp.
    field. split; lra. }
  assert (Hm'q : (inject_Z m' == inject_Z q * inject_Z (Zpos my) + inject_Z r)%Q).
  { rewrite Hdm, inject_Z_plus, inject_Z_mult. ring. }
  split.
  - unfold represents. rewrite new_location_inexact.
    assert (Hr0 : (0 <= inject_Z r)%Q) by (rewrite <- (Zle_Qle 0); lia).
    assert (Hr1 : (inject_Z r < inject_Z (Zpos my))%Q)
      by (rewrite <- Zlt_Qlt; lia).
    assert (E2 : (inject_Z (q + 1) == inject_Z q + 1)%Q)
      by (rewrite inject_Z_plus; reflexivity).
    destruct (Z.eqb_spec r 0) as [-> | Hr]; simpl negb; cbv iota.
    + change (inject_Z 0) with 0%Q in Hm'q.
      apply (Qmult_inj_r _ _ (inject_Z (Zpos my))); [lra | ].
      rewrite HX, Hm'q. ring.
    + assert (Hr2 : (0 < inject_Z r)%Q) by (rewrite <- (Zlt_Qlt 0); lia).
      rewrite E2. split.
      * apply (Qmult_lt_r _ _ (inject_Z (Zpos my))); [assumption | ].
        rewrite HX, Hm'q. nra.
      * apply (Qmult_lt_r _ _ (inject_Z (Zpos my))); [assumption | ].
        rewrite HX, Hm'q. nra.
  - destruct (Z_le_gt_dec e (emin prec emax)) as [Hle | Hgt].
    { pose proof (fexp_ge_emin prec emax (Zdigits2 q + e)). lia. }
    assert (Hn : e <= d1 + ex - (d2 + ey) - prec) by (unfold e, fexp in *; lia).
    destruct (Zdigits2_bounds (Zpos mx) ltac:(lia)) as [Hl1 _].
    destruct (Zdigits2_bounds (Zpos my) ltac:(lia)) as [_ Hu2].
    fold d1 in Hl1. fold d2 in Hu2.
    pose proof (Zdigits2_pos (Zpos mx) ltac:(lia)) as Hd1. fold d1 in Hd1.
    pose proof (Zdigits2_pos (Zpos my) ltac:(lia)) as Hd2. fold d2 in Hd2.
    set (t := d1 - 1 + s - d2).
    assert (Ht : prec - 1 <= t) by (unfold t, s; lia).
    assert (Hbig : 2 ^ t * 2 ^ d2 <= m').
    { rewrite <- Z.pow_add_r by lia. replace (t + d2) with (d1 - 1 + s) by (unfold t; lia).
      rewrite Z.pow_add_r by lia. rewrite Hm'. nia. }
    assert (Hpt : 0 < 2 ^ t) by (apply Z.pow_pos_nonneg; lia).
    assert (Hqt : 2 ^ t <= q) by nia.
    assert (Hdq : prec <= Zdigits2 q).
    { replace prec with (Zdigits2 (2 ^ (prec - 1))).
      - apply Zdigits2_le; [apply Z.pow_pos_nonneg; lia | ].
        eapply Z.le_trans; [ | exact Hqt]. apply Z.pow_le_mono_r; lia.
      - apply Zdigits2_unique; [ | apply Z.pow_pos_nonneg; lia].
        split; [lia | ]. apply Z.pow_lt_mono_r; lia. }
    unfold fexp. lia.
Qed.

Lemma SFdiv_spec (x y : spec_float) :
  good x = true -> good y = true -> (0 < F2Q y)%Q ->
  fl_of (SFdiv prec emax x y) (F2Q x / F2Q y).
Proof.
  intros Hx Hy Hpos.
  destruct (good_inv y Hy) as [-> | (my & ey & -> & Hby)];
    [simpl in Hpos; lra | ].
  destruct (good_inv x Hx) as [-> | (mx & ex & -> & Hbx)].
  - apply (fl_of_ext _ (F2Q (S754_zero false))).
    + simpl F2Q at 1 2. unfold Qdiv. ring.
    + apply fl_of_exact. reflexivity.
  - unfold SFdiv.
    destruct (div_core_spec mx my ex ey) as (q & e & l & -> & Hq & Hrep & Hexp).
    destruct (binary_round_aux_rounds q e l _ Hq Hrep Hexp) as (m & Hr & _).
    eapply rounds_to_fl_of. exact Hr.
Qed.


(** *** Addition and subtraction *)

Lemma adjacent_ext (m e : Z) (x y : Q) :
  (x == y)%Q -> adjacent m e x -> adjacent m e y.
Proof. unfold adjacent. intros E H. rewrite <- E. exact H. Qed.

Lemma adjacent_multiple (m e k : Z) :
  adjacent m e (inject_Z k * pow2 e) -> m = k.
Proof.
  intros Ha.
  pose proof (adjacent_le m e k _ Ha (Qle_refl _)).
  pose proof (adjacent_ge m e k _ Ha (Qle_refl _)). lia.
Qed.

Lemma binary_round_rounds (m : positive) (e : Z) :
  emin prec emax <= e ->
  exists m',
    let ef := fexp prec emax (Zpos (digits2_pos m) + e) in
    rounds_to (binary_round prec emax false m e) m' ef
      (inject_Z (Zpos m) * pow2 e)
    /\ ((inject_Z m' * pow2 ef == inject_Z (Zpos m) * pow2 e)%Q
        \/ emin prec emax < ef).
Proof.
  intros He. unfold binary_round.
  set (ef := fexp prec emax (Zpos (digits2_pos m) + e)).
  destruct (shl_align_spec m e ef) as [Hs Hf].
  destruct (shl_align m e ef) as [mz ez]. cbn [fst snd] in Hs, Hf. subst ez.
  set (ez := Z.min e ef) in *.
  assert (Hd : Zdigits2 (Zpos mz) + ez = Zpos (digits2_pos m) + e).
  { change (Zpos (digits2_pos m)) with (Zdigits2 (Zpos m)).
    rewrite Hf. rewrite Zdigits2_shift by lia. lia. }
  assert (Hx : (inject_Z (Zpos m) * pow2 e == inject_Z (Zpos mz) * pow2 ez)%Q).
  { rewrite Hf, <- scale_up by lia. replace (ez + (e - ez)) with e by lia.
    reflexivity. }
  assert (Hrep : represents (Zpos mz) ez loc_Exact (inject_Z (Zpos m) * pow2 e)).
  { unfold represents. simpl. exact Hx. }
  assert (Hexp : ez <= fexp prec emax (Zdigits2 (Zpos mz) + ez)).
  { rewrite Hd. fold ef. lia. }
  destruct (binary_round_aux_rounds (Zpos mz) ez loc_Exact _
              (Pos2Z.is_nonneg _) Hrep Hexp) as (m' & Hr & _).
  rewrite Hd in Hr. fold ef in Hr.
  exists m'. cbv zeta. split; [exact Hr | ].
  destruct (Z_le_gt_dec ef e) as [Hle | Hgt]; [left | right; lia].
  destruct Hr as (_ & _ & Ha & _).
  replace ez with ef in Hx by lia. rewrite Hx.
  apply (adjacent_ext _ _ _ _ Hx) in Ha.
  rewrite (adjacent_multiple m' ef (Zpos mz) Ha). reflexivity.
Qed.

Lemma binary_round_spec (m : positive) (e : Z) :
  emin prec emax <= e ->
  fl_of (binary_round prec emax false m e) (inject_Z (Zpos m) * pow2 e)
  /\ fl_rel (binary_round prec emax false m e) (inject_Z (Zpos m) * pow2 e).
Proof.
  intros He. destruct (binary_round_rounds m e He) as (m' & Hr & Hc).
  cbv zeta in Hr, Hc. split.
  - eapply rounds_to_fl_of. exact Hr.
  - eapply rounds_to_error; [exact Hr | exact Hc].
Qed.

Lemma F2Q_align (m : positive) (e ez : Z) :
  ez <= e ->
  (inject_Z (Zpos (fst (shl_align m e ez))) * pow2 ez
   == inject_Z (Zpos m) * pow2 e)%Q.
Proof.
  intros Hle. destruct (shl_align_spec m e ez) as [_ Hf].
  rewrite Hf. replace (Z.min e ez) with ez by lia.
  rewrite <- scale_up by lia. replace (ez + (e - ez)) with e by lia.
  reflexivity.
Qed.

Lemma SFadd_spec (x y : spec_float) :
  good x = true -> good y = true ->
  fl_of (SFadd prec emax x y) (F2Q x + F2Q y)
  /\ fl_rel (SFadd prec emax x y) (F2Q x + F2Q y).
Proof.
  intros Hx Hy.
  destruct (good_inv x Hx) as [-> | (mx & ex & -> & Hbx)];
    destruct (good_inv y Hy) as [-> | (my & ey & -> & Hby)].
  - split; [apply (fl_of_ext _ (F2Q (S754_zero false)))
           | apply (fl_rel_ext _ (F2Q (S754_zero false)))];
      try (simpl; ring);
      [apply fl_of_exact | apply fl_rel_exact]; reflexivity.
  - split; [apply (fl_of_ext _ (F2Q (S754_finite false my ey)))
           | apply (fl_rel_ext _ (F2Q (S754_finite false my ey)))];
      try (simpl; ring);
      [apply fl_of_exact | apply fl_rel_exact]; assumption.
  - split; [apply (fl_of_ext _ (F2Q (S754_finite false mx ex)))
           | apply (fl_rel_ext _ (F2Q (S754_finite false mx ex)))];
      try (simpl; ring);
      [apply fl_of_exact | apply fl_rel_exact]; assumption.
  - unfold SFadd. set (ez := Z.min ex ey).
    destruct (bounded_digits mx ex Hbx) as [Hex _].
    destruct (bounded_digits my ey Hby) as [Hey _].
    pose proof (F2Q_align mx ex ez ltac:(lia)) as Ax.
    pose proof (F2Q_align my ey ez ltac:(lia)) as Ay.
    set (a := fst (shl_align mx ex ez)) in *.
    set (b := fst (shl_align my ey ez)) in *.
    simpl cond_Zopp. change (Zpos a + Zpos b) with (Zpos (a + b)).
    simpl binary_normalize.
    assert (E : (inject_Z (Zpos (a + b)) * pow2 ez
                 == F2Q (S754_finite false mx ex) + F2Q (S754_finite false my ey))%Q).
    { simpl F2Q. rewrite <- Ax, <- Ay, Pos2Z.inj_add, inject_Z_plus. ring. }
    destruct (binary_round_spec (a + b) ez ltac:(lia)) as [H1 H2].
    split; [eapply fl_of_ext | eapply fl_rel_ext]; eassumption.
Qed.

Lemma SFsub_spec (x y : spec_float) :
  good x = true -> good y = true -> (F2Q y <= F2Q x)%Q ->
  fl_of (SFsub prec emax x y) (F2Q x - F2Q y)
  /\ fl_rel (SFsub prec emax x y) (F2Q x - F2Q y).
Proof.
  intros Hx Hy Hle.
  destruct (good_inv x Hx) as [-> | (mx & ex & -> & Hbx)];
    destruct (good_inv y Hy) as [-> | (my & ey & -> & Hby)].
  - split; [apply (fl_of_ext _ (F2Q (S754_zero false)))
           | apply (fl_rel_ext _ (F2Q (S754_zero false)))];
      try (simpl; ring);
      [apply fl_of_exact | apply fl_rel_exact]; reflexivity.
  - exfalso. pose proof (F2Q_finite_pos my ey). simpl F2Q in Hle at 2. lra.
  - split; [apply (fl_of_ext _ (F2Q (S754_finite false mx ex)))
           | apply (fl_rel_ext _ (F2Q (S754_finite false mx ex)))];
      try (simpl; ring);
      [apply fl_of_exact | apply fl_rel_exact]; assumption.
  - unfold SFsub. set (ez := Z.min ex ey).
    destruct (bounded_digits mx ex Hbx) as [Hex _].
    destruct (bounded_digits my ey Hby) as [Hey _].
    pose proof (F2Q_align mx ex ez ltac:(lia)) as Ax.
    pose proof (F2Q_align my ey ez ltac:(lia)) as Ay.
    set (a := fst (shl_align mx ex ez)) in *.
    set (b := fst (shl_align my ey ez)) in *.
    simpl cond_Zopp.
    assert (E : (inject_Z (Zpos a - Zpos b) * pow2 ez
                 == F2Q (S754_finite false mx ex) - F2Q (S754_finite false my ey))%Q).
    { simpl F2Q. rewrite <- Ax, <- Ay. unfold Z.sub.
      rewrite inject_Z_plus, inject_Z_opp. ring. }
    assert (Hab : Zpos b <= Zpos a).
    { simpl F2Q in Hle. rewrite <- Ax, <- Ay in Hle. pose proof (pow2_pos ez).
      rewrite Zle_Qle. nra. }
    destruct (Zpos a - Zpos b) as [ | p | p] eqn:Ed; [ | | lia].
    + simpl binary_normalize.
      split; [apply (fl_of_ext _ (F2Q (S754_zero false)))
             | apply (fl_rel_ext _ (F2Q (S754_zero false)))];
        try (rewrite <- E; simpl; ring);
        [apply fl_of_exact | apply fl_rel_exact]; reflexivity.
    + simpl binary_normalize.
      destruct (binary_round_spec p ez ltac:(lia)) as [H1 H2].
      split; [eapply fl_of_ext | eapply fl_rel_ext]; eassumption.
Qed.

End RoundValue.

(** * Python floats: the lemmas at precision 53 *)

Lemma Ok_inj {A : Type} (a b : A) : Ok a = Ok b -> a = b.
Proof. congruence. Qed.

Lemma prec_pos : 0 < prec.
Proof. reflexivity. Qed.

Lemma prec_lt_emax : prec < emax.
Proof. reflexivity. Qed.

Lemma emin_le_0 : emin prec emax <= 0.
Proof. discriminate. Qed.

Lemma fmul_spec (x y : float) :
  amount_ok x = true -> amount_ok y = true ->
  fl_of prec emax (fmul x y) (F2Q x * F2Q y).
Proof. apply (SFmul_spec prec emax prec_pos prec_lt_emax). Qed.

Lemma fdiv_spec (x y : float) :
  amount_ok x = true -> amount_ok y = true -> (0 < F2Q y)%Q ->
  fl_of prec emax (SFdiv prec emax x y) (F2Q x / F2Q y).
Proof. apply (SFdiv_spec prec emax prec_pos). Qed.

Lemma fadd_spec (x y : float) :
  amount_ok x = true -> amount_ok y = true ->
  fl_of prec emax (fadd x y) (F2Q x + F2Q y)
  /\ fl_rel prec emax (fadd x y) (F2Q x + F2Q y).
Proof. apply (SFadd_spec prec emax prec_pos). Qed.

Lemma fsub_spec (x y : float) :
  amount_ok x = true -> amount_ok y = true -> (F2Q y <= F2Q x)%Q ->
  fl_of prec emax (fsub x y) (F2Q x - F2Q y)
  /\ fl_rel prec emax (fsub x y) (F2Q x - F2Q y).
Proof. apply (SFsub_spec prec emax prec_pos). Qed.

(** A rounding is [+inf] or a non-negative finite double. *)
Lemma fl_of_cases (r : float) (x : Q) :
  fl_of prec emax r x -> r = S754_infinity false \/ amount_ok r = true.
Proof.
  intros (_ & Hv & Hs & _). unfold amount_ok, good.
  destruct r as [[ | ] | [ | ] | | [ | ] m e]; simpl in Hs; try discriminate.
  - right. reflexivity.
  - left. reflexivity.
  - right. rewrite Hv. reflexivity.
Qed.

Lemma fl_of_le (r z : float) (x : Q) :
  fl_of prec emax r x -> amount_ok z = true -> (x <= F2Q z)%Q ->
  amount_ok r = true /\ (F2Q r <= F2Q z)%Q.
Proof.
  intros H Hz Hx. pose proof H as (_ & Hv & Hs & Hu & _).
  destruct (Hu z Hz Hx) as [Hf Hle]. split; [ | assumption].
  unfold amount_ok, good. rewrite Hv, Hf, Hs. reflexivity.
Qed.

Lemma fl_of_ge (r z : float) (x : Q) :
  fl_of prec emax r x -> amount_ok z = true -> (F2Q z <= x)%Q ->
  r = S754_infinity false \/ (amount_ok r = true /\ (F2Q z <= F2Q r)%Q).
Proof.
  intros H Hz Hx. pose proof H as (_ & Hv & Hs & _ & Hl).
  destruct (Hl z Hz Hx) as [Hinf | [Hf Hle]]; [left; assumption | right].
  split; [ | assumption].
  unfold amount_ok, good. rewrite Hv, Hf, Hs. reflexivity.
Qed.

Lemma amount_ok_nonneg (x : float) : amount_ok x = true -> (0 <= F2Q x)%Q.
Proof. apply good_F2Q_nonneg. Qed.

Lemma amount_ok_finite (x : float) : amount_ok x = true -> is_finite x = true.
Proof.
  unfold amount_ok, good. intros H.
  apply andb_true_iff in H. destruct H as [H _].
  apply andb_true_iff in H. destruct H as [_ H]. exact H.
Qed.

Lemma amount_ok_zero : amount_ok (S754_zero false) = true.
Proof. reflexivity. Qed.

(** The rounding of zero is zero. *)
Lemma fl_of_zero (r : float) (x : Q) :
  fl_of prec emax r x -> (x == 0)%Q ->
  amount_ok r = true /\ (F2Q r == 0)%Q.
Proof.
  intros H Hx.
  destruct (fl_of_le r (S754_zero false) x H amount_ok_zero) as [Hr Hle].
  { rewrite Hx. simpl. apply Qle_refl. }
  split; [assumption | ]. simpl in Hle.
  pose proof (amount_ok_nonneg r Hr). lra.
Qed.

(** *** [float(n)] *)

Lemma Z2SF_pos (n : Z) :
  0 < n -> fl_of prec emax (Z2SF n) (inject_Z n).
Proof.
  intros Hn. destruct n as [ | p | p]; try lia.
  unfold Z2SF. simpl binary_normalize.
  destruct (binary_round_spec prec emax prec_pos p 0 emin_le_0)
    as [H _].
  eapply fl_of_ext; [ | exact H]. unfold pow2. simpl. ring.
Qed.



(** A non-negative int that converts gives a non-negative finite
    double. *)
Lemma of_int_nonneg (n : Z) (t : float) :
  0 <= n -> of_int n = Ok t -> amount_ok t = true.
Proof.
  intros Hn. unfold of_int.
  destruct (Z.eq_dec n 0) as [-> | Hne].
  - simpl. intros [= <-]. reflexivity.
  - destruct (fl_of_cases _ _ (Z2SF_pos n ltac:(lia))) as [-> | Hok].
    + discriminate.
    + destruct (Z2SF n) eqn:E; try discriminate; intros [= <-]; assumption.
Qed.


Lemma F2Q_100 : (F2Q (Z2SF 100) == 100)%Q.
Proof. vm_compute. reflexivity. Qed.

Lemma F2Q_1 : (F2Q (Z2SF 1) == 1)%Q.
Proof. vm_compute. reflexivity. Qed.

Lemma amount_ok_100 : amount_ok (Z2SF 100) = true.
Proof. reflexivity. Qed.

Lemma amount_ok_1 : amount_ok (Z2SF 1) = true.
Proof. reflexivity. Qed.

(** [float(n)] of a positive int is at least one. *)
Lemma of_int_ge_1 (n : Z) (t : float) :
  1 <= n -> of_int n = Ok t -> amount_ok t = true /\ (1 <= F2Q t)%Q.
Proof.
  intros Hn Ht. split; [apply (of_int_nonneg n); [lia | exact Ht] | ].
  unfold of_int in Ht. pose proof (Z2SF_pos n ltac:(lia)) as Hfl.
  destruct (fl_of_ge _ (Z2SF 1) _ Hfl amount_ok_1) as [Hinf | [_ Hge]].
  - rewrite F2Q_1. change 1%Q with (inject_Z 1). rewrite <- Zle_Qle. exact Hn.
  - rewrite Hinf in Ht. discriminate.
  - rewrite F2Q_1 in Hge.
    destruct (Z2SF n); try discriminate; apply Ok_inj in Ht; subst t; exact Hge.
Qed.

(** ** Running the block *)




(** The hundred of [x / 100] always converts. *)
Lemma fdiv_int_100 (x : float) :
  fdiv_int x 100 = Ok (SFdiv prec emax x (Z2SF 100)).
Proof. reflexivity. Qed.

(** The shape of a successful run of the block, field by field. *)
Lemma calculation_fields (i : inputs) (c : calc) :
  calculation i = Ok c ->
  exists tenure days : float,
    of_int (avg_tenure i) = Ok tenure
    /\ of_int (no_of_days i) = Ok days
    /\ is_zero (avg_ticket_size i) = false
    /\ is_zero days = false
    /\ is_zero (sanction_sales_target i) = false
    /\ is_zero (collection_target i) = false
    /\ let rate := SFdiv prec emax (roi_per_day i) (Z2SF 100) in
       pf_amount c
       = fmul (SFdiv prec emax (pf_percentage i) (Z2SF 100)) (loan_amt_current i)
       /\ amt_in_bank c = fsub (loan_amt_current i) (pf_amount c)
       /\ repayment_amt c = fadd (loan_amt_current i) (interest_current c)
       /\ no_of_loans c
          = SFdiv prec emax (loan_amt_current i) (avg_ticket_size i)
       /\ no_sanction_sales c
          = SFdiv prec emax (SFdiv prec emax (loan_amt_current i) days)
              (sanction_sales_target i)
       /\ interest_current c = fmul (fmul (loan_amt_current i) rate) tenure
       /\ interest_t1 c = fmul (fmul (loan_amt_t1 i) rate) tenure
       /\ interest_t2 c = fmul (fmul (loan_amt_t2 i) rate) tenure
       /\ collection_current c
          = fmul (fadd (loan_amt_current i) (interest_current c)) w_0_11
       /\ collection_t1 c = fmul (fadd (loan_amt_t1 i) (interest_t1 c)) w_0_78
       /\ collection_t2 c = fmul (fadd (loan_amt_t2 i) (interest_t2 c)) w_0_11
       /\ total_collection_required c
          = fadd (fadd (collection_current c) (collection_t1 c)) (collection_t2 c)
       /\ no_collection c
          = SFdiv prec emax (total_collection_required c) (collection_target i).
Proof.
  unfold calculation, interest. rewrite !fdiv_int_100. simpl bind.
  unfold fmul_int, fdiv_int, fdiv.
  intros H.
  destruct (of_int (avg_tenure i)) as [tenure | ] eqn:Et; simpl in H;
    [ | discriminate].
  destruct (is_zero (avg_ticket_size i)) eqn:Zt; simpl in H; [discriminate | ].
  destruct (of_int (no_of_days i)) as [days | ] eqn:Ed; simpl in H;
    [ | discriminate].
  destruct (is_zero days) eqn:Zd; simpl in H; [discriminate | ].
  destruct (is_zero (sanction_sales_target i)) eqn:Zs; simpl in H;
    [discriminate | ].
  destruct (is_zero (collection_target i)) eqn:Zc; simpl in H;
    [discriminate | ].
  injection H as <-. simpl.
  exists tenure, days.
  repeat match goal with |- _ /\ _ => split end;
    first [assumption | reflexivity].
Qed.

(** Conversely the block runs to completion as soon as the two ints
    convert and no divisor is a zero. *)
Lemma calculation_total (i : inputs) (tenure days : float) :
  of_int (avg_tenure i) = Ok tenure ->
  of_int (no_of_days i) = Ok days ->
  is_zero (avg_ticket_size i) = false ->
  is_zero days = false ->
  is_zero (sanction_sales_target i) = false ->
  is_zero (collection_target i) = false ->
  exists c, calculation i = Ok c.
Proof.
  intros Et Ed Zt Zd Zs Zc.
  unfold calculation, interest. rewrite !fdiv_int_100. simpl bind.
  unfold fmul_int, fdiv_int, fdiv.
  rewrite Et, Ed. simpl. rewrite Zt. simpl. rewrite Zd. simpl.
  rewrite Zs. simpl. rewrite Zc. simpl. eauto.
Qed.


(** * Truncation, remainder and the rounded headcount *)

Lemma Qfloor_unique (q : Q) (n : Z) :
  (inject_Z n <= q)%Q -> (q < inject_Z (n + 1))%Q -> Qfloor q = n.
Proof.
  intros Hl Hu.
  pose proof (Qfloor_le q) as Fl. pose proof (Qlt_floor q) as Fu.
  assert (H1 : (inject_Z n < inject_Z (Qfloor q + 1))%Q) by lra.
  assert (H2 : (inject_Z (Qfloor q) < inject_Z (n + 1))%Q) by lra.
  rewrite <- Zlt_Qlt in H1, H2. lia.
Qed.

Lemma Qceiling_of_floor (q : Q) :
  Qceiling q = if Qeq_dec (inject_Z (Qfloor q)) q then Qfloor q else Qfloor q + 1.
Proof.
  unfold Qceiling.
  pose proof (Qfloor_le q) as Fl. pose proof (Qlt_floor q) as Fu.
  assert (E1 : (inject_Z (Qfloor q + 1) == inject_Z (Qfloor q) + 1)%Q)
    by (rewrite inject_Z_plus; reflexivity).
  destruct (Qeq_dec (inject_Z (Qfloor q)) q) as [He | Hne].
  - rewrite (Qfloor_unique (- q) (- Qfloor q)); [lia | | ].
    + rewrite inject_Z_opp. lra.
    + rewrite inject_Z_plus, inject_Z_opp. change (inject_Z 1) with 1%Q. lra.
  - rewrite (Qfloor_unique (- q) (- (Qfloor q + 1))); [lia | | ].
    + rewrite inject_Z_opp. lra.
    + replace (- (Qfloor q + 1) + 1) with (- Qfloor q) by lia.
      rewrite inject_Z_opp.
      assert (inject_Z (Qfloor q) < q)%Q; [ | lra].
      apply Qle_lteq in Fl. destruct Fl; [assumption | contradiction].
Qed.

Lemma F2Q_shifted (m k : positive) :
  (F2Q (S754_finite false m (Zneg k))
   == inject_Z (Zpos m) / inject_Z (2 ^ Zpos k))%Q.
Proof.
  unfold F2Q. cbn [cond_Zopp].
  rewrite (pow2_opp (Zpos k)), pow2_Z by lia. reflexivity.
Qed.

Lemma F2Q_integral (m : positive) (e : Z) :
  0 <= e ->
  (F2Q (S754_finite false m e) == inject_Z (Zpos m * 2 ^ e))%Q.
Proof.
  intros He. unfold F2Q. cbn [cond_Zopp].
  rewrite pow2_Z, inject_Z_mult by assumption.
  reflexivity.
Qed.

(** [int(x)] is the floor of a non-negative finite [x]. *)
Lemma int_floor (x : float) :
  is_finite x = true -> is_nonneg x = true ->
  int x = Ok (Qfloor (F2Q x)).
Proof.
  destruct x as [s | s | | s m e]; simpl is_finite; simpl is_nonneg;
    try discriminate; intros _ Hs.
  - reflexivity.
  - destruct s; [discriminate | ]. unfold int. f_equal.
    destruct e as [ | p | k].
    + rewrite (F2Q_integral m 0) by lia. rewrite Qfloor_Z.
      rewrite Z.shiftl_mul_pow2 by lia. reflexivity.
    + rewrite (F2Q_integral m (Zpos p)) by lia. rewrite Qfloor_Z.
      rewrite Z.shiftl_mul_pow2 by lia. reflexivity.
    + rewrite F2Q_shifted, <- Zdiv_Qdiv.
      rewrite Z.shiftr_div_pow2 by lia. reflexivity.
Qed.

Lemma F2Q_renorm (s : bool) (m : positive) (e : Z) :
  (F2Q (renorm s m e) == inject_Z (cond_Zopp s (Zpos m)) * pow2 e)%Q.
Proof.
  unfold renorm.
  destruct (shl_align_spec m e (fexp prec emax (Zpos (digits2_pos m) + e)))
    as [Hs Hf].
  destruct (shl_align m e (fexp prec emax (Zpos (digits2_pos m) + e)))
    as [m' e']. cbn [fst snd] in Hs, Hf. subst e'.
  set (e' := Z.min e (fexp prec emax (Zpos (digits2_pos m) + e))) in *.
  simpl F2Q.
  assert (E : (inject_Z (Zpos m') * pow2 e' == inject_Z (Zpos m) * pow2 e)%Q).
  { rewrite Hf, <- scale_up by lia. replace (e' + (e - e')) with e by lia.
    reflexivity. }
  destruct s; simpl cond_Zopp; [ | exact E].
  change (Zneg m') with (- Zpos m'). change (Zneg m) with (- Zpos m).
  rewrite !inject_Z_opp.
  setoid_replace (- inject_Z (Zpos m') * pow2 e')%Q
    with (- (inject_Z (Zpos m') * pow2 e'))%Q by ring.
  rewrite E. ring.
Qed.

Lemma gt_zero_renorm (m : positive) (e : Z) : gt_zero (renorm false m e) = true.
Proof.
  unfold renorm.
  destruct (shl_align m e (fexp prec emax (Zpos (digits2_pos m) + e))).
  reflexivity.
Qed.

(** [x % 1] is the fractional part of a non-negative finite [x], and
    [x % 1 > 0] tests whether there is one. *)
Lemma mod_one_frac (x : float) :
  is_finite x = true -> is_nonneg x = true ->
  (F2Q (mod_one x) == frac (F2Q x))%Q
  /\ (gt_zero (mod_one x) = true <-> (0 < frac (F2Q x))%Q).
Proof.
  unfold frac.
  destruct x as [s | s | | s m e]; simpl is_finite; simpl is_nonneg;
    try discriminate; intros _ Hs.
  - simpl. split; [reflexivity | ]. split; [discriminate | ].
    intros H. exfalso. revert H. apply Qlt_irrefl.
  - destruct s; [discriminate | ].
    assert (Hint : forall e', 0 <= e' ->
              (F2Q pzero == F2Q (S754_finite false m e')
                             - inject_Z (Qfloor (F2Q (S754_finite false m e'))))%Q
              /\ (gt_zero pzero = true
                  <-> (0 < F2Q (S754_finite false m e')
                           - inject_Z (Qfloor (F2Q (S754_finite false m e'))))%Q)).
    { intros e' He'. pose proof (F2Q_integral m e' He') as Ei.
      assert (Efl : Qfloor (F2Q (S754_finite false m e')) = Zpos m * 2 ^ e')
        by (rewrite Ei; apply Qfloor_Z).
      rewrite Efl. split; [rewrite Ei; simpl; ring | ].
      split; [discriminate | ].
      intros H. exfalso. rewrite Ei in H. lra. }
    destruct e as [ | p | k]; [apply (Hint 0); lia | apply (Hint (Zpos p)); lia | ].
    unfold mod_one. rewrite Z.land_ones by lia.
    assert (Hp : 0 < 2 ^ Zpos k) by (apply Z.pow_pos_nonneg; lia).
    pose proof (Z.div_mod (Zpos m) (2 ^ Zpos k) ltac:(lia)) as Hdm.
    pose proof (Z.mod_pos_bound (Zpos m) (2 ^ Zpos k) Hp) as Hmod.
    assert (Hfl : Qfloor (F2Q (S754_finite false m (Zneg k)))
                  = Zpos m / 2 ^ Zpos k).
    { rewrite F2Q_shifted, <- Zdiv_Qdiv. reflexivity. }
    rewrite Hfl.
    assert (Hq : (0 < inject_Z (2 ^ Zpos k))%Q) by (rewrite <- (Zlt_Qlt 0); lia).
    assert (Hfrac : (F2Q (S754_finite false m (Zneg k))
                     - inject_Z (Zpos m / 2 ^ Zpos k)
                     == inject_Z (Zpos m mod 2 ^ Zpos k) * pow2 (Zneg k))%Q).
    { rewrite F2Q_shifted.
      rewrite (pow2_opp (Zpos k)), pow2_Z by lia.
      rewrite Hdm at 1. rewrite inject_Z_plus, inject_Z_mult.
      field. lra. }
    rewrite Hfrac.
    destruct (Zpos m mod 2 ^ Zpos k) as [ | r | r] eqn:Er; [ | | lia].
    + change (inject_Z 0) with 0%Q.
      split; [simpl F2Q; ring | ]. split; [discriminate | ].
      intros H. exfalso. lra.
    + split; [apply (F2Q_renorm false r (Zneg k)) | ].
      split; [intros _ | intros _; apply gt_zero_renorm].
      pose proof (pow2_pos (Zneg k)).
      assert ((0 < inject_Z (Zpos r))%Q) by (rewrite <- (Zlt_Qlt 0); lia).
      nra.
Qed.

(** ** The default scenario *)

(** C1. With the widgets' default values the render shows fee amount
    1,180,000, bank amount 8,820,000, 333 loans, repayment 12,500,000,
    interests 2,500,000 / 2,000,000 / 1,250,000, collections 1,375,000 /
    7,800,000 / 687,500, total collection 9,862,500, rounded headcounts
    2 and 2, and a total headcount of 4 (in the tile and in the summary).
    Every amount is the exact double, no rounding error is left. *)
Theorem default_scenario :
  exists o,
    render defaults = Ok o
    /\ pf_amount (figures o) = Z2SF 1180000
    /\ amt_in_bank (figures o) = Z2SF 8820000
    /\ loan_count o = 333
    /\ repayment_amt (figures o) = Z2SF 12500000
    /\ interest_current (figures o) = Z2SF 2500000
    /\ interest_t1 (figures o) = Z2SF 2000000
    /\ interest_t2 (figures o) = Z2SF 1250000
    /\ collection_current (figures o) = Z2SF 1375000
    /\ collection_t1 (figures o) = Z2SF 7800000
    /\ collection_t2 (figures o) = Z2SF 687500
    /\ total_collection_required (figures o) = Z2SF 9862500
    /\ sanction_headcount_rounded o = 2
    /\ collection_headcount_rounded o = 2
    /\ total_headcount o = 4
    /\ reported_total o = 4.
Proof.
  eexists. split; [vm_compute; reflexivity | ].
  vm_compute. repeat split; reflexivity.
Qed.

(** ** The collection formulas *)



(** ** Determinism *)


(** ** The two totals *)

(** C9. The total of the metric tile (one flat sum of two truncations
    and two increments) is the total of the summary table and of the text
    report (the sum over the values of [team_rounded]), including the
    exception raised when a headcount is infinite or NaN; so every render
    that completes shows the same total in both places. *)
Theorem tile_total_is_summary_total (c : calc) :
  total_staff_metric c = summary_total c
  /\ forall i, match render i with
               | Ok o => total_headcount o = reported_total o
               | Raise _ => True
               end.
Proof.
  assert (H : forall c', total_staff_metric c' = summary_total c').
  { intros c'.
    unfold total_staff_metric, summary_total, team_rounded, rounded, values, sum.
    destruct (int (no_sanction_sales c')) as [a | e]; simpl; [ | reflexivity].
    destruct (int (no_collection c')) as [b | e]; simpl; [ | reflexivity].
    f_equal. lia. }
  split; [apply H | ].
  intros i. unfold render.
  destruct (calculation i) as [c' | ]; [ | exact I]. unfold bind at 1.
  destruct (number_of_loans_metric c') as [n | ]; [ | exact I]. unfold bind at 1.
  rewrite (H c').
  destruct (summary_total c') as [t | ]; [ | exact I]. unfold bind at 1.
  destruct (rounded (no_sanction_sales c')) as [s | ]; [ | exact I].
  unfold bind at 1.
  destruct (rounded (no_collection c')) as [k | ]; [ | exact I].
  reflexivity.
Qed.

(** ** Divisors *)



Lemma is_zero_F2Q (x : float) : is_zero x = true -> (F2Q x == 0)%Q.
Proof. destruct x; simpl; try discriminate. intros _. reflexivity. Qed.



(** The block itself never fails on an overflow, but [int] does: the
    largest double as disbursement leaves an infinite collection
    headcount, and the tile raises OverflowError. *)
Lemma render_overflow :
  (exists c, calculation (scenario (S754_finite false 9007199254740991 971)
                            (literal 118 10) (Z2SF 1) 25) = Ok c
             /\ no_collection c = S754_infinity false)
  /\ render (scenario (S754_finite false 9007199254740991 971)
               (literal 118 10) (Z2SF 1) 25) = Raise OverflowError.
Proof.
  split; [eexists; split | ]; vm_compute; reflexivity.
Qed.

(** ** The rounded headcount *)

(** The sanction and sales headcount the block computes from inputs in
    the widgets' ranges is a non-negative finite double, at most the
    disbursement. *)
Lemma sanction_headcount_ok (i : inputs) (c : calc) :
  amount_ok (loan_amt_current i) = true ->
  1 <= no_of_days i ->
  amount_ok (sanction_sales_target i) = true ->
  (1 <= F2Q (sanction_sales_target i))%Q ->
  calculation i = Ok c ->
  amount_ok (no_sanction_sales c) = true
  /\ (F2Q (no_sanction_sales c) <= F2Q (loan_amt_current i))%Q.
Proof.
  intros HD Hdays Ht Ht1 H.
  destruct (calculation_fields i c H)
    as (tenure & days & _ & Ed & _ & _ & _ & _ & F).
  cbv zeta in F. destruct F as (_ & _ & _ & _ & Hs & _).
  destruct (of_int_ge_1 _ _ Hdays Ed) as [Hdok Hd1].
  pose proof (amount_ok_nonneg _ HD) as HD0.
  pose proof (fdiv_spec _ _ HD Hdok ltac:(lra)) as Hq.
  destruct (fl_of_le _ (loan_amt_current i) _ Hq HD) as [Hqok Hqle].
  { apply Qle_shift_div_r; [lra | nra]. }
  pose proof (amount_ok_nonneg _ Hqok) as Hq0.
  pose proof (fdiv_spec _ _ Hqok Ht ltac:(lra)) as Hr. rewrite <- Hs in Hr.
  destruct (fl_of_le _ (loan_amt_current i) _ Hr HD) as [Hrok Hrle].
  { apply Qle_shift_div_r; [lra | nra]. }
  split; assumption.
Qed.

(** C3. For a non-negative finite headcount [x] the rounded headcount
    [int(x) + (1 if x % 1 > 0 else 0)] is the floor of [x] plus one
    exactly when [x] has a fractional part; this is the ceiling of [x];
    a whole [x] is left as it is; and the total of the tile is the sum of
    the two rounded headcounts. *)
Theorem rounded_headcount_is_ceiling (x : float) :
  is_finite x = true -> is_nonneg x = true ->
  rounded x
  = Ok (Qfloor (F2Q x) + (if Qlt_le_dec 0 (frac (F2Q x)) then 1 else 0))
  /\ rounded x = Ok (Qceiling (F2Q x))
  /\ ((0 < frac (F2Q x))%Q -> rounded x = Ok (Qfloor (F2Q x) + 1))
  /\ ((frac (F2Q x) == 0)%Q ->
      exists n, rounded x = Ok n /\ (inject_Z n == F2Q x)%Q)
  /\ (forall c s k,
        rounded (no_sanction_sales c) = Ok s ->
        rounded (no_collection c) = Ok k ->
        total_staff_metric c = Ok (s + k)).
Proof.
  intros Hf Hs.
  destruct (mod_one_frac x Hf Hs) as [_ Hgt].
  assert (Hr : rounded x
               = Ok (Qfloor (F2Q x)
                     + (if Qlt_le_dec 0 (frac (F2Q x)) then 1 else 0))).
  { unfold rounded, increment. rewrite (int_floor x Hf Hs). simpl bind.
    destruct (Qlt_le_dec 0 (frac (F2Q x))) as [Hp | Hn].
    - rewrite (proj2 Hgt Hp). reflexivity.
    - destruct (gt_zero (mod_one x)); [ | reflexivity].
      exfalso. pose proof (proj1 Hgt eq_refl). lra. }
  split; [exact Hr | ]. split; [ | split; [ | split]].
  - rewrite Hr, Qceiling_of_floor. f_equal. unfold frac.
    destruct (Qlt_le_dec 0 (F2Q x - inject_Z (Qfloor (F2Q x)))) as [Hp | Hn];
      destruct (Qeq_dec (inject_Z (Qfloor (F2Q x))) (F2Q x)) as [He | Hne];
      try lia.
    + exfalso. lra.
    + exfalso. pose proof (Qfloor_le (F2Q x)). apply Hne. lra.
  - intros Hp. rewrite Hr.
    destruct (Qlt_le_dec 0 (frac (F2Q x))); [reflexivity | exfalso; lra].
  - intros Hz. exists (Qfloor (F2Q x)). split.
    + rewrite Hr.
      destruct (Qlt_le_dec 0 (frac (F2Q x))); [exfalso; lra | f_equal; lia].
    + unfold frac in Hz. lra.
  - intros c s k. unfold total_staff_metric, rounded.
    destruct (int (no_sanction_sales c)) as [a | ]; simpl; [ | discriminate].
    destruct (int (no_collection c)) as [b | ]; simpl; [ | discriminate].
    intros [= <-] [= <-]. f_equal. lia.
Qed.

Lemma rounded_headcount_is_ceiling_witness :
  rounded (literal 4167 100) = Ok 42 /\ rounded (Z2SF 40) = Ok 40.
Proof.
  split.
  - destruct (rounded_headcount_is_ceiling (literal 4167 100) eq_refl eq_refl)
      as (_ & H & _).
    rewrite H. vm_compute. reflexivity.
  - destruct (rounded_headcount_is_ceiling (Z2SF 40) eq_refl eq_refl)
      as (_ & H & _).
    rewrite H. vm_compute. reflexivity.
Defined.

(** * Amounts *)

(** The daily rate [roi / 100] of a non-negative finite [roi]. *)
Lemma rate_ok (roi : float) :
  amount_ok roi = true ->
  let rate := SFdiv prec emax roi (Z2SF 100) in
  fl_of prec emax rate (F2Q roi / 100)
  /\ amount_ok rate = true
  /\ (F2Q rate <= F2Q roi)%Q
  /\ ((F2Q roi <= 100)%Q -> (F2Q rate <= 1)%Q).
Proof.
  intros Hroi rate.
  assert (H : fl_of prec emax rate (F2Q roi / 100)).
  { eapply fl_of_ext; [ | apply (fdiv_spec roi (Z2SF 100) Hroi amount_ok_100)].
    - rewrite F2Q_100. reflexivity.
    - rewrite F2Q_100. reflexivity. }
  pose proof (amount_ok_nonneg roi Hroi) as H0.
  destruct (fl_of_le rate roi _ H Hroi) as [Hok Hle].
  { apply Qle_shift_div_r; [reflexivity | ]. lra. }
  split; [exact H | ]. split; [exact Hok | ]. split; [exact Hle | ].
  intros H100.
  destruct (fl_of_le rate (Z2SF 1) _ H amount_ok_1) as [_ Hle1].
  { rewrite F2Q_1. apply Qle_shift_div_r; [reflexivity | ]. lra. }
  rewrite F2Q_1 in Hle1. exact Hle1.
Qed.

(** The interest [amount * (roi / 100) * tenure] of non-negative
    inputs: NaN only when the first product overflowed and the tenure is
    zero, otherwise [+inf] or a non-negative finite double; zero as soon
    as a factor is. *)
Lemma interest_cases (amount roi : float) (tenure : Z) (I : float) :
  amount_ok amount = true -> amount_ok roi = true -> 0 <= tenure ->
  interest amount roi tenure = Ok I ->
  (I = S754_nan \/ I = S754_infinity false \/ amount_ok I = true)
  /\ ((F2Q roi <= 100)%Q ->
      (I = S754_infinity false \/ amount_ok I = true)
      /\ ((F2Q roi == 0)%Q \/ tenure = 0 \/ (F2Q amount == 0)%Q ->
          amount_ok I = true /\ (F2Q I == 0)%Q)).
Proof.
  intros Ha Hroi Ht. unfold interest. rewrite fdiv_int_100. unfold bind at 1.
  unfold fmul_int.
  destruct (of_int tenure) as [t | ] eqn:Et; unfold bind; [ | discriminate].
  intros HI. apply Ok_inj in HI. subst I.
  pose proof (of_int_nonneg tenure t Ht Et) as Htok.
  destruct (rate_ok roi Hroi) as (Hrate & Hrok & _ & Hr1).
  set (rate := SFdiv prec emax roi (Z2SF 100)) in *.
  pose proof (fmul_spec amount rate Ha Hrok) as Hp1.
  pose proof (amount_ok_nonneg amount Ha) as Ha0.
  pose proof (amount_ok_nonneg rate Hrok) as Hr0.
  pose proof (amount_ok_nonneg t Htok) as Ht0.
  split.
  - destruct (fl_of_cases _ _ Hp1) as [Hinf | Hok].
    + rewrite Hinf. unfold amount_ok in Htok.
      destruct (good_inv prec emax t Htok) as [-> | (mt & et & -> & _)].
      * left. reflexivity.
      * right; left. reflexivity.
    + right. apply (fl_of_cases _ _ (fmul_spec _ t Hok Htok)).
  - intros H100. specialize (Hr1 H100).
    destruct (fl_of_le _ amount _ Hp1 Ha) as [Hok Hle]; [nra | ].
    pose proof (fmul_spec _ t Hok Htok) as HI.
    split; [apply (fl_of_cases _ _ HI) | ].
    intros Hz. apply (fl_of_zero _ _ HI).
    pose proof (amount_ok_nonneg _ Hok) as Hp0.
    destruct Hz as [Hz | [Hz | Hz]].
    + assert (Er : (F2Q rate == 0)%Q).
      { destruct (fl_of_zero _ _ Hrate) as [_ E]; [ | exact E].
        rewrite Hz. reflexivity. }
      destruct (fl_of_zero _ _ Hp1) as [_ E]; [rewrite Er; ring | ].
      rewrite E. ring.
    + subst tenure. simpl in Et. injection Et as <-. simpl F2Q. ring.
    + destruct (fl_of_zero _ _ Hp1) as [_ E]; [rewrite Hz; ring | ].
      rewrite E. ring.
Qed.

(** ** Loan count *)



(** The quotient the block computes is the exact quotient rounded to
    the nearest double, so its floor can exceed the floor of the exact
    quotient when the rounding reaches an integer:
    3.9999999999999996 / 1.3333333333333333 is 3.0 in binary64 and
    2.9999999999999998... exactly. *)
Lemma loan_count_of_rounded_quotient :
  int (SFdiv prec emax (S754_finite false 9007199254740991 (-51)) (literal 4 3))
  = Ok 3
  /\ Qfloor (F2Q (S754_finite false 9007199254740991 (-51)) / F2Q (literal 4 3))
     = 2.
Proof. split; vm_compute; reflexivity. Qed.

(** * Repayment, fee and bank amount *)

Lemma calculation_interest (i : inputs) (c : calc) :
  calculation i = Ok c ->
  interest (loan_amt_current i) (roi_per_day i) (avg_tenure i)
  = Ok (interest_current c)
  /\ repayment_amt c = fadd (loan_amt_current i) (interest_current c)
  /\ pf_amount c
     = fmul (SFdiv prec emax (pf_percentage i) (Z2SF 100)) (loan_amt_current i)
  /\ amt_in_bank c = fsub (loan_amt_current i) (pf_amount c).
Proof.
  intros H.
  destruct (calculation_fields i c H)
    as (tenure & days & Et & _ & _ & _ & _ & _ & F).
  cbv zeta in F. destruct F as (Hpf & Hbank & Hrep & _ & _ & Hi & _).
  repeat split; try assumption.
  unfold interest. rewrite fdiv_int_100. unfold bind at 1. unfold fmul_int.
  rewrite Et. unfold bind. rewrite Hi. reflexivity.
Qed.

Lemma fadd_infinity (x : float) :
  amount_ok x = true -> fadd x (S754_infinity false) = S754_infinity false.
Proof.
  intros H. unfold amount_ok in H.
  destruct (good_inv prec emax x H) as [-> | (m & e & -> & _)]; reflexivity.
Qed.

Lemma fadd_nan (x : float) : fadd x S754_nan = S754_nan.
Proof. destruct x as [[ | ] | [ | ] | | s m e]; reflexivity. Qed.

Lemma unit_roundoff : (pow2 (1 - prec) == pow2 (-52))%Q.
Proof. reflexivity. Qed.

Lemma four_units : (4 * pow2 (-52) == pow2 (-50))%Q.
Proof. vm_compute. reflexivity. Qed.

Lemma unit_small : (pow2 (-52) <= 1)%Q.
Proof. vm_compute. discriminate. Qed.

(** The double [2^1023]. *)
Lemma amount_ok_2_1023 : amount_ok (S754_finite false 4503599627370496 971) = true.
Proof. reflexivity. Qed.

Lemma F2Q_2_1023 :
  (F2Q (S754_finite false 4503599627370496 971) == 2 * pow2 1022)%Q.
Proof. vm_compute. reflexivity. Qed.



(** C5, as the code has it.  For a non-negative disbursement of at most
    [2^1022] and a fee percentage of at most 100, the fee amount is the
    product [(p / 100) * D] in binary64 (each operation rounded once), the
    bank amount is the rounded difference, both lie between zero and [D],
    and their sum gives [D] back up to rounding: within [2^-52 * D]
    as numbers, within [2^-50 * D] when added in binary64. *)
Theorem fee_and_bank_amount (i : inputs) (c : calc) :
  amount_ok (loan_amt_current i) = true ->
  amount_ok (pf_percentage i) = true ->
  (F2Q (pf_percentage i) <= 100)%Q ->
  (F2Q (loan_amt_current i) <= pow2 1022)%Q ->
  calculation i = Ok c ->
  let D := loan_amt_current i in
  let rate := SFdiv prec emax (pf_percentage i) (Z2SF 100) in
  pf_amount c = fmul rate D
  /\ amt_in_bank c = fsub D (pf_amount c)
  /\ fl_of prec emax rate (F2Q (pf_percentage i) / 100)
  /\ fl_of prec emax (pf_amount c) (F2Q rate * F2Q D)
  /\ amount_ok (pf_amount c) = true
  /\ (F2Q (pf_amount c) <= F2Q D)%Q
  /\ amount_ok (amt_in_bank c) = true
  /\ (F2Q (amt_in_bank c) <= F2Q D)%Q
  /\ (Qabs (F2Q (pf_amount c) + F2Q (amt_in_bank c) - F2Q D)
      <= pow2 (-52) * F2Q D)%Q
  /\ amount_ok (fadd (pf_amount c) (amt_in_bank c)) = true
  /\ (Qabs (F2Q (fadd (pf_amount c) (amt_in_bank c)) - F2Q D)
      <= pow2 (-50) * F2Q D)%Q.
Proof.
  intros HD Hp H100 Hbig H D rate.
  destruct (calculation_interest i c H) as (_ & _ & Hfee & Hbank).
  fold D rate in Hfee. fold D in Hbank.
  destruct (rate_ok _ Hp) as (Hrate & Hrok & _ & Hr1).
  fold rate in Hrate, Hrok, Hr1. specialize (Hr1 H100). fold D in Hbig.
  pose proof (amount_ok_nonneg D HD) as HD0.
  pose proof (amount_ok_nonneg rate Hrok) as Hr0.
  pose proof (fmul_spec rate D Hrok HD) as Hf. rewrite <- Hfee in Hf.
  destruct (fl_of_le _ D _ Hf HD) as [Hfok Hfle]; [nra | ].
  pose proof (amount_ok_nonneg _ Hfok) as Hf0.
  destruct (fsub_spec D (pf_amount c) HD Hfok Hfle) as [Hb Hbrel].
  rewrite <- Hbank in Hb, Hbrel.
  destruct (fl_of_le _ D _ Hb HD) as [Hbok Hble]; [lra | ].
  pose proof (amount_ok_nonneg _ Hbok) as Hb0.
  assert (Hsum : (Qabs (F2Q (pf_amount c) + F2Q (amt_in_bank c) - F2Q D)
                  <= pow2 (-52) * F2Q D)%Q).
  { destruct Hbrel as [Hinf | [_ Hrel]].
    - rewrite Hinf in Hbok. discriminate.
    - rewrite unit_roundoff in Hrel. pose proof (pow2_pos (-52)).
      apply Qabs_Qle_condition in Hrel. apply Qabs_Qle_condition.
      split; nra. }
  destruct (fadd_spec _ _ Hfok Hbok) as [Hs Hsrel].
  destruct (fl_of_le _ _ _ Hs amount_ok_2_1023) as [Hsok _].
  { rewrite F2Q_2_1023. lra. }
  repeat match goal with |- _ /\ _ => split end; try assumption.
  destruct Hsrel as [Hinf | [_ Hrel]].
  - rewrite Hinf in Hsok. discriminate.
  - rewrite unit_roundoff in Hrel. pose proof (pow2_pos (-52)).
    pose proof unit_small. rewrite <- four_units.
    apply Qabs_Qle_condition in Hrel. apply Qabs_Qle_condition in Hsum.
    apply Qabs_Qle_condition. split; nra.
Qed.

Lemma fee_and_bank_amount_witness :
  exists c, calculation defaults = Ok c
            /\ (F2Q (pf_amount c) <= F2Q (loan_amt_current defaults))%Q.
Proof.
  destruct (calculation defaults) as [c | e] eqn:E;
    [ | vm_compute in E; discriminate].
  exists c. split; [reflexivity | ].
  assert (H100 : (F2Q (pf_percentage defaults) <= 100)%Q)
    by (vm_compute; discriminate).
  assert (Hbig : (F2Q (loan_amt_current defaults) <= pow2 1022)%Q)
    by (vm_compute; discriminate).
  pose proof (fee_and_bank_amount defaults c eq_refl eq_refl H100 Hbig E) as F.
  cbv zeta in F. destruct F as (_ & _ & _ & _ & _ & Hle & _). exact Hle.
Defined.

(** C10, as the code has it.  The repayment amount is the binary64 sum
    of the disbursement and the very interest term reported as the
    current-month interest; when that sum is finite, taking the
    disbursement off again gives the interest back up to rounding, within
    [2^-50 * (D + interest)]. *)
Theorem repayment_minus_disbursement (i : inputs) (c : calc) :
  amount_ok (loan_amt_current i) = true ->
  amount_ok (roi_per_day i) = true ->
  0 <= avg_tenure i ->
  calculation i = Ok c ->
  is_finite (repayment_amt c) = true ->
  let D := loan_amt_current i in
  repayment_amt c = fadd D (interest_current c)
  /\ amount_ok (interest_current c) = true
  /\ amount_ok (fsub (repayment_amt c) D) = true
  /\ (Qabs (F2Q (fsub (repayment_amt c) D) - F2Q (interest_current c))
      <= pow2 (-50) * (F2Q D + F2Q (interest_current c)))%Q.
Proof.
  intros HD Hroi Ht H Hfin D.
  destruct (calculation_interest i c H) as (Hi & Hrep & _). fold D in Hi, Hrep.
  destruct (interest_cases _ _ _ _ HD Hroi Ht Hi) as [Hcases _].
  set (I := interest_current c) in *.
  assert (HIok : amount_ok I = true).
  { destruct Hcases as [E | [E | E]]; [ | | exact E]; exfalso;
      rewrite Hrep, E in Hfin.
    - rewrite fadd_nan in Hfin. discriminate.
    - rewrite (fadd_infinity D HD) in Hfin. discriminate. }
  pose proof (amount_ok_nonneg D HD) as HD0.
  pose proof (amount_ok_nonneg I HIok) as HI0.
  destruct (fadd_spec D I HD HIok) as [Hr Hrrel]. rewrite <- Hrep in Hr, Hrrel.
  assert (Hrok : amount_ok (repayment_amt c) = true).
  { destruct (fl_of_cases _ _ Hr) as [E | E]; [ | exact E].
    rewrite E in Hfin. discriminate. }
  assert (Hge : (F2Q D <= F2Q (repayment_amt c))%Q).
  { destruct (fl_of_ge _ D _ Hr HD) as [E | [_ E]]; [lra | | exact E].
    rewrite E in Hfin. discriminate. }
  destruct (fsub_spec _ D Hrok HD Hge) as [Hd Hdrel].
  destruct (fl_of_le _ (repayment_amt c) _ Hd Hrok) as [Hdok _]; [lra | ].
  split; [exact Hrep | ]. split; [exact HIok | ]. split; [exact Hdok | ].
  destruct Hrrel as [E | [_ R1]]; [rewrite E in Hfin; discriminate | ].
  destruct Hdrel as [E | [_ R2]]; [rewrite E in Hdok; discriminate | ].
  rewrite unit_roundoff in R1, R2. pose proof (pow2_pos (-52)).
  pose proof unit_small. rewrite <- four_units.
  apply Qabs_Qle_condition in R1. apply Qabs_Qle_condition in R2.
  apply Qabs_Qle_condition. split; nra.
Qed.

Lemma repayment_minus_disbursement_witness :
  exists c, calculation defaults = Ok c
            /\ repayment_amt c
               = fadd (loan_amt_current defaults) (interest_current c).
Proof.
  destruct (calculation defaults) as [c | e] eqn:E;
    [ | vm_compute in E; discriminate].
  exists c. split; [reflexivity | ].
  assert (Ht : 0 <= avg_tenure defaults) by (vm_compute; discriminate).
  assert (Hfin : is_finite (repayment_amt c) = true).
  { vm_compute in E. injection E as <-. reflexivity. }
  pose proof (repayment_minus_disbursement defaults c eq_refl eq_refl Ht E Hfin)
    as F.
  cbv zeta in F. destruct F as (Hrep & _). exact Hrep.
Defined.

(** * Inputs at which the identities of exact arithmetic fail *)


(** A positive interest can also be lost in the rounding of the sum:
    a rate of 1e-17 percent on 10,000,000 over 25 days. *)
Lemma equal_repayment_with_positive_interest :
  exists c,
    calculation (scenario (Z2SF 10000000) (literal 118 10)
                   (literal 1 100000000000000000) 25) = Ok c
    /\ (0 < F2Q (interest_current c))%Q
    /\ repayment_amt c = Z2SF 10000000.
Proof.
  eexists. split; [vm_compute; reflexivity | ].
  split; vm_compute; reflexivity.
Qed.

(** A disbursement of [2^53 - 1] with a fee of 40 percent: fee and bank
    amount do not add up to the disbursement, neither as numbers nor in
    binary64. *)
Lemma fee_plus_bank_differs :
  exists c,
    calculation (scenario (Z2SF 9007199254740991) (Z2SF 40) (Z2SF 1) 25) = Ok c
    /\ amount_ok (Z2SF 9007199254740991) = true
    /\ (F2Q (Z2SF 40) <= 100)%Q
    /\ ~ (F2Q (pf_amount c) + F2Q (amt_in_bank c)
          == F2Q (Z2SF 9007199254740991))%Q
    /\ SFeqb (fadd (pf_amount c) (amt_in_bank c)) (Z2SF 9007199254740991)
       = false.
Proof.
  eexists. split; [vm_compute; reflexivity | ].
  split; [reflexivity | ]. split; [vm_compute; discriminate | ].
  split; [vm_compute; discriminate | vm_compute; reflexivity].
Qed.

(** 10,000,000 at 7 percent a day over 7 days: the repayment less the
    disbursement is not the interest, neither as numbers nor in
    binary64. *)
Lemma repayment_less_disbursement_differs :
  exists c,
    calculation (scenario (Z2SF 10000000) (literal 118 10) (Z2SF 7) 7) = Ok c
    /\ ~ (F2Q (repayment_amt c) - F2Q (Z2SF 10000000)
          == F2Q (interest_current c))%Q
    /\ SFeqb (fsub (repayment_amt c) (Z2SF 10000000)) (interest_current c)
       = false.
Proof.
  eexists. split; [vm_compute; reflexivity | ].
  split; [vm_compute; discriminate | vm_compute; reflexivity].
Qed.

(** * Rounding to nearest, ties to even *)

Section Nearest.

Variables prec emax : Z.
Hypothesis prec_pos : 0 < prec.

Lemma pow2_double (e : Z) : (pow2 e == 2 * pow2 (e - 1))%Q.
Proof.
  replace e with (1 + (e - 1)) at 1 by lia. rewrite pow2_add.
  reflexivity.
Qed.

Lemma inject_Z_double (m c : Z) :
  (inject_Z (2 * m + c) == 2 * inject_Z m + inject_Z c)%Q.
Proof. rewrite inject_Z_plus, inject_Z_mult. reflexivity. Qed.

Lemma shr_1_shape (m : Z) (r s : bool) :
  0 <= m ->
  exists m' b,
    shr_1 (Build_shr_record m r s) = Build_shr_record m' b (r || s)
    /\ m = 2 * m' + (if b then 1 else 0)
    /\ 0 <= m'.
Proof.
  intros Hm. destruct m as [ | [p | p | ] | p]; try lia; simpl.
  - exists 0, false. repeat split; lia.
  - exists (Zpos p), true. repeat split; lia.
  - exists (Zpos p), false. repeat split; lia.
  - exists 0, true. repeat split; lia.
Qed.

(** Dropping one bit keeps track of where [x] lies. *)
Lemma shr_1_located (mrs : shr_record) (e : Z) (x : Q) :
  0 <= shr_m mrs ->
  located (shr_m mrs) e (shr_r mrs) (shr_s mrs) x ->
  located (shr_m (shr_1 mrs)) (e + 1)
    (shr_r (shr_1 mrs)) (shr_s (shr_1 mrs)) x
  /\ 0 <= shr_m (shr_1 mrs).
Proof.
  destruct mrs as [m r s]. cbn [shr_m shr_r shr_s]. intros Hm Hl.
  destruct (shr_1_shape m r s Hm) as (m' & b & -> & Em & Hm').
  cbn [shr_m shr_r shr_s]. split; [ | exact Hm'].
  pose proof (pow2_pos (e - 1)) as Hh.
  unfold located in *. replace (e + 1 - 1) with e by lia.
  pose proof (pow2_double e) as Hd.
  assert (E0 : (inject_Z (2 * m) == 2 * inject_Z m)%Q)
    by (rewrite inject_Z_mult; reflexivity).
  assert (E1 : (inject_Z (2 * m + 1) == 2 * inject_Z m + 1)%Q)
    by (rewrite inject_Z_double; reflexivity).
  assert (E2 : (inject_Z (2 * m + 2) == 2 * inject_Z m + 2)%Q)
    by (rewrite inject_Z_double; reflexivity).
  assert (F0 : (inject_Z (2 * m') == 2 * inject_Z m')%Q)
    by (rewrite inject_Z_mult; reflexivity).
  assert (F1 : (inject_Z (2 * m' + 1) == 2 * inject_Z m' + 1)%Q)
    by (rewrite inject_Z_double; reflexivity).
  assert (F2 : (inject_Z (2 * m' + 2) == 2 * inject_Z m' + 2)%Q)
    by (rewrite inject_Z_double; reflexivity).
  assert (Em' : (inject_Z m == 2 * inject_Z m' + (if b then 1 else 0))%Q).
  { rewrite Em. rewrite inject_Z_double. destruct b; reflexivity. }
  destruct b, r, s; cbn [orb] in *;
    rewrite ?E0, ?E1, ?E2 in Hl; rewrite ?F0, ?F1, ?F2, Hd;
    set (h := pow2 (e - 1)) in *; set (q := inject_Z m) in *;
    set (q' := inject_Z m') in *; clearbody h q q';
    try split; nra.
Qed.

Lemma iter_shr_1_located (p : positive) :
  forall (mrs : shr_record) (e : Z) (x : Q),
    0 <= shr_m mrs ->
    located (shr_m mrs) e (shr_r mrs) (shr_s mrs) x ->
    located (shr_m (iter_pos shr_1 p mrs)) (e + Zpos p)
      (shr_r (iter_pos shr_1 p mrs)) (shr_s (iter_pos shr_1 p mrs)) x
    /\ 0 <= shr_m (iter_pos shr_1 p mrs).
Proof.
  induction p as [p IH | p IH | ]; intros mrs e x Hm Hl; simpl iter_pos.
  - destruct (shr_1_located mrs e x Hm Hl) as [H1 P1].
    destruct (IH _ _ _ P1 H1) as [H2 P2].
    destruct (IH _ _ _ P2 H2) as [H3 P3].
    replace (e + Zpos p~1) with (e + 1 + Zpos p + Zpos p) by lia.
    split; assumption.
  - destruct (IH _ _ _ Hm Hl) as [H2 P2].
    destruct (IH _ _ _ P2 H2) as [H3 P3].
    replace (e + Zpos p~0) with (e + Zpos p + Zpos p) by lia.
    split; assumption.
  - apply shr_1_located; assumption.
Qed.

Lemma shr_fexp_located (m e : Z) (l : location) (x : Q) :
  0 <= m -> located_loc m e l x ->
  exists mrs,
    shr_fexp prec emax m e l = (mrs, e + drop prec emax m e)
    /\ located (shr_m mrs) (e + drop prec emax m e) (shr_r mrs) (shr_s mrs) x
    /\ shr_m mrs = m / 2 ^ drop prec emax m e.
Proof.
  intros Hm Hl.
  destruct (shr_fexp_spec prec emax m e l Hm) as (mrs & E & Hdiv & _).
  exists mrs. split; [exact E | ]. split; [ | exact Hdiv].
  unfold shr_fexp, shr in E. unfold drop in *.
  unfold located_loc in Hl.
  destruct (fexp prec emax (Zdigits2 m + e) - e) as [ | p | p] eqn:Ek.
  - apply (f_equal fst) in E; cbn [fst] in E; subst mrs. simpl Z.max. rewrite Z.add_0_r.
    rewrite shr_record_of_loc_m. exact Hl.
  - apply (f_equal fst) in E; cbn [fst] in E; subst mrs. replace (Z.max 0 (Zpos p)) with (Zpos p) by lia.
    apply iter_shr_1_located.
    + rewrite shr_record_of_loc_m. exact Hm.
    + rewrite shr_record_of_loc_m. exact Hl.
  - apply (f_equal fst) in E; cbn [fst] in E; subst mrs. replace (Z.max 0 (Zneg p)) with 0 by lia.
    rewrite Z.add_0_r. rewrite shr_record_of_loc_m. exact Hl.
Qed.

Lemma round_nearest_even_nearest (mrs : shr_record) (e : Z) (x : Q) :
  located (shr_m mrs) e (shr_r mrs) (shr_s mrs) x ->
  nearest (round_nearest_even (shr_m mrs) (loc_of_shr_record mrs)) e x.
Proof.
  destruct mrs as [m r s]. cbn [shr_m shr_r shr_s]. unfold located, nearest.
  pose proof (pow2_pos (e - 1)) as Hh.
  assert (L : forall a c : Z,
             (inject_Z (2 * a + c) == 2 * inject_Z a + inject_Z c)%Q)
    by (intros; apply inject_Z_double).
  assert (L0 : forall a : Z, (inject_Z (2 * a) == 2 * inject_Z a)%Q)
    by (intros; rewrite inject_Z_mult; reflexivity).
  assert (Lm : forall a : Z, (inject_Z (2 * a - 1) == 2 * inject_Z a - 1)%Q).
  { intros. unfold Z.sub. rewrite inject_Z_double. reflexivity. }
  assert (Ls : (inject_Z (m + 1) == inject_Z m + 1)%Q)
    by (rewrite inject_Z_plus; reflexivity).
  destruct r, s; simpl loc_of_shr_record; simpl round_nearest_even.
  - (* upper half: up *)
    intros [H1 H2]. rewrite L in H1, H2. rewrite Lm, L, Ls.
    change (inject_Z 1) with 1%Q in *. change (inject_Z 2) with 2%Q in *.
    repeat split; try nra; intros E; exfalso; nra.
  - (* the middle: to even *)
    intros H. rewrite L in H. change (inject_Z 1) with 1%Q in *.
    destruct (Z.even m) eqn:Ev.
    + rewrite Lm, L. change (inject_Z 1) with 1%Q.
      repeat split; try nra; intros E; try assumption; exfalso; nra.
    + rewrite Lm, L, Ls. change (inject_Z 1) with 1%Q.
      assert (Ev' : Z.even (m + 1) = true).
      { rewrite Z.even_add, Ev. reflexivity. }
      repeat split; try nra; intros E; try assumption; exfalso; nra.
  - (* lower half: down *)
    intros [H1 H2]. rewrite L0 in H1. rewrite L in H2. rewrite Lm, L.
    change (inject_Z 1) with 1%Q in *.
    repeat split; try nra; intros E; exfalso; nra.
  - (* exact *)
    intros H. rewrite L0 in H. rewrite Lm, L. change (inject_Z 1) with 1%Q.
    repeat split; try nra; intros E; exfalso; nra.
Qed.


(** [binary_round_aux] once more, now with the rounded mantissa known
    to be a nearest one. *)
Lemma binary_round_aux_near (s : bool) (mx ex : Z) (lx : location) (x : Q) :
  0 <= mx -> located_loc mx ex lx x ->
  exists m,
    binary_round_aux prec emax s mx ex lx
    = finish prec emax s m (ex + drop prec emax mx ex)
    /\ nearest m (ex + drop prec emax mx ex) x
    /\ 0 <= m <= 2 ^ prec.
Proof.
  intros Hmx Hx. unfold binary_round_aux.
  destruct (shr_fexp_located mx ex lx x Hmx Hx) as (mrs & -> & Hloc & Hm1).
  set (k := drop prec emax mx ex) in *. set (e1 := ex + k) in *.
  set (m2 := round_nearest_even (shr_m mrs) (loc_of_shr_record mrs)).
  pose proof (round_nearest_even_nearest mrs e1 x Hloc) as Hnear.
  fold m2 in Hnear.
  assert (Hk : 0 <= k) by (unfold k, drop; lia).
  assert (Hpk : 0 < 2 ^ k) by (apply Z.pow_pos_nonneg; lia).
  assert (Hm1pos : 0 <= shr_m mrs) by (rewrite Hm1; apply Z.div_pos; lia).
  destruct (round_nearest_even_bounds (shr_m mrs) (loc_of_shr_record mrs))
    as [Hb _]. fold m2 in Hb.
  assert (He1 : emin prec emax <= e1
                /\ (0 < mx -> Zdigits2 mx + ex - prec <= e1)).
  { unfold e1, k, drop, fexp. lia. }
  assert (Hm1lt : shr_m mrs < 2 ^ prec).
  { rewrite Hm1. destruct (Z.eq_dec mx 0) as [-> | Hne].
    - rewrite Z.div_0_l by lia. apply Z.pow_pos_nonneg; lia.
    - assert (Hmx' : 0 < mx) by lia.
      destruct (Zdigits2_bounds mx Hmx') as [_ Hu].
      apply Z.div_lt_upper_bound; [assumption | ].
      rewrite <- Z.pow_add_r by lia.
      eapply Z.lt_le_trans; [exact Hu | ].
      apply Z.pow_le_mono_r; [lia | ].
      destruct He1 as [_ He1]. specialize (He1 Hmx'). unfold e1 in He1. lia. }
  exists m2. split; [ | split; [exact Hnear | lia]].
  destruct (shr_fexp_spec prec emax m2 e1 loc_Exact ltac:(lia))
    as (mrs2 & -> & Hm3 & _).
  rewrite Hm3. unfold finish.
  destruct (Z.eqb_spec m2 0) as [E0 | Hm2].
  { rewrite E0, Z.div_0_l; [reflexivity | ].
    apply Z.pow_nonzero; [lia | unfold drop; lia]. }
  assert (Hm2pos : 0 < m2) by lia.
  destruct (Z.eqb_spec m2 (2 ^ prec)) as [Hc | Hc].
  - assert (Hd : Zdigits2 m2 = prec + 1).
    { apply Zdigits2_unique; [ | assumption].
      rewrite Hc. replace (prec + 1 - 1) with prec by lia.
      split; [lia | ]. apply Z.pow_lt_mono_r; lia. }
    assert (Hk2 : drop prec emax m2 e1 = 1).
    { unfold drop, fexp. rewrite Hd. lia. }
    rewrite Hk2, Hc. change (2 ^ 1) with 2.
    replace (2 ^ prec) with (2 ^ (prec - 1) * 2).
    2:{ replace prec with (prec - 1 + 1) at 2 by lia.
        rewrite Z.pow_add_r by lia. reflexivity. }
    rewrite Z.div_mul by lia.
    assert (0 < 2 ^ (prec - 1)) by (apply Z.pow_pos_nonneg; lia).
    destruct (2 ^ (prec - 1)) as [ | q | q] eqn:Eq; try lia.
    reflexivity.
  - assert (Hd : Zdigits2 m2 <= prec).
    { destruct (Z_lt_le_dec prec (Zdigits2 m2)) as [Hlt | ]; [ | assumption].
      destruct (Zdigits2_bounds m2 Hm2pos) as [Hl _].
      assert (2 ^ prec <= 2 ^ (Zdigits2 m2 - 1))
        by (apply Z.pow_le_mono_r; lia).
      lia. }
    rewrite (drop_small prec emax m2 e1) by lia.
    rewrite Z.add_0_r, Z.pow_0_r, Z.div_1_r.
    destruct m2 as [ | q | q]; try lia. reflexivity.
Qed.

(** A location bounds [x] between two consecutive multiples. *)
Lemma located_loc_bounds (m e : Z) (l : location) (x : Q) :
  located_loc m e l x ->
  (inject_Z m * pow2 e <= x)%Q /\ (x < inject_Z (m + 1) * pow2 e)%Q.
Proof.
  unfold located_loc, located. pose proof (pow2_pos (e - 1)) as Hh.
  rewrite (pow2_double e).
  assert (E0 : (inject_Z (2 * m) == 2 * inject_Z m)%Q)
    by (rewrite inject_Z_mult; reflexivity).
  assert (E1 : (inject_Z (2 * m + 1) == 2 * inject_Z m + 1)%Q)
    by (rewrite inject_Z_double; reflexivity).
  assert (E2 : (inject_Z (2 * m + 2) == 2 * inject_Z m + 2)%Q)
    by (rewrite inject_Z_double; reflexivity).
  assert (Es : (inject_Z (m + 1) == inject_Z m + 1)%Q)
    by (rewrite inject_Z_plus; reflexivity).
  rewrite Es.
  destruct l as [ | [ | | ]]; cbn [shr_record_of_loc shr_r shr_s];
    rewrite ?E0, ?E1, ?E2; intros H; split; nra.
Qed.

Lemma located_loc_exact (m e : Z) (x : Q) :
  (x == inject_Z m * pow2 e)%Q -> located_loc m e loc_Exact x.
Proof.
  intros H. unfold located_loc, located. cbn [shr_record_of_loc shr_r shr_s].
  rewrite H, (pow2_double e), inject_Z_mult. ring.
Qed.

Lemma binary_round_aux_rounds_nearest (mx ex : Z) (lx : location) (x : Q) :
  0 <= mx -> located_loc mx ex lx x ->
  ex <= fexp prec emax (Zdigits2 mx + ex) ->
  exists m,
    rounds_nearest prec emax (binary_round_aux prec emax false mx ex lx) m
      (fexp prec emax (Zdigits2 mx + ex)) x.
Proof.
  intros Hmx Hloc Hex.
  destruct (binary_round_aux_near false mx ex lx x Hmx Hloc)
    as (m & Hr & Hn & Hb).
  rewrite (drop_exponent prec emax mx ex Hex) in Hr, Hn.
  set (e := fexp prec emax (Zdigits2 mx + ex)) in *.
  destruct (located_loc_bounds mx ex lx x Hloc) as [Hlow Hup].
  assert (Hq : (0 <= inject_Z mx)%Q) by (rewrite <- (Zle_Qle 0); lia).
  pose proof (pow2_pos ex) as Pex.
  exists m. split; [exact Hr | ]. split; [exact Hn | ].
  split; [nra | ]. split; [apply fexp_ge_emin | ]. split.
  - intros He.
    assert (Hpos : 0 < mx).
    { destruct (Z.eq_dec mx 0) as [-> | ]; [ | lia].
      exfalso. unfold e, fexp in He, Hex. simpl Zdigits2 in He, Hex. lia. }
    destruct (Zdigits2_bounds mx Hpos) as [Hl _].
    pose proof (Zdigits2_pos mx Hpos).
    assert (Hee : prec - 1 + e = Zdigits2 mx - 1 + ex)
      by (unfold e, fexp in *; lia).
    rewrite Hee, pow2_add, (pow2_Z (Zdigits2 mx - 1)) by lia.
    eapply Qle_trans; [ | exact Hlow].
    apply Qmult_le_compat_r; [ | apply Qlt_le_weak, pow2_pos].
    rewrite <- Zle_Qle. assumption.
  - eapply Qlt_le_trans; [exact Hup | ].
    assert (Hd : mx + 1 <= 2 ^ Zdigits2 mx).
    { destruct (Z.eq_dec mx 0) as [-> | ]; [simpl; lia | ].
      destruct (Zdigits2_bounds mx ltac:(lia)) as [_ Hu]. lia. }
    assert (Hd0 : 0 <= Zdigits2 mx) by (destruct mx; simpl; lia).
    eapply Qle_trans.
    + apply Qmult_le_compat_r; [ | apply Qlt_le_weak, pow2_pos].
      rewrite <- Zle_Qle. exact Hd.
    + rewrite <- pow2_Z, <- pow2_add by assumption.
      apply pow2_le. unfold e, fexp. lia.
Qed.


Hypothesis prec_lt_emax : prec < emax.

Lemma nearest_mantissa_bounds (r : spec_float) (m e : Z) (x : Q) :
  rounds_nearest prec emax r m e x ->
  0 <= m <= 2 ^ prec
  /\ (emin prec emax < e -> 2 ^ (prec - 1) <= m).
Proof.
  intros (_ & (N1 & N2 & _) & Hx0 & He & Hnorm & Hup).
  pose proof (pow2_pos (e - 1)) as Hh.
  assert (P1 : (pow2 (prec + e) == inject_Z (2 ^ (prec + 1)) * pow2 (e - 1))%Q).
  { rewrite <- pow2_Z, <- pow2_add by lia.
    replace (prec + 1 + (e - 1)) with (prec + e) by lia. reflexivity. }
  assert (P2 : (pow2 (prec - 1 + e) == inject_Z (2 ^ prec) * pow2 (e - 1))%Q).
  { rewrite <- pow2_Z, <- pow2_add by lia.
    replace (prec + (e - 1)) with (prec - 1 + e) by lia. reflexivity. }
  assert (H2 : 2 ^ (prec + 1) = 2 * 2 ^ prec).
  { rewrite Z.pow_add_r by lia. change (2 ^ 1) with 2. ring. }
  assert (H3 : 2 ^ prec = 2 * 2 ^ (prec - 1)).
  { replace prec with (1 + (prec - 1)) at 1 by lia.
    rewrite Z.pow_add_r by lia. reflexivity. }
  assert (Hlt : forall a b : Z,
             (inject_Z a * pow2 (e - 1) < inject_Z b * pow2 (e - 1))%Q -> a < b).
  { intros a b Hab. rewrite Zlt_Qlt. nra. }
  assert (Hle : forall a b : Z,
             (inject_Z a * pow2 (e - 1) <= inject_Z b * pow2 (e - 1))%Q -> a <= b).
  { intros a b Hab. rewrite Zle_Qle. nra. }
  split; [split | ].
  - assert (-1 < 2 * m + 1); [ | lia].
    apply Hlt. change (inject_Z (-1)) with (-1)%Q. lra.
  - assert (2 * m - 1 < 2 ^ (prec + 1)); [ | lia].
    apply Hlt. rewrite <- P1. lra.
  - intros Hn. specialize (Hnorm Hn). rewrite P2 in Hnorm.
    assert (2 ^ prec <= 2 * m + 1); [ | lia].
    apply Hle. lra.
Qed.

Lemma rounds_nearest_mono (r r' : spec_float) (m e m' e' : Z) (x x' : Q) :
  rounds_nearest prec emax r m e x ->
  rounds_nearest prec emax r' m' e' x' ->
  (x <= x')%Q ->
  e <= e' /\ (inject_Z m * pow2 e <= inject_Z m' * pow2 e')%Q.
Proof.
  intros H H' Hxx.
  destruct (nearest_mantissa_bounds _ _ _ _ H) as [Hb _].
  destruct (nearest_mantissa_bounds _ _ _ _ H') as [Hb' Hn'].
  destruct H as (_ & (N1 & N2 & T1 & T2) & Hx0 & He & Hnorm & Hup).
  destruct H' as (_ & (N1' & N2' & T1' & T2') & Hx0' & He' & Hnorm' & Hup').
  assert (Hee : e <= e').
  { destruct (Z_le_gt_dec e e') as [ | Hgt]; [assumption | exfalso].
    specialize (Hnorm ltac:(lia)).
    assert ((pow2 (prec + e') <= pow2 (prec - 1 + e))%Q)
      by (apply pow2_le; lia).
    lra. }
  split; [exact Hee | ].
  destruct (Z.eq_dec e e') as [<- | Hne].
  - apply Qmult_le_compat_r; [ | apply Qlt_le_weak, pow2_pos].
    rewrite <- Zle_Qle.
    destruct (Z_le_gt_dec m m') as [ | Hgt]; [assumption | exfalso].
    pose proof (pow2_pos (e - 1)) as Hh.
    assert (Hle : forall a b : Z,
               (inject_Z a * pow2 (e - 1) <= inject_Z b * pow2 (e - 1))%Q ->
               a <= b).
    { intros a b Hab. rewrite Zle_Qle. nra. }
    assert (Hmm : 2 * m - 1 <= 2 * m' + 1) by (apply Hle; lra).
    assert (Em : m = m' + 1) by lia.
    assert (Eq1 : 2 * m' + 1 = 2 * m - 1) by lia.
    rewrite Eq1 in N2', T2'.
    assert (Ev : Z.even m = true) by (apply T1; lra).
    assert (Ev' : Z.even m' = true) by (apply T2'; lra).
    rewrite Em, Z.even_add, Ev' in Ev. discriminate.
  - specialize (Hn' ltac:(lia)).
    assert (A : (inject_Z m * pow2 e <= inject_Z (2 ^ prec) * pow2 e)%Q).
    { apply Qmult_le_compat_r; [ | apply Qlt_le_weak, pow2_pos].
      rewrite <- Zle_Qle. lia. }
    assert (B : (inject_Z (2 ^ prec) * pow2 e
                 <= inject_Z (2 ^ (prec - 1)) * pow2 e')%Q).
    { rewrite <- !pow2_Z by lia. rewrite <- !pow2_add. apply pow2_le. lia. }
    assert (C : (inject_Z (2 ^ (prec - 1)) * pow2 e' <= inject_Z m' * pow2 e')%Q).
    { apply Qmult_le_compat_r; [ | apply Qlt_le_weak, pow2_pos].
      rewrite <- Zle_Qle. assumption. }
    lra.
Qed.

Lemma finish_mono (m e m' e' : Z) :
  0 <= m <= 2 ^ prec -> 0 <= m' <= 2 ^ prec ->
  e <= e' ->
  (inject_Z m * pow2 e <= inject_Z m' * pow2 e')%Q ->
  ext_le (finish prec emax false m e) (finish prec emax false m' e').
Proof.
  intros Hm Hm' Hee Hv. unfold ext_le.
  destruct (finish_cases prec emax prec_pos false m' e' ltac:(lia))
    as [Hinf' | [Hf' Hval']]; [left; assumption | right].
  assert (Hfin : finish prec emax false m e <> S754_infinity false).
  { intros Hinf. unfold finish in Hinf, Hf'.
    pose proof (pow2_pos e) as Pe. pose proof (pow2_pos e') as Pe'.
    destruct (Z.eqb_spec m 0) as [ | Hm0]; [discriminate | ].
    assert (Hm'0 : m' <> 0).
    { intros ->. change (inject_Z 0) with 0%Q in Hv.
      assert ((0 < inject_Z m)%Q) by (rewrite <- (Zlt_Qlt 0); lia). nra. }
    destruct (Z.eqb_spec m' 0) as [ | _]; [contradiction | ].
    destruct (Z.eqb_spec m (2 ^ prec)) as [Hc | Hc];
      destruct (Z.eqb_spec m' (2 ^ prec)) as [Hc' | Hc'].
    - destruct (Z.leb_spec (e + 1) (emax - prec)); [discriminate | ].
      destruct (Z.leb_spec (e' + 1) (emax - prec)); [lia | discriminate].
    - destruct (Z.leb_spec (e + 1) (emax - prec)); [discriminate | ].
      destruct (Z.leb_spec e' (emax - prec)); [ | discriminate].
      assert (e' = e) by lia. subst e'.
      assert ((inject_Z m <= inject_Z m')%Q) by nra.
      rewrite <- Zle_Qle in *. lia.
    - destruct (Z.leb_spec e (emax - prec)); [discriminate | ].
      destruct (Z.leb_spec (e' + 1) (emax - prec)); [lia | discriminate].
    - destruct (Z.leb_spec e (emax - prec)); [discriminate | ].
      destruct (Z.leb_spec e' (emax - prec)); [lia | discriminate]. }
  destruct (finish_cases prec emax prec_pos false m e ltac:(lia))
    as [Hinf | [Hf Hval]]; [contradiction | ].
  split; [assumption | ]. split; [assumption | ].
  rewrite Hval, Hval'. exact Hv.
Qed.

(** Rounding to nearest is monotone. *)
Lemma fl_near_mono (r r' : spec_float) (x x' : Q) :
  fl_near prec emax r x -> fl_near prec emax r' x' -> (x <= x')%Q ->
  ext_le r r'.
Proof.
  intros (m & e & H) (m' & e' & H') Hxx.
  destruct (rounds_nearest_mono _ _ _ _ _ _ _ _ H H' Hxx) as [Hee Hv].
  destruct (nearest_mantissa_bounds _ _ _ _ H) as [Hb _].
  destruct (nearest_mantissa_bounds _ _ _ _ H') as [Hb' _].
  destruct H as (-> & _). destruct H' as (-> & _).
  apply finish_mono; assumption.
Qed.

Lemma nearest_ext (m e : Z) (x y : Q) :
  (x == y)%Q -> nearest m e x -> nearest m e y.
Proof. unfold nearest. intros E H. rewrite <- E. exact H. Qed.

Lemma fl_near_ext (r : spec_float) (x y : Q) :
  (x == y)%Q -> fl_near prec emax r x -> fl_near prec emax r y.
Proof.
  intros E (m & e & Hr & Hn & H0 & He & Hnorm & Hup).
  exists m, e. split; [exact Hr | ].
  split; [apply (nearest_ext _ _ _ _ E Hn) | ].
  rewrite <- E. repeat split; assumption.
Qed.

Lemma nearest_exact (m e : Z) : nearest m e (inject_Z m * pow2 e).
Proof.
  unfold nearest. pose proof (pow2_pos (e - 1)) as Hh.
  rewrite (pow2_double e).
  assert (E1 : (inject_Z (2 * m + 1) == 2 * inject_Z m + 1)%Q)
    by (rewrite inject_Z_double; reflexivity).
  assert (E2 : (inject_Z (2 * m - 1) == 2 * inject_Z m - 1)%Q).
  { unfold Z.sub. rewrite inject_Z_double. reflexivity. }
  rewrite E1, E2. repeat split; try nra; intros E; exfalso; nra.
Qed.

(** A float of the format is its own rounding. *)
Lemma good_fl_near (x : spec_float) :
  good prec emax x = true -> fl_near prec emax x (F2Q x).
Proof.
  intros H. destruct (good_inv prec emax x H) as [-> | (m & e & -> & Hb)].
  - exists 0, (emin prec emax). unfold rounds_nearest. simpl F2Q.
    split; [reflexivity | ].
    split; [apply (nearest_ext _ _ (inject_Z 0 * pow2 (emin prec emax)));
            [simpl; ring | apply nearest_exact] | ].
    repeat split; try lra; try lia. apply pow2_pos.
  - destruct (bounded_facts prec emax m e Hb)
      as (_ & Hmax & Hmin & _ & Hlt & Hnorm).
    exists (Zpos m), e. unfold rounds_nearest. simpl F2Q.
    split.
    { unfold finish.
      destruct (Z.eqb_spec (Zpos m) 0) as [Hc | _]; [lia | ].
      destruct (Z.eqb_spec (Zpos m) (2 ^ prec)) as [Hc | _]; [lia | ].
      destruct (Z.leb_spec e (emax - prec)); [reflexivity | lia]. }
    split; [apply nearest_exact | ].
    pose proof (pow2_pos e) as Pe.
    assert (Hq : (0 < inject_Z (Zpos m))%Q) by (rewrite <- (Zlt_Qlt 0); lia).
    split; [nra | ]. split; [exact Hmin | ]. split.
    + intros He. specialize (Hnorm He).
      rewrite pow2_add, (pow2_Z (prec - 1)) by lia.
      apply Qmult_le_compat_r; [ | lra]. rewrite <- Zle_Qle. exact Hnorm.
    + rewrite pow2_add, (pow2_Z prec) by lia.
      apply Qmult_lt_compat_r; [exact Pe | ]. rewrite <- Zlt_Qlt. exact Hlt.
Qed.


Lemma zero_fl_near (x : Q) :
  (x == 0)%Q -> fl_near prec emax (S754_zero false) x.
Proof.
  intros E. apply (fl_near_ext _ (F2Q (S754_zero false))).
  - simpl. symmetry. exact E.
  - apply good_fl_near. reflexivity.
Qed.

Lemma SFmul_near (x y : spec_float) :
  good prec emax x = true -> good prec emax y = true ->
  fl_near prec emax (SFmul prec emax x y) (F2Q x * F2Q y).
Proof.
  intros Hx Hy.
  destruct (good_inv prec emax x Hx) as [-> | (mx & ex & -> & Hbx)];
    destruct (good_inv prec emax y Hy) as [-> | (my & ey & -> & Hby)];
    try (apply zero_fl_near; simpl; ring).
  simpl SFmul.
  assert (Hloc : located_loc (Zpos (mx * my)) (ex + ey) loc_Exact
                   (F2Q (S754_finite false mx ex) * F2Q (S754_finite false my ey))).
  { apply located_loc_exact. simpl.
    rewrite Pos2Z.inj_mul, inject_Z_mult, pow2_add. ring. }
  destruct (binary_round_aux_rounds_nearest _ _ _ _ (Pos2Z.is_nonneg _) Hloc
              (mul_exponent prec emax prec_pos prec_lt_emax mx my ex ey Hbx Hby))
    as (m & Hr).
  eexists. eexists. exact Hr.
Qed.

Lemma new_location_cases (n k : Z) :
  0 < n -> 0 <= k < n ->
  match new_location n k with
  | loc_Exact => k = 0
  | loc_Inexact Lt => 0 < 2 * k < n
  | loc_Inexact Eq => 2 * k = n
  | loc_Inexact Gt => n < 2 * k
  end.
Proof.
  intros Hn Hk. unfold new_location, new_location_even, new_location_odd.
  destruct (Z.even n) eqn:Ev.
  - destruct (Z.eqb_spec k 0) as [ | Hk0]; [assumption | ].
    destruct (Z.compare_spec (2 * k) n); lia.
  - destruct (Z.eqb_spec k 0) as [ | Hk0]; [assumption | ].
    assert (Hodd : 2 * k <> n).
    { intros <-. rewrite Z.even_mul in Ev. discriminate. }
    destruct (Z.compare_spec (2 * k + 1) n); lia.
Qed.

Lemma div_core_located (mx my : positive) (ex ey : Z) :
  exists q e l,
    SFdiv_core_binary prec emax (Zpos mx) ex (Zpos my) ey = (q, e, l)
    /\ 0 <= q
    /\ located_loc q e l
         (inject_Z (Zpos mx) * pow2 ex / (inject_Z (Zpos my) * pow2 ey))
    /\ e <= fexp prec emax (Zdigits2 q + e).
Proof.
  destruct (div_core_spec prec emax prec_pos mx my ex ey)
    as (q & e & l & E & Hq & _ & Hexp).
  exists q, e, l. split; [exact E | ]. split; [exact Hq | ].
  split; [ | exact Hexp].
  unfold SFdiv_core_binary in E.
  set (d1 := Zdigits2 (Zpos mx)) in *. set (d2 := Zdigits2 (Zpos my)) in *.
  set (e0 := Z.min (fexp prec emax (d1 + ex - (d2 + ey))) (ex - ey)) in *.
  set (s := ex - ey - e0) in *.
  assert (Hs : 0 <= s) by (unfold s, e0; lia).
  set (m' := match s with
             | 0 => Zpos mx
             | Zpos _ => Z.shiftl (Zpos mx) s
             | Zneg _ => 0
             end) in *.
  assert (Hm' : m' = Zpos mx * 2 ^ s).
  { unfold m'. destruct s as [ | p | p] eqn:Es; [simpl; lia | | lia].
    rewrite Z.shiftl_mul_pow2 by lia. reflexivity. }
  pose proof (Z.div_mod m' (Zpos my) ltac:(lia)) as Hdm.
  pose proof (Z.mod_pos_bound m' (Zpos my) ltac:(lia)) as Hmod.
  unfold Z.div, Z.modulo in Hdm, Hmod.
  destruct (Z.div_eucl m' (Zpos my)) as [q0 r]. cbn [fst snd] in Hdm, Hmod.
  injection E as <- <- <-.
  set (X := (inject_Z (Zpos mx) * pow2 ex / (inject_Z (Zpos my) * pow2 ey))%Q).
  assert (Hy : (0 < inject_Z (Zpos my))%Q) by (rewrite <- (Zlt_Qlt 0); lia).
  pose proof (pow2_pos ey) as Pey. pose proof (pow2_pos (e0 - 1)) as Ph.
  assert (HX : (X * inject_Z (Zpos my) == inject_Z m' * pow2 e0)%Q).
  { unfold X. rewrite Hm', <- scale_up by lia.
    replace (e0 + s) with (ex + - ey) by (unfold s; lia).
    rewrite pow2_add, pow2_opp.
    field. split; lra. }
  rewrite (pow2_double e0) in HX.
  assert (Hm'q : (inject_Z m' == inject_Z q0 * inject_Z (Zpos my) + inject_Z r)%Q).
  { rewrite Hdm, inject_Z_plus, inject_Z_mult. ring. }
  rewrite Hm'q in HX.
  pose proof (new_location_cases (Zpos my) r ltac:(lia) Hmod) as Hcase.
  unfold located_loc, located.
  assert (E0 : (inject_Z (2 * q0) == 2 * inject_Z q0)%Q)
    by (rewrite inject_Z_mult; reflexivity).
  assert (E1 : (inject_Z (2 * q0 + 1) == 2 * inject_Z q0 + 1)%Q)
    by (rewrite inject_Z_double; reflexivity).
  assert (E2 : (inject_Z (2 * q0 + 2) == 2 * inject_Z q0 + 2)%Q)
    by (rewrite inject_Z_double; reflexivity).
  assert (Hr0 : (0 <= inject_Z r)%Q) by (rewrite <- (Zle_Qle 0); lia).
  set (h := pow2 (e0 - 1)) in *. set (Y := inject_Z (Zpos my)) in *.
  set (Q0 := inject_Z q0) in *.
  destruct (new_location (Zpos my) r) as [ | [ | | ]];
    cbn [shr_record_of_loc shr_r shr_s]; rewrite ?E0, ?E1, ?E2.
  - subst r. change (inject_Z 0) with 0%Q in HX.
    apply (Qmult_inj_r _ _ Y); [lra | ]. rewrite HX. ring.
  - assert (Hr2 : (2 * inject_Z r == Y)%Q).
    { unfold Y. rewrite <- Hcase, inject_Z_mult. reflexivity. }
    apply (Qmult_inj_r _ _ Y); [lra | ]. rewrite HX.
    setoid_replace ((2 * Q0 + 1) * h * Y)%Q with ((2 * Q0 * Y + Y) * h)%Q by ring.
    rewrite <- Hr2. ring.
  - assert (Hr1 : (0 < 2 * inject_Z r)%Q /\ (2 * inject_Z r < Y)%Q).
    { unfold Y. change 2%Q with (inject_Z 2). rewrite <- inject_Z_mult.
      rewrite <- (Zlt_Qlt 0), <- Zlt_Qlt. lia. }
    split; apply (Qmult_lt_r _ _ Y); try assumption; rewrite HX; nra.
  - assert (Hr1 : (Y < 2 * inject_Z r)%Q /\ (inject_Z r < Y)%Q).
    { unfold Y. change 2%Q with (inject_Z 2). rewrite <- inject_Z_mult.
      rewrite <- !Zlt_Qlt. lia. }
    split; apply (Qmult_lt_r _ _ Y); try assumption; rewrite HX; nra.
Qed.

Lemma SFdiv_near (x y : spec_float) :
  good prec emax x = true -> good prec emax y = true -> (0 < F2Q y)%Q ->
  fl_near prec emax (SFdiv prec emax x y) (F2Q x / F2Q y).
Proof.
  intros Hx Hy Hpos.
  destruct (good_inv prec emax y Hy) as [-> | (my & ey & -> & Hby)];
    [simpl in Hpos; lra | ].
  destruct (good_inv prec emax x Hx) as [-> | (mx & ex & -> & Hbx)].
  - apply zero_fl_near. simpl F2Q at 1. unfold Qdiv. ring.
  - unfold SFdiv.
    destruct (div_core_located mx my ex ey) as (q & e & l & -> & Hq & Hloc & Hexp).
    destruct (binary_round_aux_rounds_nearest q e l _ Hq Hloc Hexp) as (m & Hr).
    eexists. eexists. exact Hr.
Qed.

Lemma binary_round_near (m : positive) (e : Z) :
  fl_near prec emax (binary_round prec emax false m e)
    (inject_Z (Zpos m) * pow2 e).
Proof.
  unfold binary_round.
  set (ef := fexp prec emax (Zpos (digits2_pos m) + e)).
  destruct (shl_align_spec m e ef) as [Hs Hf].
  destruct (shl_align m e ef) as [mz ez]. cbn [fst snd] in Hs, Hf. subst ez.
  set (ez := Z.min e ef) in *.
  assert (Hd : Zdigits2 (Zpos mz) + ez = Zpos (digits2_pos m) + e).
  { change (Zpos (digits2_pos m)) with (Zdigits2 (Zpos m)).
    rewrite Hf. rewrite Zdigits2_shift by lia. lia. }
  assert (Hx : (inject_Z (Zpos m) * pow2 e == inject_Z (Zpos mz) * pow2 ez)%Q).
  { rewrite Hf, <- scale_up by lia. replace (ez + (e - ez)) with e by lia.
    reflexivity. }
  assert (Hexp : ez <= fexp prec emax (Zdigits2 (Zpos mz) + ez)).
  { rewrite Hd. fold ef. lia. }
  destruct (binary_round_aux_rounds_nearest (Zpos mz) ez loc_Exact _
              (Pos2Z.is_nonneg _) (located_loc_exact _ _ _ Hx) Hexp) as (m' & Hr).
  eexists. eexists. exact Hr.
Qed.

Lemma SFadd_near (x y : spec_float) :
  good prec emax x = true -> good prec emax y = true ->
  fl_near prec emax (SFadd prec emax x y) (F2Q x + F2Q y).
Proof.
  intros Hx Hy.
  destruct (good_inv prec emax x Hx) as [-> | (mx & ex & -> & Hbx)];
    destruct (good_inv prec emax y Hy) as [-> | (my & ey & -> & Hby)].
  - apply zero_fl_near. simpl. ring.
  - apply (fl_near_ext _ (F2Q (S754_finite false my ey))); [simpl; ring | ].
    apply good_fl_near. assumption.
  - apply (fl_near_ext _ (F2Q (S754_finite false mx ex))); [simpl; ring | ].
    apply good_fl_near. assumption.
  - unfold SFadd. set (ez := Z.min ex ey).
    pose proof (F2Q_align mx ex ez ltac:(lia)) as Ax.
    pose proof (F2Q_align my ey ez ltac:(lia)) as Ay.
    set (a := fst (shl_align mx ex ez)) in *.
    set (b := fst (shl_align my ey ez)) in *.
    simpl cond_Zopp. change (Zpos a + Zpos b) with (Zpos (a + b)).
    simpl binary_normalize.
    eapply fl_near_ext; [ | apply binary_round_near].
    simpl F2Q. rewrite <- Ax, <- Ay, Pos2Z.inj_add, inject_Z_plus. ring.
Qed.

Lemma SFsub_near (x y : spec_float) :
  good prec emax x = true -> good prec emax y = true -> (F2Q y <= F2Q x)%Q ->
  fl_near prec emax (SFsub prec emax x y) (F2Q x - F2Q y).
Proof.
  intros Hx Hy Hle.
  destruct (good_inv prec emax x Hx) as [-> | (mx & ex & -> & Hbx)];
    destruct (good_inv prec emax y Hy) as [-> | (my & ey & -> & Hby)].
  - apply zero_fl_near. simpl. ring.
  - exfalso. pose proof (F2Q_finite_pos my ey). simpl F2Q in Hle at 2. lra.
  - apply (fl_near_ext _ (F2Q (S754_finite false mx ex))); [simpl; ring | ].
    apply good_fl_near. assumption.
  - unfold SFsub. set (ez := Z.min ex ey).
    pose proof (F2Q_align mx ex ez ltac:(lia)) as Ax.
    pose proof (F2Q_align my ey ez ltac:(lia)) as Ay.
    set (a := fst (shl_align mx ex ez)) in *.
    set (b := fst (shl_align my ey ez)) in *.
    simpl cond_Zopp.
    assert (E : (inject_Z (Zpos a - Zpos b) * pow2 ez
                 == F2Q (S754_finite false mx ex) - F2Q (S754_finite false my ey))%Q).
    { simpl F2Q. rewrite <- Ax, <- Ay. unfold Z.sub.
      rewrite inject_Z_plus, inject_Z_opp. ring. }
    assert (Hab : Zpos b <= Zpos a).
    { simpl F2Q in Hle. rewrite <- Ax, <- Ay in Hle. pose proof (pow2_pos ez).
      rewrite Zle_Qle. nra. }
    destruct (Zpos a - Zpos b) as [ | p | p] eqn:Ed; [ | | lia].
    + simpl binary_normalize. apply zero_fl_near. rewrite <- E. simpl. ring.
    + simpl binary_normalize.
      eapply fl_near_ext; [exact E | apply binary_round_near].
Qed.

End Nearest.

(** * The block on the widgets' ranges *)

Lemma widget_range_inv (i : inputs) :
  widget_range i = true ->
  amount_ok (loan_amt_current i) = true
  /\ amount_ok (pf_percentage i) = true
  /\ (F2Q (pf_percentage i) <= 100)%Q
  /\ amount_ok (roi_per_day i) = true
  /\ (F2Q (roi_per_day i) <= 10)%Q
  /\ amount_ok (avg_ticket_size i) = true
  /\ (1 <= F2Q (avg_ticket_size i))%Q
  /\ 1 <= avg_tenure i
  /\ 1 <= no_of_days i <= 31
  /\ amount_ok (loan_amt_t1 i) = true
  /\ amount_ok (loan_amt_t2 i) = true
  /\ amount_ok (sanction_sales_target i) = true
  /\ (1 <= F2Q (sanction_sales_target i))%Q
  /\ amount_ok (collection_target i) = true
  /\ (1 <= F2Q (collection_target i))%Q.
Proof.
  unfold widget_range. intros H.
  repeat match type of H with
         | (_ && _) = true =>
             let H1 := fresh "H" in
             apply andb_true_iff in H; destruct H as [H H1]
         end.
  repeat match goal with
         | H : (_ && _) = true |- _ =>
             let H1 := fresh "H" in
             apply andb_true_iff in H; destruct H as [H H1]
         | H : Qle_bool _ _ = true |- _ => apply Qle_bool_iff in H
         | H : (_ <=? _) = true |- _ => apply Z.leb_le in H
         end.
  repeat match goal with |- _ /\ _ => split end; assumption.
Qed.

Lemma figure_ok_cases (x : float) :
  figure_ok x = true <-> x = S754_infinity false \/ amount_ok x = true.
Proof.
  unfold figure_ok, amount_ok, good. split.
  - intros H. apply andb_true_iff in H. destruct H as [Hs Hv].
    destruct x as [[ | ] | [ | ] | | [ | ] m e]; simpl in Hs;
      try discriminate.
    + right. reflexivity.
    + left. reflexivity.
    + right. simpl in Hv |- *. rewrite Hv. reflexivity.
  - intros [-> | H]; [reflexivity | ].
    apply andb_true_iff in H. destruct H as [H Hs].
    apply andb_true_iff in H. destruct H as [Hv _].
    rewrite Hs, Hv. reflexivity.
Qed.

Lemma fl_of_figure (r : float) (x : Q) :
  fl_of prec emax r x -> figure_ok r = true.
Proof. intros H. apply figure_ok_cases. apply (fl_of_cases r x H). Qed.

Lemma amount_ok_figure (x : float) : amount_ok x = true -> figure_ok x = true.
Proof. intros H. apply figure_ok_cases. right. exact H. Qed.

Lemma amount_ok_pos_inv (x : float) :
  amount_ok x = true -> (0 < F2Q x)%Q ->
  exists m e, x = S754_finite false m e.
Proof.
  intros H Hp. unfold amount_ok in H.
  destruct (good_inv prec emax x H) as [-> | (m & e & -> & _)].
  - simpl in Hp. lra.
  - eauto.
Qed.

(** The operations on figures. *)
Lemma fmul_figure (a b : float) :
  figure_ok a = true -> amount_ok b = true -> (0 < F2Q b)%Q ->
  figure_ok (fmul a b) = true.
Proof.
  intros Ha Hb Hp. apply figure_ok_cases in Ha. destruct Ha as [-> | Ha].
  - destruct (amount_ok_pos_inv b Hb Hp) as (m & e & ->). reflexivity.
  - apply (fl_of_figure _ _ (fmul_spec a b Ha Hb)).
Qed.

Lemma fadd_figure (a b : float) :
  figure_ok a = true -> figure_ok b = true -> figure_ok (fadd a b) = true.
Proof.
  intros Ha Hb. apply figure_ok_cases in Ha. apply figure_ok_cases in Hb.
  destruct Ha as [-> | Ha]; destruct Hb as [-> | Hb].
  - reflexivity.
  - unfold amount_ok in Hb.
    destruct (good_inv prec emax b Hb) as [-> | (m & e & -> & _)]; reflexivity.
  - unfold amount_ok in Ha.
    destruct (good_inv prec emax a Ha) as [-> | (m & e & -> & _)]; reflexivity.
  - destruct (fadd_spec a b Ha Hb) as [H _]. apply (fl_of_figure _ _ H).
Qed.

Lemma fdiv_figure (a b : float) :
  figure_ok a = true -> amount_ok b = true -> (0 < F2Q b)%Q ->
  figure_ok (SFdiv prec emax a b) = true.
Proof.
  intros Ha Hb Hp. apply figure_ok_cases in Ha. destruct Ha as [-> | Ha].
  - destruct (amount_ok_pos_inv b Hb Hp) as (m & e & ->). reflexivity.
  - apply (fl_of_figure _ _ (fdiv_spec a b Ha Hb Hp)).
Qed.

Lemma w_0_11_ok : amount_ok w_0_11 = true /\ (0 < F2Q w_0_11)%Q.
Proof. split; vm_compute; reflexivity. Qed.

Lemma w_0_78_ok : amount_ok w_0_78 = true /\ (0 < F2Q w_0_78)%Q.
Proof. split; vm_compute; reflexivity. Qed.

(** An int of at most [2^1023] converts. *)
Lemma of_int_converts (n : Z) :
  0 <= n <= 2 ^ 1023 -> exists t, of_int n = Ok t.
Proof.
  intros Hn. unfold of_int.
  destruct (Z.eq_dec n 0) as [-> | Hne]; [eexists; reflexivity | ].
  pose proof (Z2SF_pos n ltac:(lia)) as Hfl.
  destruct (fl_of_le _ (S754_finite false 4503599627370496 971) _ Hfl
              amount_ok_2_1023) as [Hok _].
  { rewrite F2Q_2_1023. rewrite <- (pow2_double 1023).
    rewrite pow2_Z by lia. rewrite <- Zle_Qle. lia. }
  destruct (Z2SF n); try discriminate; eexists; reflexivity.
Qed.

(** ** The operations round to nearest *)

Lemma fmul_near (x y : float) :
  amount_ok x = true -> amount_ok y = true ->
  fl_near prec emax (fmul x y) (F2Q x * F2Q y).
Proof. apply (SFmul_near prec emax prec_pos prec_lt_emax). Qed.

Lemma fdiv_near (x y : float) :
  amount_ok x = true -> amount_ok y = true -> (0 < F2Q y)%Q ->
  fl_near prec emax (SFdiv prec emax x y) (F2Q x / F2Q y).
Proof. apply (SFdiv_near prec emax prec_pos). Qed.

Lemma fadd_near (x y : float) :
  amount_ok x = true -> amount_ok y = true ->
  fl_near prec emax (fadd x y) (F2Q x + F2Q y).
Proof. apply (SFadd_near prec emax prec_pos). Qed.

Lemma fsub_near (x y : float) :
  amount_ok x = true -> amount_ok y = true -> (F2Q y <= F2Q x)%Q ->
  fl_near prec emax (fsub x y) (F2Q x - F2Q y).
Proof. apply (SFsub_near prec emax prec_pos). Qed.

Lemma Z2SF_near (n : Z) :
  0 <= n -> fl_near prec emax (Z2SF n) (inject_Z n).
Proof.
  intros Hn. unfold Z2SF, binary_normalize. destruct n as [ | m | m].
  - apply (zero_fl_near prec emax prec_pos). reflexivity.
  - apply (fl_near_ext _ _ _ (inject_Z (Zpos m) * pow2 0)%Q).
    + unfold pow2. simpl. ring.
    + apply (binary_round_near prec emax prec_pos).
  - lia.
Qed.

(** ** The order on figures *)

Lemma ext_le_of_le (x y : float) :
  amount_ok x = true -> amount_ok y = true -> (F2Q x <= F2Q y)%Q ->
  ext_le x y.
Proof.
  intros Hx Hy H. right.
  pose proof (amount_ok_finite x Hx). pose proof (amount_ok_finite y Hy).
  auto.
Qed.

Lemma figure_finite (x : float) :
  figure_ok x = true -> is_finite x = true -> amount_ok x = true.
Proof.
  intros H Hf. apply figure_ok_cases in H. destruct H as [-> | H].
  - discriminate.
  - exact H.
Qed.

Lemma ext_le_finite (x y : float) :
  figure_ok x = true -> figure_ok y = true -> ext_le x y ->
  is_finite y = true ->
  amount_ok x = true /\ amount_ok y = true /\ (F2Q x <= F2Q y)%Q.
Proof.
  intros Hx Hy [-> | (Hfx & Hfy & H)] Hf; [discriminate | ].
  repeat split; auto using figure_finite.
Qed.

Lemma fmul_mono (a a' b b' : float) :
  amount_ok a = true -> amount_ok a' = true ->
  amount_ok b = true -> amount_ok b' = true ->
  (F2Q a <= F2Q a')%Q -> (F2Q b <= F2Q b')%Q ->
  ext_le (fmul a b) (fmul a' b').
Proof.
  intros Ha Ha' Hb Hb' H1 H2.
  apply (fl_near_mono prec emax prec_pos _ _ _ _
           (fmul_near a b Ha Hb) (fmul_near a' b' Ha' Hb')).
  pose proof (amount_ok_nonneg a Ha). pose proof (amount_ok_nonneg b Hb).
  nra.
Qed.

Lemma fdiv_mono (a a' b b' : float) :
  amount_ok a = true -> amount_ok a' = true ->
  amount_ok b = true -> amount_ok b' = true ->
  (F2Q a <= F2Q a')%Q -> (0 < F2Q b')%Q -> (F2Q b' <= F2Q b)%Q ->
  ext_le (SFdiv prec emax a b) (SFdiv prec emax a' b').
Proof.
  intros Ha Ha' Hb Hb' H1 Hp H2.
  assert (Hpb : (0 < F2Q b)%Q) by lra.
  apply (fl_near_mono prec emax prec_pos _ _ _ _
           (fdiv_near a b Ha Hb Hpb) (fdiv_near a' b' Ha' Hb' Hp)).
  pose proof (amount_ok_nonneg a Ha).
  apply Qle_shift_div_l; [exact Hp | ].
  unfold Qdiv. rewrite <- Qmult_assoc, (Qmult_comm (/ F2Q b)), Qmult_assoc.
  apply Qle_shift_div_r; [exact Hpb | ]. nra.
Qed.

Lemma fadd_mono (a a' b b' : float) :
  amount_ok a = true -> amount_ok a' = true ->
  amount_ok b = true -> amount_ok b' = true ->
  (F2Q a <= F2Q a')%Q -> (F2Q b <= F2Q b')%Q ->
  ext_le (fadd a b) (fadd a' b').
Proof.
  intros Ha Ha' Hb Hb' H1 H2.
  apply (fl_near_mono prec emax prec_pos _ _ _ _
           (fadd_near a b Ha Hb) (fadd_near a' b' Ha' Hb')).
  lra.
Qed.

Lemma fmul_infinity (b : float) :
  amount_ok b = true -> (0 < F2Q b)%Q ->
  fmul (S754_infinity false) b = S754_infinity false.
Proof.
  intros Hb Hp. destruct (amount_ok_pos_inv b Hb Hp) as (m & e & ->).
  reflexivity.
Qed.

Lemma fdiv_infinity (b : float) :
  amount_ok b = true ->
  SFdiv prec emax (S754_infinity false) b = S754_infinity false.
Proof.
  intros Hb. unfold amount_ok in Hb.
  destruct (good_inv prec emax b Hb) as [-> | (m & e & -> & _)]; reflexivity.
Qed.

Lemma fadd_infinity_l (x : float) :
  figure_ok x = true -> fadd (S754_infinity false) x = S754_infinity false.
Proof.
  intros H. apply figure_ok_cases in H. destruct H as [-> | H];
    [reflexivity | ].
  unfold amount_ok in H.
  destruct (good_inv prec emax x H) as [-> | (m & e & -> & _)]; reflexivity.
Qed.

Lemma fadd_infinity_r (x : float) :
  figure_ok x = true -> fadd x (S754_infinity false) = S754_infinity false.
Proof.
  intros H. apply figure_ok_cases in H. destruct H as [-> | H];
    [reflexivity | ].
  apply fadd_infinity. exact H.
Qed.

Lemma fmul_ext_mono (a a' b b' : float) :
  figure_ok a = true -> figure_ok a' = true -> ext_le a a' ->
  amount_ok b = true -> amount_ok b' = true ->
  (0 < F2Q b)%Q -> (F2Q b <= F2Q b')%Q ->
  ext_le (fmul a b) (fmul a' b').
Proof.
  intros Ha Ha' Hle Hb Hb' Hp H2.
  destruct (proj1 (figure_ok_cases a') Ha') as [-> | Hfa'].
  - left. apply fmul_infinity; [exact Hb' | lra].
  - destruct (ext_le_finite a a' Ha Ha' Hle (amount_ok_finite a' Hfa'))
      as (Hfa & _ & H1).
    apply fmul_mono; assumption.
Qed.

Lemma fdiv_ext_mono (a a' b b' : float) :
  figure_ok a = true -> figure_ok a' = true -> ext_le a a' ->
  amount_ok b = true -> amount_ok b' = true ->
  (0 < F2Q b')%Q -> (F2Q b' <= F2Q b)%Q ->
  ext_le (SFdiv prec emax a b) (SFdiv prec emax a' b').
Proof.
  intros Ha Ha' Hle Hb Hb' Hp H2.
  destruct (proj1 (figure_ok_cases a') Ha') as [-> | Hfa'].
  - left. apply fdiv_infinity. exact Hb'.
  - destruct (ext_le_finite a a' Ha Ha' Hle (amount_ok_finite a' Hfa'))
      as (Hfa & _ & H1).
    apply fdiv_mono; assumption.
Qed.

Lemma fadd_ext_mono (a a' b b' : float) :
  figure_ok a = true -> figure_ok a' = true -> ext_le a a' ->
  figure_ok b = true -> figure_ok b' = true -> ext_le b b' ->
  ext_le (fadd a b) (fadd a' b').
Proof.
  intros Ha Ha' Hle Hb Hb' Hle'.
  destruct (proj1 (figure_ok_cases a') Ha') as [-> | Hfa'].
  { left. apply fadd_infinity_l. exact Hb'. }
  destruct (proj1 (figure_ok_cases b') Hb') as [-> | Hfb'].
  { left. apply fadd_infinity_r. exact Ha'. }
  destruct (ext_le_finite a a' Ha Ha' Hle (amount_ok_finite a' Hfa'))
    as (Hfa & _ & H1).
  destruct (ext_le_finite b b' Hb Hb' Hle' (amount_ok_finite b' Hfb'))
    as (Hfb & _ & H2).
  apply fadd_mono; assumption.
Qed.

(** ** The block's figures on the widgets' ranges *)

Lemma of_int_Ok (n : Z) (t : float) : of_int n = Ok t -> t = Z2SF n.
Proof.
  unfold of_int. intros H.
  destruct (Z2SF n); try discriminate; apply Ok_inj in H; auto.
Qed.

Lemma of_int_Raise (n : Z) (e : exn) :
  of_int n = Raise e -> e = OverflowError /\ 2 ^ 1023 < n \/ n < 0.
Proof.
  intros H. destruct (Z_lt_le_dec n 0) as [Hn | Hn]; [right; exact Hn | ].
  left. destruct (Z_lt_le_dec (2 ^ 1023) n) as [Hb | Hb].
  - split; [ | exact Hb]. unfold of_int in H.
    destruct (Z2SF n); try discriminate. congruence.
  - destruct (of_int_converts n (conj Hn Hb)) as [t Ht]. congruence.
Qed.

Lemma nonzero_of_ge_1 (x : float) : (1 <= F2Q x)%Q -> is_zero x = false.
Proof.
  intros H. destruct (is_zero x) eqn:E; [ | reflexivity].
  apply is_zero_F2Q in E. lra.
Qed.

Lemma in_range_facts (i : inputs) (c : calc) :
  widget_range i = true -> calculation i = Ok c ->
  let rate := SFdiv prec emax (roi_per_day i) (Z2SF 100) in
  let tenure := Z2SF (avg_tenure i) in
  let days := Z2SF (no_of_days i) in
  (amount_ok rate = true /\ (F2Q rate <= 1)%Q)
  /\ (amount_ok tenure = true /\ (1 <= F2Q tenure)%Q)
  /\ (amount_ok days = true /\ (1 <= F2Q days)%Q)
  /\ pf_amount c
     = fmul (SFdiv prec emax (pf_percentage i) (Z2SF 100)) (loan_amt_current i)
  /\ amt_in_bank c = fsub (loan_amt_current i) (pf_amount c)
  /\ repayment_amt c = fadd (loan_amt_current i) (interest_current c)
  /\ no_of_loans c = SFdiv prec emax (loan_amt_current i) (avg_ticket_size i)
  /\ no_sanction_sales c
     = SFdiv prec emax (SFdiv prec emax (loan_amt_current i) days)
         (sanction_sales_target i)
  /\ interest_current c = fmul (fmul (loan_amt_current i) rate) tenure
  /\ interest_t1 c = fmul (fmul (loan_amt_t1 i) rate) tenure
  /\ interest_t2 c = fmul (fmul (loan_amt_t2 i) rate) tenure
  /\ collection_current c
     = fmul (fadd (loan_amt_current i) (interest_current c)) w_0_11
  /\ collection_t1 c = fmul (fadd (loan_amt_t1 i) (interest_t1 c)) w_0_78
  /\ collection_t2 c = fmul (fadd (loan_amt_t2 i) (interest_t2 c)) w_0_11
  /\ total_collection_required c
     = fadd (fadd (collection_current c) (collection_t1 c)) (collection_t2 c)
  /\ no_collection c
     = SFdiv prec emax (total_collection_required c) (collection_target i).
Proof.
  intros Hr Hc.
  destruct (widget_range_inv i Hr)
    as (HD & Hpf & Hpf100 & Hroi & Hroi10 & Htk & Htk1 & Hten & Hdays
        & H1 & H2 & Hst & Hst1 & Hct & Hct1).
  destruct (calculation_fields i c Hc)
    as (t & d & Ht & Hd & _ & _ & _ & _ & Hf).
  cbv zeta in Hf |- *.
  pose proof (of_int_ge_1 _ _ Hten Ht) as Ht1.
  pose proof (of_int_ge_1 _ _ (proj1 Hdays) Hd) as Hd1.
  apply of_int_Ok in Ht, Hd. subst t d.
  destruct (rate_ok (roi_per_day i) Hroi) as (_ & Hrate & _ & Hrate1).
  split; [split; [exact Hrate | apply Hrate1; lra] | ].
  split; [exact Ht1 | ]. split; [exact Hd1 | ]. exact Hf.
Qed.

(** An in-range run reaches the end of the block as soon as the tenure
    converts to a float. *)
Lemma in_range_runs (i : inputs) (t : float) :
  widget_range i = true -> of_int (avg_tenure i) = Ok t ->
  exists c, calculation i = Ok c.
Proof.
  intros Hr Ht.
  destruct (widget_range_inv i Hr)
    as (HD & Hpf & Hpf100 & Hroi & Hroi10 & Htk & Htk1 & Hten & Hdays
        & H1 & H2 & Hst & Hst1 & Hct & Hct1).
  destruct (of_int_converts (no_of_days i)) as [d Hd].
  { split; [lia | ]. apply Z.le_trans with (2 ^ 5); [lia | ].
    apply Z.pow_le_mono_r; lia. }
  apply (calculation_total i t d Ht Hd).
  - apply nonzero_of_ge_1. exact Htk1.
  - apply nonzero_of_ge_1. apply (of_int_ge_1 _ _ (proj1 Hdays) Hd).
  - apply nonzero_of_ge_1. exact Hst1.
  - apply nonzero_of_ge_1. exact Hct1.
Qed.

Lemma in_range_overflow (i : inputs) (e : exn) :
  of_int (avg_tenure i) = Raise e -> calculation i = Raise e.
Proof.
  intros H. unfold calculation. rewrite fdiv_int_100. unfold bind at 1.
  unfold interest at 1. rewrite fdiv_int_100. unfold bind at 1.
  unfold fmul_int. rewrite H. reflexivity.
Qed.

(** A share of an amount: the product with a factor of at most one. *)
Lemma share_ok (x r : float) :
  amount_ok x = true -> amount_ok r = true -> (F2Q r <= 1)%Q ->
  amount_ok (fmul x r) = true /\ (F2Q (fmul x r) <= F2Q x)%Q.
Proof.
  intros Hx Hr H1. apply (fl_of_le _ x _ (fmul_spec x r Hx Hr) Hx).
  pose proof (amount_ok_nonneg x Hx). pose proof (amount_ok_nonneg r Hr).
  nra.
Qed.

(** A quotient by a divisor of at least one. *)
Lemma quotient_ok (x d : float) :
  amount_ok x = true -> amount_ok d = true -> (1 <= F2Q d)%Q ->
  amount_ok (SFdiv prec emax x d) = true
  /\ (F2Q (SFdiv prec emax x d) <= F2Q x)%Q.
Proof.
  intros Hx Hd H1.
  apply (fl_of_le _ x _ (fdiv_spec x d Hx Hd ltac:(lra)) Hx).
  pose proof (amount_ok_nonneg x Hx).
  apply Qle_shift_div_r; [lra | nra].
Qed.

Lemma interest_figure (x r t : float) :
  amount_ok x = true -> amount_ok r = true -> (F2Q r <= 1)%Q ->
  amount_ok t = true -> (1 <= F2Q t)%Q ->
  figure_ok (fmul (fmul x r) t) = true.
Proof.
  intros Hx Hr H1 Ht Ht1.
  destruct (share_ok x r Hx Hr H1) as [Hp _].
  apply fmul_figure; [apply amount_ok_figure; exact Hp | exact Ht | lra].
Qed.

Lemma collection_figure (x I w : float) :
  amount_ok x = true -> figure_ok I = true ->
  amount_ok w = true /\ (0 < F2Q w)%Q ->
  figure_ok (fmul (fadd x I) w) = true.
Proof.
  intros Hx HI [Hw Hp].
  apply fmul_figure; [ | exact Hw | exact Hp].
  apply fadd_figure; [apply amount_ok_figure; exact Hx | exact HI].
Qed.

Lemma in_range_figure_ok (i : inputs) (c : calc) :
  widget_range i = true -> calculation i = Ok c ->
  (amount_ok (pf_amount c) = true
   /\ (F2Q (pf_amount c) <= F2Q (loan_amt_current i))%Q)
  /\ (amount_ok (amt_in_bank c) = true
      /\ (F2Q (amt_in_bank c) <= F2Q (loan_amt_current i))%Q)
  /\ (amount_ok (no_of_loans c) = true
      /\ (F2Q (no_of_loans c) <= F2Q (loan_amt_current i))%Q)
  /\ (amount_ok (no_sanction_sales c) = true
      /\ (F2Q (no_sanction_sales c) <= F2Q (loan_amt_current i))%Q)
  /\ figure_ok (interest_current c) = true
  /\ figure_ok (interest_t1 c) = true
  /\ figure_ok (interest_t2 c) = true
  /\ figure_ok (repayment_amt c) = true
  /\ figure_ok (collection_current c) = true
  /\ figure_ok (collection_t1 c) = true
  /\ figure_ok (collection_t2 c) = true
  /\ figure_ok (total_collection_required c) = true
  /\ figure_ok (no_collection c) = true.
Proof.
  intros Hr Hc.
  destruct (widget_range_inv i Hr)
    as (HD & Hpf & Hpf100 & Hroi & Hroi10 & Htk & Htk1 & Hten & Hdays
        & H1 & H2 & Hst & Hst1 & Hct & Hct1).
  destruct (in_range_facts i c Hr Hc)
    as ([Hrate Hrate1] & [Ht Ht1] & [Hd Hd1] & Epf & Ebank & Erep & Eloans
        & Ens & EI0 & EI1 & EI2 & EC0 & EC1 & EC2 & Etot & Enc).
  destruct (rate_ok (pf_percentage i) Hpf) as (_ & Hpr & _ & Hpr1).
  specialize (Hpr1 Hpf100).
  assert (Hfee : amount_ok (pf_amount c) = true
                 /\ (F2Q (pf_amount c) <= F2Q (loan_amt_current i))%Q).
  { rewrite Epf.
    apply (fl_of_le _ _ _ (fmul_spec _ _ Hpr HD) HD).
    pose proof (amount_ok_nonneg _ HD). pose proof (amount_ok_nonneg _ Hpr).
    nra. }
  split; [exact Hfee | ].
  split.
  { rewrite Ebank. destruct Hfee as [Hf1 Hf2].
    destruct (fsub_spec _ _ HD Hf1 Hf2) as [Hs _].
    apply (fl_of_le _ _ _ Hs HD).
    pose proof (amount_ok_nonneg _ Hf1). lra. }
  split; [rewrite Eloans; apply quotient_ok; assumption | ].
  split.
  { rewrite Ens.
    destruct (quotient_ok _ _ HD Hd Hd1) as [Hq1 Hq2].
    destruct (quotient_ok _ _ Hq1 Hst Hst1) as [Hq3 Hq4].
    split; [exact Hq3 | lra]. }
  assert (HI0 : figure_ok (interest_current c) = true)
    by (rewrite EI0; apply interest_figure; assumption).
  assert (HI1 : figure_ok (interest_t1 c) = true)
    by (rewrite EI1; apply interest_figure; assumption).
  assert (HI2 : figure_ok (interest_t2 c) = true)
    by (rewrite EI2; apply interest_figure; assumption).
  assert (HC0 : figure_ok (collection_current c) = true)
    by (rewrite EC0; apply collection_figure; auto using w_0_11_ok).
  assert (HC1 : figure_ok (collection_t1 c) = true)
    by (rewrite EC1; apply collection_figure; auto using w_0_78_ok).
  assert (HC2 : figure_ok (collection_t2 c) = true)
    by (rewrite EC2; apply collection_figure; auto using w_0_11_ok).
  assert (Htot : figure_ok (total_collection_required c) = true)
    by (rewrite Etot; auto using fadd_figure).
  repeat match goal with |- _ /\ _ => split end; try assumption.
  - rewrite Erep. auto using fadd_figure, amount_ok_figure.
  - rewrite Enc. apply fdiv_figure; [exact Htot | exact Hct | lra].
Qed.

(** ** What a render shows *)

Lemma rounded_ceiling (x : float) :
  amount_ok x = true -> rounded x = Ok (Qceiling (F2Q x)).
Proof.
  intros Hx. unfold amount_ok, good in Hx.
  apply andb_true_iff in Hx. destruct Hx as [Hx Hs].
  apply andb_true_iff in Hx. destruct Hx as [_ Hf].
  destruct (mod_one_frac x Hf Hs) as [_ Hgt].
  unfold rounded, increment. rewrite (int_floor x Hf Hs). unfold bind.
  rewrite Qceiling_of_floor. f_equal.
  destruct (Qeq_dec (inject_Z (Qfloor (F2Q x))) (F2Q x)) as [He | Hne].
  - destruct (gt_zero (mod_one x)); [ | lia].
    exfalso. pose proof (proj1 Hgt eq_refl) as Hp. unfold frac in Hp. lra.
  - rewrite (proj2 Hgt); [reflexivity | ].
    unfold frac. pose proof (Qfloor_le (F2Q x)).
    destruct (Qlt_le_dec 0 (F2Q x - inject_Z (Qfloor (F2Q x)))) as [Hp | Hn];
      [exact Hp | ].
    exfalso. apply Hne. lra.
Qed.

Lemma rounded_Ok_finite (x : float) (n : Z) :
  rounded x = Ok n -> is_finite x = true.
Proof.
  unfold rounded. destruct x as [s | s | | s m e]; try reflexivity;
    discriminate.
Qed.

Lemma render_of_parts (i : inputs) (c : calc) (n s k : Z) :
  calculation i = Ok c ->
  int (no_of_loans c) = Ok n ->
  rounded (no_sanction_sales c) = Ok s ->
  rounded (no_collection c) = Ok k ->
  render i = Ok {| figures := c;
                   loan_count := n;
                   total_headcount := s + k;
                   sanction_headcount_rounded := s;
                   collection_headcount_rounded := k;
                   reported_total := s + k |}.
Proof.
  intros Hc Hn Hs Hk.
  unfold render, number_of_loans_metric, total_staff_metric, summary_total,
    team_rounded, rounded in *.
  rewrite Hc. unfold bind at 1. rewrite Hn. unfold bind at 1.
  destruct (int (no_sanction_sales c)) as [a | ]; [ | discriminate].
  destruct (int (no_collection c)) as [b | ]; [ | discriminate].
  unfold bind in *. apply Ok_inj in Hs, Hk. subst s k.
  unfold sum, values. cbn [map snd fold_left].
  f_equal. f_equal; lia.
Qed.

Lemma render_parts (i : inputs) (o : outputs) :
  render i = Ok o ->
  calculation i = Ok (figures o)
  /\ int (no_of_loans (figures o)) = Ok (loan_count o)
  /\ rounded (no_sanction_sales (figures o))
     = Ok (sanction_headcount_rounded o)
  /\ rounded (no_collection (figures o))
     = Ok (collection_headcount_rounded o)
  /\ total_headcount o
     = sanction_headcount_rounded o + collection_headcount_rounded o
  /\ reported_total o
     = sanction_headcount_rounded o + collection_headcount_rounded o.
Proof.
  intros H.
  destruct (calculation i) as [c | e] eqn:Hc;
    [ | unfold render in H; rewrite Hc in H; discriminate].
  destruct (int (no_of_loans c)) as [n | e] eqn:Hn;
    [ | unfold render, number_of_loans_metric in H; rewrite Hc in H;
        unfold bind at 1 in H; rewrite Hn in H; discriminate].
  destruct (rounded (no_sanction_sales c)) as [s | e] eqn:Hs.
  2:{ exfalso. unfold render, number_of_loans_metric, total_staff_metric in H.
      rewrite Hc in H. unfold bind at 1 in H. rewrite Hn in H.
      unfold bind at 1 in H. unfold rounded in Hs.
      destruct (int (no_sanction_sales c)); discriminate. }
  destruct (rounded (no_collection c)) as [k | e] eqn:Hk.
  2:{ exfalso. unfold render, number_of_loans_metric, total_staff_metric in H.
      rewrite Hc in H. unfold bind at 1 in H. rewrite Hn in H.
      unfold bind at 1 in H. unfold rounded in Hk.
      destruct (int (no_sanction_sales c)); [ | discriminate].
      unfold bind at 1 in H.
      destruct (int (no_collection c)); discriminate. }
  rewrite (render_of_parts i c n s k Hc Hn Hs Hk) in H.
  apply Ok_inj in H. subst o. cbn [figures loan_count total_headcount
    sanction_headcount_rounded collection_headcount_rounded reported_total].
  repeat split; assumption.
Qed.




(** ** The order on figures, continued *)

Lemma ext_le_trans (a b c : float) : ext_le a b -> ext_le b c -> ext_le a c.
Proof.
  intros [-> | (Ha & Hb & H1)] [-> | (Hb' & Hc & H2)].
  - left. reflexivity.
  - discriminate.
  - left. reflexivity.
  - right. repeat split; auto. lra.
Qed.

Lemma fadd_ge_l (a b : float) :
  figure_ok a = true -> figure_ok b = true -> ext_le a (fadd a b).
Proof.
  intros Ha Hb.
  destruct (proj1 (figure_ok_cases a) Ha) as [-> | Hfa].
  { left. apply fadd_infinity_l. exact Hb. }
  destruct (proj1 (figure_ok_cases b) Hb) as [-> | Hfb].
  { left. apply fadd_infinity_r. exact Ha. }
  apply (fl_near_mono prec emax prec_pos _ _ _ _
           (good_fl_near prec emax prec_pos a Hfa) (fadd_near a b Hfa Hfb)).
  pose proof (amount_ok_nonneg b Hfb). lra.
Qed.

Lemma fadd_ge_r (a b : float) :
  figure_ok a = true -> figure_ok b = true -> ext_le b (fadd a b).
Proof.
  intros Ha Hb.
  destruct (proj1 (figure_ok_cases a) Ha) as [-> | Hfa].
  { left. apply fadd_infinity_l. exact Hb. }
  destruct (proj1 (figure_ok_cases b) Hb) as [-> | Hfb].
  { left. apply fadd_infinity_r. exact Ha. }
  apply (fl_near_mono prec emax prec_pos _ _ _ _
           (good_fl_near prec emax prec_pos b Hfb) (fadd_near a b Hfa Hfb)).
  pose proof (amount_ok_nonneg a Hfa). lra.
Qed.

Lemma Z2SF_mono (n n' : Z) : 0 <= n <= n' -> ext_le (Z2SF n) (Z2SF n').
Proof.
  intros H.
  apply (fl_near_mono prec emax prec_pos _ _ _ _
           (Z2SF_near n ltac:(lia)) (Z2SF_near n' ltac:(lia))).
  rewrite <- Zle_Qle. lia.
Qed.

(** ** Zero amounts *)

Lemma amount_ok_shape (x : float) :
  amount_ok x = true -> x = pzero \/ exists m e, x = S754_finite false m e.
Proof.
  intros H. unfold amount_ok in H.
  destruct (good_inv prec emax x H) as [-> | (m & e & -> & _)];
    [left; reflexivity | right; eauto].
Qed.

Lemma fmul_pzero_l (b : float) : amount_ok b = true -> fmul pzero b = pzero.
Proof.
  intros H. destruct (amount_ok_shape b H) as [-> | (m & e & ->)];
    reflexivity.
Qed.

Lemma fmul_pzero_r (b : float) : amount_ok b = true -> fmul b pzero = pzero.
Proof.
  intros H. destruct (amount_ok_shape b H) as [-> | (m & e & ->)];
    reflexivity.
Qed.

Lemma fdiv_pzero (d : float) :
  amount_ok d = true -> (1 <= F2Q d)%Q -> SFdiv prec emax pzero d = pzero.
Proof.
  intros H H1. destruct (amount_ok_pos_inv d H ltac:(lra)) as (m & e & ->).
  reflexivity.
Qed.

(** ** Monotone pieces of the block *)

Lemma ext_le_F2Q (x y : float) :
  amount_ok x = true -> amount_ok y = true -> ext_le x y ->
  (F2Q x <= F2Q y)%Q.
Proof.
  intros Hx Hy H.
  apply (ext_le_finite x y); auto using amount_ok_figure, amount_ok_finite.
Qed.

Lemma rate_mono (r r' : float) :
  amount_ok r = true -> amount_ok r' = true -> (F2Q r <= F2Q r')%Q ->
  (F2Q (SFdiv prec emax r (Z2SF 100)) <= F2Q (SFdiv prec emax r' (Z2SF 100)))%Q.
Proof.
  intros Hr Hr' H.
  destruct (rate_ok r Hr) as (_ & H1 & _). destruct (rate_ok r' Hr') as (_ & H2 & _).
  apply ext_le_F2Q; [exact H1 | exact H2 | ].
  apply fdiv_mono; auto using amount_ok_100; rewrite F2Q_100; lra.
Qed.

Lemma interest_mono (x x' r r' t t' : float) :
  amount_ok x = true -> amount_ok x' = true -> (F2Q x <= F2Q x')%Q ->
  amount_ok r = true -> amount_ok r' = true -> (F2Q r <= F2Q r')%Q ->
  (F2Q r' <= 1)%Q ->
  amount_ok t = true -> amount_ok t' = true -> (F2Q t <= F2Q t')%Q ->
  ext_le (fmul (fmul x r) t) (fmul (fmul x' r') t').
Proof.
  intros Hx Hx' H1 Hr Hr' H2 Hr1 Ht Ht' H3.
  destruct (share_ok x r Hx Hr ltac:(lra)) as [Hp _].
  destruct (share_ok x' r' Hx' Hr' Hr1) as [Hp' _].
  apply fmul_mono; try assumption.
  apply ext_le_F2Q; [exact Hp | exact Hp' | ].
  apply fmul_mono; assumption.
Qed.

Lemma collection_mono (x x' I I' w : float) :
  amount_ok x = true -> amount_ok x' = true -> (F2Q x <= F2Q x')%Q ->
  figure_ok I = true -> figure_ok I' = true -> ext_le I I' ->
  amount_ok w = true /\ (0 < F2Q w)%Q ->
  ext_le (fmul (fadd x I) w) (fmul (fadd x' I') w).
Proof.
  intros Hx Hx' H1 HI HI' H2 [Hw Hp].
  apply fmul_ext_mono; try assumption; try lra.
  - apply fadd_figure; [apply amount_ok_figure; exact Hx | exact HI].
  - apply fadd_figure; [apply amount_ok_figure; exact Hx' | exact HI'].
  - apply fadd_ext_mono; auto using amount_ok_figure, ext_le_of_le.
Qed.

(** A smaller int converts when a larger one does. *)
Lemma of_int_downward (a b : Z) (t' : float) :
  0 <= a <= b -> of_int b = Ok t' -> exists t, of_int a = Ok t.
Proof.
  intros H Ht'.
  pose proof (of_int_nonneg b t' ltac:(lia) Ht') as Hok'.
  apply of_int_Ok in Ht'. subst t'.
  destruct (Z2SF_mono a b H) as [Hinf | (Hf & _)].
  - rewrite Hinf in Hok'. discriminate.
  - unfold of_int. destruct (Z2SF a); try discriminate; eauto.
Qed.

(** The block is monotone: more demand, no smaller figures. *)
Lemma block_monotone (i i' : inputs) (c c' : calc) :
  widget_range i = true -> widget_range i' = true -> more_demand i i' ->
  calculation i = Ok c -> calculation i' = Ok c' ->
  ext_le (no_of_loans c) (no_of_loans c')
  /\ ext_le (no_sanction_sales c) (no_sanction_sales c')
  /\ ext_le (interest_current c) (interest_current c')
  /\ ext_le (interest_t1 c) (interest_t1 c')
  /\ ext_le (interest_t2 c) (interest_t2 c')
  /\ ext_le (repayment_amt c) (repayment_amt c')
  /\ ext_le (collection_current c) (collection_current c')
  /\ ext_le (collection_t1 c) (collection_t1 c')
  /\ ext_le (collection_t2 c) (collection_t2 c')
  /\ ext_le (total_collection_required c) (total_collection_required c')
  /\ ext_le (no_collection c) (no_collection c').
Proof.
  intros Hr Hr' (LD & Lroi & Lten & L1 & L2 & Ldays & Ltk & Lst & Lct) Hc Hc'.
  destruct (widget_range_inv i Hr)
    as (HD & Hpf & Hpf100 & Hroi & Hroi10 & Htk & Htk1 & Hten & Hdays
        & H1 & H2 & Hst & Hst1 & Hct & Hct1).
  destruct (widget_range_inv i' Hr')
    as (HD' & Hpf' & Hpf100' & Hroi' & Hroi10' & Htk' & Htk1' & Hten' & Hdays'
        & H1' & H2' & Hst' & Hst1' & Hct' & Hct1').
  destruct (in_range_facts i c Hr Hc)
    as ([Hrate Hrate1] & [Ht Ht1] & [Hd Hd1] & _ & _ & Erep & Eloans
        & Ens & EI0 & EI1 & EI2 & EC0 & EC1 & EC2 & Etot & Enc).
  destruct (in_range_facts i' c' Hr' Hc')
    as ([Hrate' Hrate1'] & [Ht' Ht1'] & [Hd' Hd1'] & _ & _ & Erep' & Eloans'
        & Ens' & EI0' & EI1' & EI2' & EC0' & EC1' & EC2' & Etot' & Enc').
  destruct (in_range_figure_ok i c Hr Hc)
    as (_ & _ & _ & _ & FI0 & FI1 & FI2 & Frep & FC0 & FC1 & FC2
        & Ftot & Fnc).
  destruct (in_range_figure_ok i' c' Hr' Hc')
    as (_ & _ & _ & _ & FI0' & FI1' & FI2' & Frep' & FC0' & FC1' & FC2'
        & Ftot' & Fnc').
  pose proof (rate_mono _ _ Hroi Hroi' Lroi) as Lrate.
  assert (Lt : (F2Q (Z2SF (avg_tenure i)) <= F2Q (Z2SF (avg_tenure i')))%Q).
  { apply ext_le_F2Q; [exact Ht | exact Ht' | apply Z2SF_mono; lia]. }
  assert (Ld : (F2Q (Z2SF (no_of_days i')) <= F2Q (Z2SF (no_of_days i)))%Q).
  { apply ext_le_F2Q; [exact Hd' | exact Hd | apply Z2SF_mono; lia]. }
  assert (MI0 : ext_le (interest_current c) (interest_current c'))
    by (rewrite EI0, EI0'; apply interest_mono; assumption).
  assert (MI1 : ext_le (interest_t1 c) (interest_t1 c'))
    by (rewrite EI1, EI1'; apply interest_mono; assumption).
  assert (MI2 : ext_le (interest_t2 c) (interest_t2 c'))
    by (rewrite EI2, EI2'; apply interest_mono; assumption).
  assert (MC0 : ext_le (collection_current c) (collection_current c'))
    by (rewrite EC0, EC0'; apply collection_mono; auto using w_0_11_ok).
  assert (MC1 : ext_le (collection_t1 c) (collection_t1 c'))
    by (rewrite EC1, EC1'; apply collection_mono; auto using w_0_78_ok).
  assert (MC2 : ext_le (collection_t2 c) (collection_t2 c'))
    by (rewrite EC2, EC2'; apply collection_mono; auto using w_0_11_ok).
  assert (Mtot : ext_le (total_collection_required c)
                   (total_collection_required c')).
  { rewrite Etot, Etot'.
    apply fadd_ext_mono; auto using fadd_figure.
    apply fadd_ext_mono; assumption. }
  repeat match goal with |- _ /\ _ => split end; try assumption.
  - rewrite Eloans, Eloans'. apply fdiv_mono; try assumption. lra.
  - rewrite Ens, Ens'.
    destruct (quotient_ok _ _ HD Hd Hd1) as [Hq _].
    destruct (quotient_ok _ _ HD' Hd' Hd1') as [Hq' _].
    apply fdiv_mono; try assumption; [ | lra].
    apply ext_le_F2Q; [exact Hq | exact Hq' | ].
    apply fdiv_mono; try assumption. lra.
  - rewrite Erep, Erep'.
    apply fadd_ext_mono; auto using amount_ok_figure, ext_le_of_le.
  - rewrite Enc, Enc'. apply fdiv_ext_mono; try assumption. lra.
Qed.

Lemma fsub_figure (a b : float) :
  figure_ok a = true -> amount_ok b = true -> ext_le b a ->
  figure_ok (fsub a b) = true.
Proof.
  intros Ha Hb Hle.
  destruct (proj1 (figure_ok_cases a) Ha) as [-> | Hfa].
  - destruct (amount_ok_shape b Hb) as [-> | (m & e & ->)]; reflexivity.
  - destruct (fsub_spec a b Hfa Hb (ext_le_F2Q b a Hb Hfa Hle)) as [H _].
    apply (fl_of_figure _ _ H).
Qed.

Lemma lakhs_Ok (x : float) :
  lakhs x = Ok (SFdiv prec emax x (Z2SF 100000)).
Proof. reflexivity. Qed.

Lemma amount_ok_lakh :
  amount_ok (Z2SF 100000) = true /\ (F2Q (Z2SF 100000) == 100000)%Q.
Proof. split; vm_compute; reflexivity. Qed.

Lemma lakhs_figure (x : float) :
  figure_ok x = true -> figure_ok (SFdiv prec emax x (Z2SF 100000)) = true.
Proof.
  intros H. destruct amount_ok_lakh as [Hk Hv].
  apply fdiv_figure; [exact H | exact Hk | rewrite Hv; reflexivity].
Qed.

Lemma repayment_ge_disbursement (i : inputs) (c : calc) :
  widget_range i = true -> calculation i = Ok c ->
  ext_le (loan_amt_current i) (repayment_amt c).
Proof.
  intros Hr Hc.
  destruct (widget_range_inv i Hr) as (HD & _).
  destruct (in_range_facts i c Hr Hc)
    as (_ & _ & _ & _ & _ & Erep & _).
  destruct (in_range_figure_ok i c Hr Hc)
    as (_ & _ & _ & _ & FI0 & _).
  rewrite Erep. auto using fadd_ge_l, amount_ok_figure.
Qed.

(** ** The rounding expression below zero *)

Lemma gt_zero_of_pos (r : float) :
  amount_ok r = true -> (0 < F2Q r)%Q -> gt_zero r = true.
Proof.
  intros Hr Hp. destruct (amount_ok_pos_inv r Hr Hp) as (m & e & ->).
  reflexivity.
Qed.

(** A sum of a negative and a larger positive double is positive. *)
Lemma fadd_neg_pos_gt (a b : positive) (ea eb : Z) :
  emin prec emax <= ea -> emin prec emax <= eb ->
  (inject_Z (Zpos a) * pow2 ea < inject_Z (Zpos b) * pow2 eb)%Q ->
  gt_zero (fadd (S754_finite true a ea) (S754_finite false b eb)) = true.
Proof.
  intros Ha Hb Hlt. unfold fadd, SFadd.
  change (IntDef.Z.min ea eb) with (Z.min ea eb).
  set (ez := Z.min ea eb).
  pose proof (F2Q_align a ea ez ltac:(unfold ez; lia)) as EA.
  pose proof (F2Q_align b eb ez ltac:(unfold ez; lia)) as EB.
  set (A := fst (shl_align a ea ez)) in *.
  set (B := fst (shl_align b eb ez)) in *.
  cbn [cond_Zopp]. pose proof (pow2_pos ez) as Hz.
  assert (HAB : Zpos A < Zpos B).
  { rewrite Zlt_Qlt. rewrite <- EA, <- EB in Hlt. nra. }
  destruct (- Zpos A + Zpos B) as [ | p | p] eqn:Ep; try lia.
  unfold binary_normalize.
  destruct (binary_round_spec prec emax prec_pos p ez ltac:(unfold ez; lia))
    as [Hof Hrel].
  set (r := binary_round prec emax false p ez) in *.
  assert (Hx : (0 < inject_Z (Zpos p) * pow2 ez)%Q).
  { assert ((0 < inject_Z (Zpos p))%Q) by (rewrite <- (Zlt_Qlt 0); lia).
    nra. }
  destruct (fl_of_cases r _ Hof) as [-> | Hr]; [reflexivity | ].
  apply gt_zero_of_pos; [exact Hr | ].
  destruct Hrel as [E | [_ Hrel]].
  { rewrite E in Hr. discriminate. }
  apply Qabs_Qle_condition in Hrel. destruct Hrel as [Hlo _].
  rewrite unit_roundoff in Hlo.
  assert (Hu : (pow2 (-52) < 1)%Q) by (vm_compute; reflexivity).
  nra.
Qed.

Lemma emin_value : emin prec emax = -1074.
Proof. reflexivity. Qed.

Lemma mod_one_negative (m k r : positive) :
  emin prec emax <= Zneg k ->
  Zpos m mod 2 ^ Zpos k = Zpos r ->
  gt_zero (mod_one (S754_finite true m (Zneg k))) = true.
Proof.
  intros He Hr. unfold mod_one. rewrite Z.land_ones by lia. rewrite Hr.
  pose proof (F2Q_renorm false r (Zneg k)) as HF.
  unfold renorm in HF |- *.
  destruct (shl_align_spec r (Zneg k)
              (fexp prec emax (Zpos (digits2_pos r) + Zneg k))) as [Hs _].
  pose proof (fexp_ge_emin prec emax (Zpos (digits2_pos r) + Zneg k)) as Hfe.
  destruct (shl_align r (Zneg k)
              (fexp prec emax (Zpos (digits2_pos r) + Zneg k))) as [r' e'].
  cbn [fst snd] in Hs. cbn [F2Q cond_Zopp] in HF.
  change (Z2SF 1) with (S754_finite false 4503599627370496 (-52)).
  apply fadd_neg_pos_gt.
  - lia.
  - rewrite emin_value. lia.
  - rewrite HF.
    assert (Hp : 0 < 2 ^ Zpos k) by (apply Z.pow_pos_nonneg; lia).
    pose proof (Z.mod_pos_bound (Zpos m) (2 ^ Zpos k) Hp) as Hmod.
    rewrite Hr in Hmod.
    assert (E1 : (inject_Z 4503599627370496 * pow2 (-52) == 1)%Q)
      by (vm_compute; reflexivity).
    rewrite E1.
    change (Zneg k) with (- Zpos k). rewrite pow2_opp, pow2_Z by lia.
    assert (Hq : (0 < inject_Z (2 ^ Zpos k))%Q)
      by (rewrite <- (Zlt_Qlt 0); lia).
    apply Qlt_shift_div_r; [exact Hq | ].
    rewrite Qmult_1_l, <- Zlt_Qlt. lia.
Qed.

Lemma F2Q_negative (m : positive) (e : Z) :
  (F2Q (S754_finite true m e) == - F2Q (S754_finite false m e))%Q.
Proof.
  cbn [F2Q cond_Zopp]. change (Zneg m) with (- Zpos m).
  rewrite inject_Z_opp. ring.
Qed.

(** ** Bounds that keep the figures finite *)








(** * The calculation on the widgets' ranges *)

(** X1. With every input inside its widget's range the block never
    divides by zero and never yields a NaN or a negative figure: it
    returns thirteen figures that are each a non-negative double or
    [+inf], or it raises [OverflowError], and that only for a tenure
    beyond [2^1023], which [float()] cannot convert. *)
Theorem in_range_figures (i : inputs) :
  widget_range i = true ->
  match calculation i with
  | Ok c => forallb figure_ok (figures_of c) = true
  | Raise e => e = OverflowError /\ 2 ^ 1023 < avg_tenure i
  end.
Proof.
  intros Hr.
  destruct (of_int (avg_tenure i)) as [t | e] eqn:Ht.
  - destruct (in_range_runs i t Hr Ht) as [c Hc]. rewrite Hc.
    destruct (in_range_figure_ok i c Hr Hc)
      as ([Hfee _] & [Hbank _] & [Hloans _] & [Hns _] & HI0 & HI1 & HI2
          & Hrep & HC0 & HC1 & HC2 & Htot & Hnc).
    apply amount_ok_figure in Hfee, Hbank, Hloans, Hns.
    unfold figures_of. cbn [forallb].
    rewrite Hfee, Hbank, Hloans, Hns, HI0, HI1, HI2, Hrep, HC0, HC1, HC2,
      Htot, Hnc.
    reflexivity.
  - rewrite (in_range_overflow i e Ht).
    destruct (of_int_Raise _ _ Ht) as [H | H]; [exact H | ].
    destruct (widget_range_inv i Hr) as (_ & _ & _ & _ & _ & _ & _ & Hten & _).
    lia.
Qed.

Lemma in_range_figures_witness :
  widget_range defaults = true
  /\ match calculation defaults with
     | Ok c => forallb figure_ok (figures_of c) = true
     | Raise e => e = OverflowError /\ 2 ^ 1023 < avg_tenure defaults
     end.
Proof.
  split; [vm_compute; reflexivity | ].
  apply (in_range_figures defaults). vm_compute. reflexivity.
Defined.



(** X3. When nothing was disbursed in any of the three months, every
    figure of the block is [+0.0], whatever the rate, the tenure and the
    targets are, and the page shows no loans and no staff. *)
Theorem nothing_disbursed (i : inputs) (c : calc) :
  widget_range i = true -> calculation i = Ok c ->
  loan_amt_current i = pzero -> loan_amt_t1 i = pzero ->
  loan_amt_t2 i = pzero ->
  figures_of c = repeat pzero 13
  /\ render i = Ok {| figures := c;
                      loan_count := 0;
                      total_headcount := 0;
                      sanction_headcount_rounded := 0;
                      collection_headcount_rounded := 0;
                      reported_total := 0 |}.
Proof.
  intros Hr Hc E0 E1 E2.
  destruct (widget_range_inv i Hr)
    as (HD & Hpf & Hpf100 & Hroi & Hroi10 & Htk & Htk1 & Hten & Hdays
        & H1 & H2 & Hst & Hst1 & Hct & Hct1).
  destruct (in_range_facts i c Hr Hc)
    as ([Hrate Hrate1] & [Ht Ht1] & [Hd Hd1] & Epf & Ebank & Erep & Eloans
        & Ens & EI0 & EI1 & EI2 & EC0 & EC1 & EC2 & Etot & Enc).
  destruct (rate_ok (pf_percentage i) Hpf) as (_ & Hpr & _).
  rewrite E0 in *. rewrite E1 in *. rewrite E2 in *.
  rewrite (fmul_pzero_r _ Hpr) in Epf.
  rewrite Epf in Ebank. change (fsub pzero pzero) with pzero in Ebank.
  rewrite (fdiv_pzero _ Htk Htk1) in Eloans.
  rewrite (fdiv_pzero _ Hd Hd1), (fdiv_pzero _ Hst Hst1) in Ens.
  rewrite (fmul_pzero_l _ Hrate), (fmul_pzero_l _ Ht) in EI0, EI1, EI2.
  rewrite EI0 in Erep, EC0. rewrite EI1 in EC1. rewrite EI2 in EC2.
  change (fadd pzero pzero) with pzero in Erep, EC0, EC1, EC2.
  change (fmul pzero w_0_11) with pzero in EC0, EC2.
  change (fmul pzero w_0_78) with pzero in EC1.
  rewrite EC0, EC1, EC2 in Etot.
  change (fadd (fadd pzero pzero) pzero) with pzero in Etot.
  rewrite Etot, (fdiv_pzero _ Hct Hct1) in Enc.
  split.
  - unfold figures_of.
    rewrite Epf, Ebank, Erep, Eloans, Ens, EI0, EI1, EI2, EC0, EC1, EC2,
      Etot, Enc.
    reflexivity.
  - apply (render_of_parts i c 0 0 0 Hc).
    + rewrite Eloans. reflexivity.
    + rewrite Ens. reflexivity.
    + rewrite Enc. reflexivity.
Qed.

Lemma nothing_disbursed_witness :
  exists c,
    calculation (with_disbursements pzero pzero pzero defaults) = Ok c
    /\ figures_of c = repeat pzero 13.
Proof.
  destruct (calculation (with_disbursements pzero pzero pzero defaults))
    as [c | e] eqn:Hc; [ | vm_compute in Hc; discriminate].
  exists c. split; [reflexivity | ].
  assert (Hr : widget_range (with_disbursements pzero pzero pzero defaults)
               = true) by (vm_compute; reflexivity).
  apply (nothing_disbursed _ c Hr Hc eq_refl eq_refl eq_refl).
Defined.

(** * More demand never needs fewer people *)

(** X4. Between two in-range scenarios of which the second has no
    smaller disbursements, rate and tenure and no larger month, ticket
    size and per-person targets, no demand figure of the block goes
    down: loan quotient, exact headcounts, interests, repayment,
    collection components and total.  Rounding cannot invert the order,
    and a figure that overflowed to [+inf] stays [+inf]. *)
Theorem figures_monotone (i i' : inputs) (c c' : calc) :
  widget_range i = true -> widget_range i' = true -> more_demand i i' ->
  calculation i = Ok c -> calculation i' = Ok c' ->
  Forall2 ext_le
    [no_of_loans c; no_sanction_sales c; interest_current c; interest_t1 c;
     interest_t2 c; repayment_amt c; collection_current c; collection_t1 c;
     collection_t2 c; total_collection_required c; no_collection c]
    [no_of_loans c'; no_sanction_sales c'; interest_current c';
     interest_t1 c'; interest_t2 c'; repayment_amt c'; collection_current c';
     collection_t1 c'; collection_t2 c'; total_collection_required c';
     no_collection c'].
Proof.
  intros Hr Hr' Hm Hc Hc'.
  destruct (block_monotone i i' c c' Hr Hr' Hm Hc Hc')
    as (M1 & M2 & M3 & M4 & M5 & M6 & M7 & M8 & M9 & M10 & M11).
  repeat (constructor; [assumption | ]). constructor.
Qed.

Lemma figures_monotone_witness :
  exists c c',
    calculation defaults = Ok c
    /\ calculation
         (with_disbursements (Z2SF 20000000) (Z2SF 8000000) (Z2SF 5000000)
            defaults) = Ok c'
    /\ ext_le (no_collection c) (no_collection c').
Proof.
  destruct (calculation defaults) as [c | e] eqn:Hc;
    [ | vm_compute in Hc; discriminate].
  destruct (calculation
              (with_disbursements (Z2SF 20000000) (Z2SF 8000000)
                 (Z2SF 5000000) defaults)) as [c' | e] eqn:Hc';
    [ | vm_compute in Hc'; discriminate].
  exists c, c'. split; [reflexivity | ]. split; [reflexivity | ].
  assert (Hr : widget_range defaults = true) by (vm_compute; reflexivity).
  assert (Hr' : widget_range
                  (with_disbursements (Z2SF 20000000) (Z2SF 8000000)
                     (Z2SF 5000000) defaults) = true)
    by (vm_compute; reflexivity).
  assert (Hm : more_demand defaults
                 (with_disbursements (Z2SF 20000000) (Z2SF 8000000)
                    (Z2SF 5000000) defaults)).
  { unfold more_demand.
    repeat match goal with |- _ /\ _ => split end;
      vm_compute; discriminate. }
  pose proof (figures_monotone _ _ c c' Hr Hr' Hm Hc Hc') as H.
  repeat match goal with
         | H : Forall2 _ (_ :: _) (_ :: _) |- _ =>
             apply Forall2_cons_iff in H; destruct H as [? H]
         end.
  assumption.
Defined.

(** X5. Between two such scenarios, if the more demanding one renders,
    so does the other, and it shows no more loans, no larger rounded
    headcount for either team and no larger total, on the tile and in
    the summary. *)
Theorem headcounts_monotone (i i' : inputs) (o' : outputs) :
  widget_range i = true -> widget_range i' = true -> more_demand i i' ->
  render i' = Ok o' ->
  exists o,
    render i = Ok o
    /\ loan_count o <= loan_count o'
    /\ sanction_headcount_rounded o <= sanction_headcount_rounded o'
    /\ collection_headcount_rounded o <= collection_headcount_rounded o'
    /\ total_headcount o <= total_headcount o'
    /\ reported_total o <= reported_total o'.
Proof.
  intros Hr Hr' Hm Ho'.
  destruct (render_parts i' o' Ho') as (Hc' & Hn' & Hs' & Hk' & Ht' & Hrt').
  set (c' := figures o') in *.
  destruct (widget_range_inv i Hr)
    as (_ & _ & _ & _ & _ & _ & _ & Hten & _).
  destruct (calculation_fields i' c' Hc') as (t' & d' & Hten' & _).
  destruct (of_int_downward (avg_tenure i) (avg_tenure i') t') as [t Ht];
    [pose proof Hm as (_ & _ & L & _); lia | exact Hten' | ].
  destruct (in_range_runs i t Hr Ht) as [c Hc].
  destruct (block_monotone i i' c c' Hr Hr' Hm Hc Hc')
    as (Ml & Ms & _ & _ & _ & _ & _ & _ & _ & _ & Mk).
  destruct (in_range_figure_ok i c Hr Hc)
    as (_ & _ & [Fl _] & [Fs _] & _ & _ & _ & _ & _ & _ & _ & _ & Fk).
  destruct (in_range_figure_ok i' c' Hr' Hc')
    as (_ & _ & [Fl' _] & [Fs' _] & _ & _ & _ & _ & _ & _ & _ & _ & Fk').
  destruct (ext_le_finite _ _ Fk Fk' Mk (rounded_Ok_finite _ _ Hk'))
    as (Ak & Ak' & Lk).
  pose proof (ext_le_F2Q _ _ Fl Fl' Ml) as Ll.
  pose proof (ext_le_F2Q _ _ Fs Fs' Ms) as Ls.
  rewrite (rounded_ceiling _ Fs') in Hs'. apply Ok_inj in Hs'.
  rewrite (rounded_ceiling _ Ak') in Hk'. apply Ok_inj in Hk'.
  assert (Hn : int (no_of_loans c) = Ok (Qfloor (F2Q (no_of_loans c)))).
  { apply int_floor; [apply amount_ok_finite; exact Fl | ].
    unfold amount_ok, good in Fl. apply andb_true_iff in Fl. apply Fl. }
  assert (Hn'' : int (no_of_loans c') = Ok (Qfloor (F2Q (no_of_loans c')))).
  { apply int_floor; [apply amount_ok_finite; exact Fl' | ].
    unfold amount_ok, good in Fl'. apply andb_true_iff in Fl'. apply Fl'. }
  rewrite Hn'' in Hn'. apply Ok_inj in Hn'.
  eexists. split.
  - apply (render_of_parts i c _ _ _ Hc Hn (rounded_ceiling _ Fs)
             (rounded_ceiling _ Ak)).
  - cbn [loan_count sanction_headcount_rounded collection_headcount_rounded
           total_headcount reported_total].
    pose proof (Qfloor_resp_le _ _ Ll). pose proof (Qceiling_resp_le _ _ Ls).
    pose proof (Qceiling_resp_le _ _ Lk). lia.
Qed.

Lemma headcounts_monotone_witness :
  exists o' o,
    render (with_disbursements (Z2SF 20000000) (Z2SF 8000000)
              (Z2SF 5000000) defaults) = Ok o'
    /\ render defaults = Ok o
    /\ total_headcount o <= total_headcount o'.
Proof.
  destruct (render (with_disbursements (Z2SF 20000000) (Z2SF 8000000)
                      (Z2SF 5000000) defaults)) as [o' | e] eqn:Ho';
    [ | vm_compute in Ho'; discriminate].
  assert (Hr : widget_range defaults = true) by (vm_compute; reflexivity).
  assert (Hr' : widget_range
                  (with_disbursements (Z2SF 20000000) (Z2SF 8000000)
                     (Z2SF 5000000) defaults) = true)
    by (vm_compute; reflexivity).
  assert (Hm : more_demand defaults
                 (with_disbursements (Z2SF 20000000) (Z2SF 8000000)
                    (Z2SF 5000000) defaults)).
  { unfold more_demand.
    repeat match goal with |- _ /\ _ => split end;
      vm_compute; discriminate. }
  destruct (headcounts_monotone _ _ o' Hr Hr' Hm Ho')
    as (o & Ho & _ & _ & _ & Ht & _).
  exists o', o. split; [reflexivity | ]. split; [exact Ho | exact Ht].
Defined.

(** X6. Between two in-range scenarios, a fee percentage and a
    disbursement that are no smaller give a processing fee that is no
    smaller; and at the same disbursement a fee percentage that is no
    smaller leaves no more in the bank.  Both hold for the rounded
    figures the block stores. *)
Theorem fee_monotone (i i' : inputs) (c c' : calc) :
  widget_range i = true -> widget_range i' = true ->
  calculation i = Ok c -> calculation i' = Ok c' ->
  (F2Q (pf_percentage i) <= F2Q (pf_percentage i'))%Q ->
  (F2Q (loan_amt_current i) <= F2Q (loan_amt_current i'))%Q ->
  (F2Q (pf_amount c) <= F2Q (pf_amount c'))%Q
  /\ ((F2Q (loan_amt_current i) == F2Q (loan_amt_current i'))%Q ->
      (F2Q (amt_in_bank c') <= F2Q (amt_in_bank c))%Q).
Proof.
  intros Hr Hr' Hc Hc' Lpf LD.
  destruct (widget_range_inv i Hr) as (HD & Hpf & Hpf100 & _).
  destruct (widget_range_inv i' Hr') as (HD' & Hpf' & Hpf100' & _).
  destruct (in_range_facts i c Hr Hc) as (_ & _ & _ & Epf & Ebank & _).
  destruct (in_range_facts i' c' Hr' Hc') as (_ & _ & _ & Epf' & Ebank' & _).
  destruct (in_range_figure_ok i c Hr Hc) as ([Ffee Bfee] & [Fbank _] & _).
  destruct (in_range_figure_ok i' c' Hr' Hc')
    as ([Ffee' Bfee'] & [Fbank' _] & _).
  destruct (rate_ok _ Hpf) as (_ & Hpr & _).
  destruct (rate_ok _ Hpf') as (_ & Hpr' & _).
  pose proof (rate_mono _ _ Hpf Hpf' Lpf) as Lrate.
  assert (Lfee : (F2Q (pf_amount c) <= F2Q (pf_amount c'))%Q).
  { apply ext_le_F2Q; [exact Ffee | exact Ffee' | ].
    rewrite Epf, Epf'. apply fmul_mono; assumption. }
  split; [exact Lfee | ].
  intros ED. apply ext_le_F2Q; [exact Fbank' | exact Fbank | ].
  rewrite Ebank, Ebank'.
  apply (fl_near_mono prec emax prec_pos _ _ _ _
           (fsub_near _ _ HD' Ffee' Bfee') (fsub_near _ _ HD Ffee Bfee)).
  lra.
Qed.

Lemma fee_monotone_witness :
  exists c c',
    calculation (scenario (Z2SF 10000000) (literal 5 1) (Z2SF 1) 25) = Ok c
    /\ calculation defaults = Ok c'
    /\ (F2Q (pf_amount c) <= F2Q (pf_amount c'))%Q
    /\ (F2Q (amt_in_bank c') <= F2Q (amt_in_bank c))%Q.
Proof.
  destruct (calculation (scenario (Z2SF 10000000) (literal 5 1) (Z2SF 1) 25))
    as [c | e] eqn:Hc; [ | vm_compute in Hc; discriminate].
  destruct (calculation defaults) as [c' | e] eqn:Hc';
    [ | vm_compute in Hc'; discriminate].
  exists c, c'. split; [reflexivity | ]. split; [reflexivity | ].
  assert (Hr : widget_range
                 (scenario (Z2SF 10000000) (literal 5 1) (Z2SF 1) 25) = true)
    by (vm_compute; reflexivity).
  assert (Hr' : widget_range defaults = true) by (vm_compute; reflexivity).
  destruct (fee_monotone _ _ c c' Hr Hr' Hc Hc') as [H1 H2].
  - vm_compute. discriminate.
  - vm_compute. discriminate.
  - split; [exact H1 | ]. apply H2. vm_compute. reflexivity.
Defined.

(** X7. In range, the total collection required is never below any of
    its three components, the repayment amount is never below the
    interest or the disbursement, and the current month's collection
    never exceeds the repayment amount it is a share of. *)
Theorem total_dominates (i : inputs) (c : calc) :
  widget_range i = true -> calculation i = Ok c ->
  ext_le (collection_current c) (total_collection_required c)
  /\ ext_le (collection_t1 c) (total_collection_required c)
  /\ ext_le (collection_t2 c) (total_collection_required c)
  /\ ext_le (interest_current c) (repayment_amt c)
  /\ ext_le (loan_amt_current i) (repayment_amt c)
  /\ ext_le (collection_current c) (repayment_amt c).
Proof.
  intros Hr Hc.
  destruct (widget_range_inv i Hr) as (HD & _).
  destruct (in_range_facts i c Hr Hc)
    as (_ & _ & _ & _ & _ & Erep & _ & _ & _ & _ & _ & EC0 & _ & _ & Etot & _).
  destruct (in_range_figure_ok i c Hr Hc)
    as (_ & _ & _ & _ & FI0 & _ & _ & Frep & FC0 & FC1 & FC2 & Ftot & _).
  pose proof (amount_ok_figure _ HD) as FD.
  pose proof (fadd_figure _ _ FC0 FC1) as F01.
  repeat match goal with |- _ /\ _ => split end.
  - rewrite Etot.
    apply (ext_le_trans _ (fadd (collection_current c) (collection_t1 c)));
      auto using fadd_ge_l.
  - rewrite Etot.
    apply (ext_le_trans _ (fadd (collection_current c) (collection_t1 c)));
      auto using fadd_ge_l, fadd_ge_r.
  - rewrite Etot. auto using fadd_ge_r.
  - rewrite Erep. auto using fadd_ge_r.
  - rewrite Erep. auto using fadd_ge_l.
  - rewrite EC0, <- Erep.
    destruct (proj1 (figure_ok_cases _) Frep) as [E | Hfin].
    + left. exact E.
    + destruct w_0_11_ok as [Hw _].
      destruct (share_ok _ _ Hfin Hw) as [H1 H2].
      { vm_compute. discriminate. }
      apply ext_le_of_le; assumption.
Qed.

Lemma total_dominates_witness :
  exists c,
    calculation defaults = Ok c
    /\ ext_le (collection_t1 c) (total_collection_required c).
Proof.
  destruct (calculation defaults) as [c | e] eqn:Hc;
    [ | vm_compute in Hc; discriminate].
  exists c. split; [reflexivity | ].
  assert (Hr : widget_range defaults = true) by (vm_compute; reflexivity).
  destruct (total_dominates defaults c Hr Hc) as (_ & H & _). exact H.
Defined.

(** * The lakh figures *)

(** X8. In range, none of the fourteen lakh figures the page formats
    fails or is a NaN or negative: each is a non-negative double or
    [+inf].  This includes the delta of the repayment tile, which
    subtracts the disbursement from the repayment amount. *)
Theorem lakh_cells_in_range (i : inputs) (c : calc) :
  widget_range i = true -> calculation i = Ok c ->
  exists l,
    lakh_cells i c = Ok l
    /\ List.length l = 14%nat
    /\ forallb figure_ok l = true.
Proof.
  intros Hr Hc.
  destruct (widget_range_inv i Hr)
    as (HD & _ & _ & _ & _ & _ & _ & _ & _ & H1 & H2 & _).
  destruct (in_range_figure_ok i c Hr Hc)
    as ([Hfee _] & [Hbank _] & _ & _ & HI0 & HI1 & HI2
        & Hrep & HC0 & HC1 & HC2 & Htot & _).
  pose proof (repayment_ge_disbursement i c Hr Hc) as Hle.
  eexists. split; [reflexivity | ]. split; [reflexivity | ].
  cbn [forallb].
  rewrite !lakhs_figure; auto using amount_ok_figure, fsub_figure.
Qed.

Lemma lakh_cells_in_range_witness :
  exists c l,
    calculation defaults = Ok c
    /\ lakh_cells defaults c = Ok l
    /\ forallb figure_ok l = true.
Proof.
  destruct (calculation defaults) as [c | e] eqn:Hc;
    [ | vm_compute in Hc; discriminate].
  assert (Hr : widget_range defaults = true) by (vm_compute; reflexivity).
  destruct (lakh_cells_in_range defaults c Hr Hc) as (l & Hl & _ & Hf).
  exists c, l. split; [reflexivity | ]. split; [exact Hl | exact Hf].
Defined.

(** X9. Scaling to lakhs never fails and never reorders two figures:
    of two figures the larger one has the larger, or the same, lakh
    figure. *)
Theorem lakhs_monotone (x y : float) :
  figure_ok x = true -> figure_ok y = true -> ext_le x y ->
  exists x' y',
    lakhs x = Ok x' /\ lakhs y = Ok y'
    /\ figure_ok x' = true /\ figure_ok y' = true /\ ext_le x' y'.
Proof.
  intros Hx Hy Hle. destruct amount_ok_lakh as [Hk Hv].
  exists (SFdiv prec emax x (Z2SF 100000)), (SFdiv prec emax y (Z2SF 100000)).
  repeat match goal with |- _ /\ _ => split end;
    auto using lakhs_Ok, lakhs_figure.
  apply fdiv_ext_mono; try assumption; rewrite Hv; [reflexivity | lra].
Qed.

Lemma lakhs_monotone_witness :
  exists x' y',
    lakhs (Z2SF 8000000) = Ok x' /\ lakhs (Z2SF 10000000) = Ok y'
    /\ ext_le x' y'.
Proof.
  destruct (lakhs_monotone (Z2SF 8000000) (Z2SF 10000000))
    as (x' & y' & Hx & Hy & _ & _ & H).
  - reflexivity.
  - reflexivity.
  - apply ext_le_of_le; [reflexivity | reflexivity | vm_compute; discriminate].
  - exists x', y'. auto.
Defined.

(** X10. In range, the daily target shown in the sanction box is the
    value the exact headcount was computed from: dividing it by the
    per-person target gives the stored headcount.  The daily target
    never exceeds the month's disbursement, and the exact headcount
    never exceeds the daily target. *)
Theorem daily_target_shown (i : inputs) (c : calc) :
  widget_range i = true -> calculation i = Ok c ->
  exists d,
    daily_target i = Ok d
    /\ fdiv d (sanction_sales_target i) = Ok (no_sanction_sales c)
    /\ amount_ok d = true
    /\ (F2Q (no_sanction_sales c) <= F2Q d)%Q
    /\ (F2Q d <= F2Q (loan_amt_current i))%Q.
Proof.
  intros Hr Hc.
  destruct (widget_range_inv i Hr)
    as (HD & _ & _ & _ & _ & _ & _ & _ & Hdays & _ & _ & Hst & Hst1 & _).
  destruct (calculation_fields i c Hc)
    as (t & d & _ & Hd & _ & Hdz & Hsz & _ & Hf).
  cbv zeta in Hf. destruct Hf as (_ & _ & _ & _ & Ens & _).
  destruct (of_int_ge_1 _ _ (proj1 Hdays) Hd) as [Hdok Hd1].
  destruct (quotient_ok _ _ HD Hdok Hd1) as [Hq1 Hq2].
  destruct (quotient_ok _ _ Hq1 Hst Hst1) as [_ Hq3].
  exists (SFdiv prec emax (loan_amt_current i) d).
  repeat match goal with |- _ /\ _ => split end.
  - unfold daily_target, fdiv_int. rewrite Hd. unfold bind, fdiv.
    rewrite Hdz. reflexivity.
  - unfold fdiv. rewrite Hsz, Ens. reflexivity.
  - exact Hq1.
  - rewrite Ens. exact Hq3.
  - exact Hq2.
Qed.

Lemma daily_target_shown_witness :
  exists c d,
    calculation defaults = Ok c
    /\ daily_target defaults = Ok d
    /\ fdiv d (sanction_sales_target defaults) = Ok (no_sanction_sales c).
Proof.
  destruct (calculation defaults) as [c | e] eqn:Hc;
    [ | vm_compute in Hc; discriminate].
  assert (Hr : widget_range defaults = true) by (vm_compute; reflexivity).
  destruct (daily_target_shown defaults c Hr Hc) as (d & H1 & H2 & _).
  exists c, d. auto.
Defined.

(** * The rounding expression below zero *)

(** X11. On a negative double the rounding expression of the
    headcounts is not the ceiling: a negative value with a fractional
    part goes to its ceiling plus one (so -2.5 gives -1), because
    [x % 1] is positive there while [int] already rounded toward zero;
    a whole negative value is left as it is. *)
Theorem rounded_negative (m : positive) (e : Z) :
  valid_binary prec emax (S754_finite true m e) = true ->
  rounded (S754_finite true m e)
  = Ok (Qceiling (F2Q (S754_finite true m e))
        + (if Qeq_dec (inject_Z (Qceiling (F2Q (S754_finite true m e))))
                (F2Q (S754_finite true m e))
           then 0 else 1)).
Proof.
  intros Hv. cbn [valid_binary] in Hv.
  destruct (bounded_facts prec emax m e Hv) as (_ & _ & Hemin & _).
  assert (Hceil : Qceiling (F2Q (S754_finite true m e))
                  = - Qfloor (F2Q (S754_finite false m e))).
  { unfold Qceiling. f_equal. apply Qfloor_comp.
    rewrite F2Q_negative. ring. }
  pose proof (int_floor (S754_finite false m e) eq_refl eq_refl) as Hint.
  assert (Hneg : int (S754_finite true m e)
                 = Ok (- Qfloor (F2Q (S754_finite false m e)))).
  { unfold int in Hint |- *. apply Ok_inj in Hint. rewrite <- Hint.
    reflexivity. }
  unfold rounded. rewrite Hneg. unfold bind. rewrite Hceil. f_equal. f_equal.
  assert (Hwhole : forall e', 0 <= e' ->
            increment (S754_finite true m e') = 0
            /\ (inject_Z (- Qfloor (F2Q (S754_finite false m e')))
                == F2Q (S754_finite true m e'))%Q).
  { intros e' He'. split.
    - destruct e'; [reflexivity | reflexivity | lia].
    - rewrite (Qfloor_comp _ _ (F2Q_integral m e' He')), Qfloor_Z.
      rewrite F2Q_negative, (F2Q_integral m e' He'), inject_Z_opp.
      reflexivity. }
  destruct e as [ | p | k].
  - destruct (Hwhole 0 ltac:(lia)) as [-> Hq].
    destruct (Qeq_dec _ _) as [_ | Hn]; [reflexivity | contradiction].
  - destruct (Hwhole (Zpos p) ltac:(lia)) as [-> Hq].
    destruct (Qeq_dec _ _) as [_ | Hn]; [reflexivity | contradiction].
  - assert (Hp : 0 < 2 ^ Zpos k) by (apply Z.pow_pos_nonneg; lia).
    pose proof (Z.div_mod (Zpos m) (2 ^ Zpos k) ltac:(lia)) as Hdm.
    pose proof (Z.mod_pos_bound (Zpos m) (2 ^ Zpos k) Hp) as Hmod.
    assert (Hfl : Qfloor (F2Q (S754_finite false m (Zneg k)))
                  = Zpos m / 2 ^ Zpos k).
    { rewrite F2Q_shifted, <- Zdiv_Qdiv. reflexivity. }
    assert (Hq : (0 < inject_Z (2 ^ Zpos k))%Q)
      by (rewrite <- (Zlt_Qlt 0); lia).
    assert (Hval : (F2Q (S754_finite true m (Zneg k))
                    == - (inject_Z (Zpos m / 2 ^ Zpos k)
                          + inject_Z (Zpos m mod 2 ^ Zpos k)
                            / inject_Z (2 ^ Zpos k)))%Q).
    { rewrite F2Q_negative, F2Q_shifted. rewrite Hdm at 1.
      rewrite inject_Z_plus, inject_Z_mult. field. lra. }
    rewrite Hfl.
    destruct (Zpos m mod 2 ^ Zpos k) as [ | r | r] eqn:Er; [ | | lia].
    + assert (Hinc : increment (S754_finite true m (Zneg k)) = 0).
      { unfold increment, mod_one. rewrite Z.land_ones by lia. rewrite Er.
        reflexivity. }
      rewrite Hinc.
      destruct (Qeq_dec _ _) as [_ | Hn]; [reflexivity | ].
      exfalso. apply Hn. rewrite Hval, inject_Z_opp.
      change (inject_Z 0) with 0%Q. field. lra.
    + assert (Hinc : increment (S754_finite true m (Zneg k)) = 1).
      { unfold increment. rewrite (mod_one_negative m k r Hemin Er).
        reflexivity. }
      rewrite Hinc.
      destruct (Qeq_dec _ _) as [Heq | _]; [ | reflexivity].
      exfalso. rewrite Hval, inject_Z_opp in Heq.
      assert (Hr : (0 < inject_Z (Zpos r) / inject_Z (2 ^ Zpos k))%Q).
      { apply Qlt_shift_div_l; [exact Hq | ].
        rewrite Qmult_0_l. rewrite <- (Zlt_Qlt 0). lia. }
      lra.
Qed.

Lemma rounded_negative_witness :
  rounded (S754_finite true 5629499534213120 (-51)) = Ok (-1).
Proof.
  rewrite (rounded_negative 5629499534213120 (-51) eq_refl).
  vm_compute. reflexivity.
Defined.

(** * Runs that cannot fail *)



(** X13. In range, the total staff shown is at least the sum of the two
    exact headcounts and exceeds it by less than two: each team is
    rounded up by less than one person. *)
Theorem staff_total_overshoot (i : inputs) (o : outputs) :
  widget_range i = true -> render i = Ok o ->
  (F2Q (no_sanction_sales (figures o)) + F2Q (no_collection (figures o))
   <= inject_Z (total_headcount o))%Q
  /\ (inject_Z (total_headcount o)
      < F2Q (no_sanction_sales (figures o))
        + F2Q (no_collection (figures o)) + 2)%Q
  /\ reported_total o = total_headcount o.
Proof.
  intros Hr Ho.
  destruct (render_parts i o Ho) as (Hc & _ & Hs & Hk & Ht & Hrt).
  destruct (in_range_figure_ok i _ Hr Hc)
    as (_ & _ & _ & [Fs _] & _ & _ & _ & _ & _ & _ & _ & _ & Fk).
  pose proof (figure_finite _ Fk (rounded_Ok_finite _ _ Hk)) as Ak.
  rewrite (rounded_ceiling _ Fs) in Hs. apply Ok_inj in Hs.
  rewrite (rounded_ceiling _ Ak) in Hk. apply Ok_inj in Hk.
  rewrite Hrt, Ht, <- Hs, <- Hk, inject_Z_plus.
  pose proof (Qle_ceiling (F2Q (no_sanction_sales (figures o)))).
  pose proof (Qle_ceiling (F2Q (no_collection (figures o)))).
  pose proof (Qceiling_lt (F2Q (no_sanction_sales (figures o)))) as L1.
  pose proof (Qceiling_lt (F2Q (no_collection (figures o)))) as L2.
  unfold Z.sub in L1, L2. rewrite inject_Z_plus in L1, L2.
  rewrite inject_Z_opp in L1, L2. change (inject_Z 1) with 1%Q in L1, L2.
  split; [lra | split; [lra | reflexivity]].
Qed.

Lemma staff_total_overshoot_witness :
  exists o,
    render defaults = Ok o
    /\ (F2Q (no_sanction_sales (figures o)) + F2Q (no_collection (figures o))
        <= inject_Z (total_headcount o))%Q.
Proof.
  destruct (render defaults) as [o | e] eqn:Ho;
    [ | vm_compute in Ho; discriminate].
  assert (Hr : widget_range defaults = true) by (vm_compute; reflexivity).
  destruct (staff_total_overshoot defaults o Hr Ho) as (H & _).
  exists o. split; [reflexivity | exact H].
Defined.

(** * What the headcounts do not depend on *)

(** X14. The sanction headcount shown depends only on the current
    disbursement, the days in the month and the sanction target; the
    collection headcount only on the three disbursements, the rate, the
    tenure and the collection target.  In particular the fee percentage
    and the ticket size influence neither. *)
Theorem headcounts_frame (i i' : inputs) (o o' : outputs) :
  render i = Ok o -> render i' = Ok o' ->
  loan_amt_current i = loan_amt_current i' ->
  (no_of_days i = no_of_days i' ->
   sanction_sales_target i = sanction_sales_target i' ->
   sanction_headcount_rounded o = sanction_headcount_rounded o')
  /\ (loan_amt_t1 i = loan_amt_t1 i' -> loan_amt_t2 i = loan_amt_t2 i' ->
      roi_per_day i = roi_per_day i' -> avg_tenure i = avg_tenure i' ->
      collection_target i = collection_target i' ->
      collection_headcount_rounded o = collection_headcount_rounded o').
Proof.
  intros Ho Ho' ED.
  destruct (render_parts i o Ho) as (Hc & _ & Hs & Hk & _).
  destruct (render_parts i' o' Ho') as (Hc' & _ & Hs' & Hk' & _).
  destruct (calculation_fields i _ Hc) as (t & d & Ht & Hd & _ & _ & _ & _ & Hf).
  destruct (calculation_fields i' _ Hc')
    as (t' & d' & Ht' & Hd' & _ & _ & _ & _ & Hf').
  cbv zeta in Hf, Hf'.
  destruct Hf as (_ & _ & _ & _ & Ens & EI0 & EI1 & EI2 & EC0 & EC1 & EC2
                  & Etot & Enc).
  destruct Hf' as (_ & _ & _ & _ & Ens' & EI0' & EI1' & EI2' & EC0' & EC1'
                   & EC2' & Etot' & Enc').
  split.
  - intros Edays Est.
    rewrite Edays, Hd' in Hd. apply Ok_inj in Hd. subst d'.
    rewrite ED, Est, <- Ens' in Ens. rewrite Ens, Hs' in Hs.
    apply Ok_inj in Hs. symmetry. exact Hs.
  - intros E1 E2 Eroi Eten Ect.
    rewrite Eten, Ht' in Ht. apply Ok_inj in Ht. subst t'.
    rewrite ED, Eroi, <- EI0' in EI0. rewrite E1, Eroi, <- EI1' in EI1.
    rewrite E2, Eroi, <- EI2' in EI2.
    rewrite ED, EI0, <- EC0' in EC0. rewrite E1, EI1, <- EC1' in EC1.
    rewrite E2, EI2, <- EC2' in EC2.
    rewrite EC0, EC1, EC2, <- Etot' in Etot.
    rewrite Etot, Ect, <- Enc' in Enc. rewrite Enc, Hk' in Hk.
    apply Ok_inj in Hk. symmetry. exact Hk.
Qed.

Lemma headcounts_frame_witness :
  exists o o',
    render defaults = Ok o
    /\ render (scenario (Z2SF 10000000) (literal 5 1) (Z2SF 1) 25) = Ok o'
    /\ sanction_headcount_rounded o = sanction_headcount_rounded o'
    /\ collection_headcount_rounded o = collection_headcount_rounded o'.
Proof.
  destruct (render defaults) as [o | e] eqn:Ho;
    [ | vm_compute in Ho; discriminate].
  destruct (render (scenario (Z2SF 10000000) (literal 5 1) (Z2SF 1) 25))
    as [o' | e] eqn:Ho'; [ | vm_compute in Ho'; discriminate].
  destruct (headcounts_frame _ _ o o' Ho Ho' eq_refl) as [H1 H2].
  exists o, o'. split; [reflexivity | ]. split; [reflexivity | ].
  split; [apply H1 | apply H2]; reflexivity.
Defined.
